(** * transcription-to-stories: the WebVTT normalizer, the result table and
      the record-collection detection, embedded from the TypeScript sources

    - [src/lib/vttParser.ts]: [parseVTT], [enhanceTranscript]
    - [src/components/ResultsTable.tsx]: [getHeaders], [toggleRow],
      [copyToClipboard], the display form of a header
    - [src/app/api/extract-requirements/route.ts]: the guard on the request
      and the detection of the record collection inside the decoded
      provider payload
    - [src/unnamed/part_002]: the earlier [parseVTT], without the
      enhancement
    - [src/app/page.tsx]: the handlers of the two inputs and the choice of
      the transcript in [handleSubmit]
    - [src/unnamed/part_000]: [getTranscriptText], [handleRemoveFile] and
      the parsing of the answer to a custom query
    - [src/unnamed/part_001]: [togglePreloadedFile]

    A JavaScript string is a sequence of UTF-16 code units; it is modelled
    as a list of code units ([N]).  The regular expressions of the sources
    are kept as syntax trees and run by a backtracking matcher written in
    the continuation style of the ECMAScript specification. *)

From Stdlib Require Import NArith Lia Bool String Ascii.
From Stdlib Require Import Floats.SpecFloat.
From stdpp Require Import base list gmap.

Local Open Scope N_scope.
Local Open Scope list_scope.

(** ** JavaScript strings *)

Module JS.

Definition jsstring : Type := list N.

(** A literal of the source, one code unit per (ASCII) character. *)
Definition js (s : string) : jsstring :=
  List.map N_of_ascii (list_ascii_of_string s).
Arguments js s%_string.

Definition nl : string := String (ascii_of_nat 10) EmptyString.
Definition tab : string := String (ascii_of_nat 9) EmptyString.

Definition eqs (a b : jsstring) : bool := bool_decide (a = b).

(** White space and line terminators: what [trim] strips and [\s] matches. *)
Definition is_space (c : N) : bool :=
  (9 <=? c) && (c <=? 13) || (c =? 32) || (c =? 160) || (c =? 5760)
  || (8192 <=? c) && (c <=? 8202) || (c =? 8232) || (c =? 8233)
  || (c =? 8239) || (c =? 8287) || (c =? 12288) || (c =? 65279).

(** Line terminators: what [.] refuses. *)
Definition is_line_terminator (c : N) : bool :=
  (c =? 10) || (c =? 13) || (c =? 8232) || (c =? 8233).

(** [\w]: ASCII letters, digits and the underscore. *)
Definition is_word (c : N) : bool :=
  (48 <=? c) && (c <=? 57) || (65 <=? c) && (c <=? 90) || (c =? 95)
  || (97 <=? c) && (c <=? 122).

(** Upper-casing of one code unit.  The call sites only pass ASCII word
    characters, full stops and white space, on which [toUpperCase] changes
    the ASCII lower-case letters and nothing else; a code unit outside ASCII
    never canonicalizes to an ASCII one. *)
Definition upper (c : N) : N :=
  if (97 <=? c) && (c <=? 122) then c - 32 else c.

Definition toUpperCase (s : jsstring) : jsstring := List.map upper s.

Fixpoint startsWith (p s : jsstring) : bool :=
  match p, s with
  | [], _ => true
  | a :: p', b :: s' => (a =? b) && startsWith p' s'
  | _ :: _, [] => false
  end.

Fixpoint includes (p s : jsstring) : bool :=
  startsWith p s ||
  match s with
  | [] => false
  | _ :: s' => includes p s'
  end.

(** [s.split(c)] for a separator of one code unit. *)
Fixpoint split (c : N) (s : jsstring) : list jsstring :=
  match s with
  | [] => [[]]
  | x :: s' =>
      if x =? c then [] :: split c s'
      else match split c s' with
           | h :: t => (x :: h) :: t
           | [] => [[x]]
           end
  end.

Fixpoint join (sep : jsstring) (l : list jsstring) : jsstring :=
  match l with
  | [] => []
  | [a] => a
  | a :: l' => a ++ sep ++ join sep l'
  end.

Fixpoint trimStart (s : jsstring) : jsstring :=
  match s with
  | c :: s' => if is_space c then trimStart s' else s
  | [] => []
  end.

Definition trimEnd (s : jsstring) : jsstring := rev (trimStart (rev s)).

Definition trim (s : jsstring) : jsstring := trimEnd (trimStart s).

End JS.
Export JS.

(** ** Regular expressions *)

Module RegExp.

(** The constructs the patterns of the sources use. *)
Inductive regex : Type :=
| Eps
| Cls (p : N -> bool)
| Bol
| WordB
| Seq (r1 r2 : regex)
| Alt (r1 r2 : regex)
| Star (greedy : bool) (r : regex)
| Group (n : nat) (r : regex)
| Backref (n : nat).

(** The state of a match: the input before the current position (nearest
    code unit first), the input after it, and the captures. *)
Record mstate : Type := MState {
  before : jsstring;
  after : jsstring;
  caps : list (nat * jsstring)
}.

Definition cap (n : nat) (x : mstate) : option jsstring :=
  snd <$> List.find (fun p => Nat.eqb (fst p) n) (caps x).

(** What was consumed between state [x] and a later state [y]. *)
Definition consumed (x y : mstate) : jsstring :=
  firstn (length (after x) - length (after y)) (after x).

Definition is_word_opt (o : option N) : bool :=
  match o with Some c => is_word c | None => false end.

(** Canonicalize, for the ignore-case flag: see [upper]. *)
Definition canon (ic : bool) (c : N) : N := if ic then upper c else c.

(** Match the captured text [w] against the input. *)
Fixpoint backref (ic : bool) (w : jsstring) (x : mstate) : option mstate :=
  match w with
  | [] => Some x
  | a :: w' =>
      match after x with
      | c :: s =>
          if canon ic a =? canon ic c
          then backref ic w' (MState (c :: before x) s (caps x))
          else None
      | [] => None
      end
  end.

(** The repetition of a matcher [body], greedy or lazy, with continuation
    [k].  An iteration that consumed nothing is stopped; an iteration that
    goes on consumed a code unit, so [fuel], set to one more than the code
    units that remain, is never used up. *)
Fixpoint repeat_matcher (body : mstate -> (mstate -> option mstate) -> option mstate)
    (greedy : bool) (k : mstate -> option mstate) (fuel : nat) (x : mstate)
    {struct fuel} : option mstate :=
  match fuel with
  | O => None
  | S fuel' =>
      let again (_ : unit) :=
        body x (fun y =>
          if Nat.eqb (length (after y)) (length (after x))
          then None else repeat_matcher body greedy k fuel' y) in
      if greedy then
        match again tt with
        | Some z => Some z
        | None => k x
        end
      else
        match k x with
        | Some z => Some z
        | None => again tt
        end
  end.

(** The matcher of pattern [r] from state [x] with continuation [k]. *)
Fixpoint m (ic : bool) (r : regex) (x : mstate)
    (k : mstate -> option mstate) {struct r} : option mstate :=
  match r with
  | Eps => k x
  | Cls p =>
      match after x with
      | c :: s => if p c then k (MState (c :: before x) s (caps x)) else None
      | [] => None
      end
  | Bol => match before x with [] => k x | _ :: _ => None end
  | WordB =>
      if xorb (is_word_opt (head (before x))) (is_word_opt (head (after x)))
      then k x else None
  | Seq r1 r2 => m ic r1 x (fun y => m ic r2 y k)
  | Alt r1 r2 =>
      match m ic r1 x k with
      | Some z => Some z
      | None => m ic r2 x k
      end
  | Star greedy r1 =>
      repeat_matcher (m ic r1) greedy k (S (length (after x))) x
  | Group n r1 =>
      m ic r1 x (fun y =>
        k (MState (before y) (after y) ((n, consumed x y) :: caps y)))
  | Backref n =>
      match cap n x with
      | None => k x
      | Some w =>
          match backref ic w x with
          | Some y => k y
          | None => None
          end
      end
  end.

(** One attempt at the current position. *)
Definition exec_at (ic : bool) (r : regex) (pre s : jsstring) : option mstate :=
  m ic r (MState pre s []) Some.

(** The first match, scanning start positions from left to right: the
    state before the match and the state after it. *)
Fixpoint search (ic : bool) (r : regex) (pre s : jsstring)
    : option (mstate * mstate) :=
  match exec_at ic r pre s with
  | Some y => Some (MState pre s [], y)
  | None =>
      match s with
      | [] => None
      | c :: s' => search ic r (c :: pre) s'
      end
  end.

(** [s.match(r)] without the global flag. *)
Definition jsmatch (ic : bool) (r : regex) (s : jsstring)
    : option (mstate * mstate) :=
  search ic r [] s.

(** [s.replace(r, f)] with the global flag: every match, left to right, is
    replaced by [f] of the matched text and final state; the scan resumes
    after the match, or one code unit further after an empty match.
    [skip] counts the code units of the last match still to pass. *)
Fixpoint replace_from (ic : bool) (r : regex) (f : jsstring -> mstate -> jsstring)
    (pre s : jsstring) (skip : nat) {struct s} : jsstring :=
  match skip, s with
  | S n, c :: s' => replace_from ic r f (c :: pre) s' n
  | S _, [] => []
  | O, _ =>
      match exec_at ic r pre s with
      | Some y =>
          let x := MState pre s [] in
          let n := (length s - length (after y))%nat in
          f (consumed x y) y ++
          match s with
          | [] => []
          | c :: s' =>
              (if Nat.eqb n 0 then [c] else []) ++
              replace_from ic r f (c :: pre) s' (n - 1)
          end
      | None =>
          match s with
          | [] => []
          | c :: s' => c :: replace_from ic r f (c :: pre) s' 0
          end
      end
  end.

Definition replace_all (ic : bool) (r : regex)
    (f : jsstring -> mstate -> jsstring) (s : jsstring) : jsstring :=
  replace_from ic r f [] s 0.

(** [s.replace(r, f)] without the global flag: the first match only. *)
Definition replace_first (ic : bool) (r : regex)
    (f : jsstring -> mstate -> jsstring) (s : jsstring) : jsstring :=
  match search ic r [] s with
  | Some (x, y) =>
      rev (before x) ++ f (consumed x y) y ++ after y
  | None => s
  end.

(** Replacement templates: text and [$n]. *)
Inductive piece : Type :=
| Txt (t : jsstring)
| Ref (n : nat).

Definition expand (tpl : list piece) (_ : jsstring) (y : mstate) : jsstring :=
  List.concat (List.map (fun p =>
    match p with
    | Txt t => t
    | Ref n => default [] (cap n y)
    end) tpl).

(** Pattern shorthands. *)
Definition chr (c : string) : regex :=
  match js c with
  | [a] => Cls (N.eqb a)
  | _ => Eps
  end.
Arguments chr c%_string.

(** A literal under the ignore-case flag. *)
Definition chri (c : string) : regex :=
  match js c with
  | [a] => Cls (fun x => upper x =? upper a)
  | _ => Eps
  end.
Arguments chri c%_string.

Definition not_chr (c : string) : regex :=
  match js c with
  | [a] => Cls (fun x => negb (x =? a))
  | _ => Eps
  end.
Arguments not_chr c%_string.

Definition one_of (cs : string) : regex :=
  Cls (fun x => existsb (N.eqb x) (js cs)).
Arguments one_of cs%_string.

Definition plus (r : regex) : regex := Seq r (Star true r).

Definition space : regex := Cls is_space.
Definition nonspace : regex := Cls (fun c => negb (is_space c)).
Definition word : regex := Cls is_word.
Definition dot : regex := Cls (fun c => negb (is_line_terminator c)).
Definition upper_letter : regex := Cls (fun c => (65 <=? c) && (c <=? 90)).

Fixpoint seq (rs : list regex) : regex :=
  match rs with
  | [] => Eps
  | [r] => r
  | r :: rs' => Seq r (seq rs')
  end.

End RegExp.
Export RegExp.

(** ** The normalizer: src/lib/vttParser.ts *)

Module VttParser.

(** [/<v[^>]*>(.*?)<\/v>/] *)
Definition re_voice : regex :=
  seq [chr "<"; chr "v"; Star true (not_chr ">"); chr ">";
       Group 1 (Star false dot);
       chr "<"; chr "/"; chr "v"; chr ">"].

(** [/<v[^>]*>/gi] *)
Definition re_open_voice : regex :=
  seq [chr "<"; chri "v"; Star true (not_chr ">"); chr ">"].

(** [/<\/v>/gi] *)
Definition re_close_voice : regex :=
  seq [chr "<"; chr "/"; chri "v"; chr ">"].

(** [/<[^>]+>/g] *)
Definition re_tag : regex :=
  seq [chr "<"; plus (not_chr ">"); chr ">"].

(** [/\s+/g] *)
Definition re_spaces : regex := plus space.

(** [/\s+([.,!?;:])/g] *)
Definition re_space_punct : regex :=
  Seq (plus space) (Group 1 (one_of ".,!?;:")).

(** [/([.,!?;:])(\S)/g] *)
Definition re_punct_nonspace : regex :=
  Seq (Group 1 (one_of ".,!?;:")) (Group 2 nonspace).

(** [/\b(\w+)\s+\1\b/gi] *)
Definition re_repeated : regex :=
  seq [WordB; Group 1 (plus word); plus space; Backref 1; WordB].

(** [/(^\w|\.\s+\w)/g] *)
Definition re_sentence : regex :=
  Group 1 (Alt (Seq Bol word) (seq [chr "."; plus space; word])).

Definition enhanceTranscript (text : jsstring) : jsstring :=
  let enhanced := text in
  let enhanced := replace_all true re_open_voice (expand []) enhanced in
  let enhanced := replace_all true re_close_voice (expand []) enhanced in
  let enhanced := replace_all false re_tag (expand []) enhanced in
  let enhanced := replace_all false re_spaces (expand [Txt (js " ")]) enhanced in
  let enhanced := replace_all false re_space_punct (expand [Ref 1]) enhanced in
  let enhanced :=
    replace_all false re_punct_nonspace (expand [Ref 1; Txt (js " "); Ref 2])
      enhanced in
  let enhanced := replace_all true re_repeated (expand [Ref 1]) enhanced in
  let enhanced :=
    replace_all false re_sentence (fun mt _ => toUpperCase mt) enhanced in
  let enhanced :=
    trim (replace_all false re_spaces (expand [Txt (js " ")]) enhanced) in
  enhanced.

(** The state of the loop of [parseVTT]. *)
Record loop_state : Type := LoopState {
  transcriptLines : list jsstring;
  skipNext : bool
}.

(** The branches of the loop body, in the order the code tests them. *)
Inductive line_kind : Type :=
| Blank | CueId | Timing | Voice | Plain.

Definition classify (line : jsstring) : line_kind :=
  if eqs line (js "WEBVTT") || eqs line [] then Blank
  else if includes (js "-") line
          && (4 <=? length (split 45 line))%nat then CueId
  else if includes (js "-->") line then Timing
  else if startsWith (js "<v ") line then Voice
  else Plain.

(** One iteration of the loop, on the raw line [lines[i]]. *)
Definition step (st : loop_state) (raw : jsstring) : loop_state :=
  let line := trim raw in
  match classify line with
  | Blank => st
  | CueId => LoopState (transcriptLines st) true
  | Timing => LoopState (transcriptLines st) true
  | Voice =>
      let pushed :=
        match jsmatch false re_voice line with
        | Some (_, y) =>
            match cap 1 y with
            | Some (c :: t) => transcriptLines st ++ [c :: t]
            | _ => transcriptLines st
            end
        | None => transcriptLines st
        end in
      LoopState pushed false
  | Plain =>
      let pushed :=
        if negb (skipNext st) && negb (eqs line [])
        then transcriptLines st ++ [line]
        else transcriptLines st in
      LoopState pushed false
  end.

Definition run (lines : list jsstring) : loop_state :=
  fold_left step lines (LoopState [] false).

Definition parseVTT (vttContent : jsstring) : jsstring :=
  let lines := split 10 vttContent in
  let st := run lines in
  let cleanedTranscript := trim (join (js " ") (transcriptLines st)) in
  enhanceTranscript cleanedTranscript.

End VttParser.
Export VttParser.

(** ** The result table: src/components/ResultsTable.tsx *)

Module ResultsTable.

(** A record ([UserStory]): its own properties, keys and string values, in
    the order [Object.keys] lists them (for keys that are not array
    indices, the order in which they were inserted).  The component
    renders nothing for an empty [results]; the functions below are those
    it defines past that guard. *)
Definition UserStory : Type := list (jsstring * jsstring).

Definition keys (story : UserStory) : list jsstring := List.map fst story.

(** [row[header]]: [None] is [undefined]. *)
Definition get (row : UserStory) (header : jsstring) : option jsstring :=
  snd <$> List.find (fun p => eqs (fst p) header) row.

(** [headers.add(key)] on a [Set], which keeps insertion order. *)
Definition set_add (headers : list jsstring) (key : jsstring) : list jsstring :=
  if existsb (eqs key) headers then headers else headers ++ [key].

Definition getHeaders (results : list UserStory) : list jsstring :=
  fold_left (fun headers story => fold_left set_add (keys story) headers)
    results [].

(** [toggleRow]: the selection it sets.  Of the [Set<number>] only [has]
    and [size] are ever read, so the order of insertion plays no part. *)
Definition toggleRow (selectedRows : gset nat) (index : nat) : gset nat :=
  let newSelected := selectedRows in
  if bool_decide (index ∈ newSelected)
  then newSelected ∖ {[index]}
  else newSelected ∪ {[index]}.

(** [results.filter((_, index) => selectedRows.has(index))] *)
Fixpoint filter_index (selectedRows : gset nat) (index : nat)
    (results : list UserStory) : list UserStory :=
  match results with
  | [] => []
  | story :: rest =>
      if bool_decide (index ∈ selectedRows)
      then story :: filter_index selectedRows (S index) rest
      else filter_index selectedRows (S index) rest
  end.

Definition rowsToCopy (results : list UserStory) (selectedRows : gset nat)
    : list UserStory :=
  if bool_decide (0 < size selectedRows)%nat
  then filter_index selectedRows 0 results
  else results.

(** [row[header] || ''] *)
Definition cell (row : UserStory) (header : jsstring) : jsstring :=
  match get row header with
  | Some (c :: v) => c :: v
  | Some [] => []
  | None => []
  end.

Definition dataCells (headers : list jsstring) (row : UserStory)
    : list jsstring :=
  List.map (cell row) headers.

Definition headerRow (results : list UserStory) : jsstring :=
  join (js tab) (getHeaders results).

Definition dataRows (results : list UserStory) (selectedRows : gset nat)
    : jsstring :=
  join (js nl)
    (List.map (fun row => join (js tab) (dataCells (getHeaders results) row))
       (rowsToCopy results selectedRows)).

(** The text [copyToClipboard] writes to the clipboard. *)
Definition copyToClipboard (results : list UserStory) (selectedRows : gset nat)
    : jsstring :=
  headerRow results ++ js nl ++ dataRows results selectedRows.

(** [/([A-Z])/g] and [/^\w/] *)
Definition re_upper : regex := Group 1 upper_letter.
Definition re_first_word : regex := Seq Bol word.

(** The header as the rendered table shows it (line 85). *)
Definition displayHeader (header : jsstring) : jsstring :=
  replace_first false re_first_word (fun c _ => toUpperCase c)
    (trim (replace_all false re_upper (expand [Txt (js " "); Ref 1]) header)).

End ResultsTable.
Export ResultsTable.

(** ** The record collection in the provider payload:
       src/app/api/extract-requirements/route.ts *)

Module Route.

#[local] Set Warnings "-register-all".

(** What [JSON.parse] returns.  An object is the list of its own
    properties in [Object.keys] order. *)
Inductive json : Type :=
| JNull
| JBool (b : bool)
| JNum (x : spec_float)
| JStr (s : jsstring)
| JArr (items : list json)
| JObj (fields : list (jsstring * json)).

(** [parsed[key]] on a value other than [null]; [None] is [undefined].  A
    number or a boolean has no such property, and the properties of a
    string that matter here are its characters, which are strings. *)
Definition prop (parsed : json) (key : jsstring) : option json :=
  match parsed with
  | JObj fields => snd <$> List.find (fun p => eqs (fst p) key) fields
  | _ => None
  end.

Definition isArray (v : option json) : bool :=
  match v with Some (JArr _) => true | _ => false end.

(** ToBoolean *)
Definition truthy (v : option json) : bool :=
  match v with
  | None | Some JNull => false
  | Some (JBool b) => b
  | Some (JNum (S754_zero _)) | Some (JNum S754_nan) => false
  | Some (JNum _) => true
  | Some (JStr s) => negb (eqs s [])
  | Some (JArr _) | Some (JObj _) => true
  end.

(** [Object.keys(parsed)] at its use: the keys tested by [find].  The keys
    of a string are its indices, none of which holds an array. *)
Definition object_keys (parsed : json) : list jsstring :=
  match parsed with
  | JObj fields => List.map fst fields
  | _ => []
  end.

Definition items_of (v : option json) : list json :=
  match v with Some (JArr items) => items | _ => [] end.

Inductive outcome : Type :=
| Stories (userStories : list json)
| Throw (message : jsstring).

(** The body of the [try] block after [JSON.parse] and the [catch] that
    follows it: reading a property of [null] throws, and the [catch]
    rethrows. *)
Definition userStories_of (parsed : json) : outcome :=
  if isArray (Some parsed) then Stories (items_of (Some parsed))
  else match parsed with
  | JNull => Throw (js "Invalid JSON response from OpenAI")
  | _ =>
    if truthy (prop parsed (js "userStories"))
       && isArray (prop parsed (js "userStories"))
    then Stories (items_of (prop parsed (js "userStories")))
    else if truthy (prop parsed (js "requirements"))
            && isArray (prop parsed (js "requirements"))
    then Stories (items_of (prop parsed (js "requirements")))
    else
      let allKeys := object_keys parsed in
      match List.find (fun key => isArray (prop parsed key)) allKeys with
      | Some firstArrayKey => Stories (items_of (prop parsed firstArrayKey))
      | None =>
          if truthy (prop parsed (js "epicName"))
             || truthy (prop parsed (js "requirement"))
             || truthy (prop parsed (js "userStory"))
          then Stories [parsed]
          else Stories []
      end
  end.

End Route.
Export Route.

(** ** More of the regular expressions: [split] and [$] *)

Module RegExpMore.

(** [s.split(r)] for a pattern without groups and no limit: the scan of
    the specification, with [pre] the code units left of the position [q]
    (nearest first), [piece] those from [p] to [q] (nearest first), [s]
    the input from [q] on and [skip] the code units of the last match
    still to pass.  A match that ends where the piece begins moves [q]
    on; any other match closes the piece.  No match is tried at the end
    of the input. *)
Fixpoint split_from (ic : bool) (r : regex) (pre piece s : jsstring) (skip : nat)
    {struct s} : list jsstring :=
  match skip, s with
  | S n, c :: s' => split_from ic r (c :: pre) piece s' n
  | S _, [] => [rev piece]
  | O, [] => [rev piece]
  | O, c :: s' =>
      match exec_at ic r pre s with
      | Some y =>
          let n := (length s - length (after y))%nat in
          if Nat.eqb n 0 then
            match piece with
            | [] => split_from ic r (c :: pre) [c] s' 0
            | _ :: _ => rev piece :: split_from ic r (c :: pre) [c] s' 0
            end
          else rev piece :: split_from ic r (c :: pre) [] s' (n - 1)
      | None => split_from ic r (c :: pre) (c :: piece) s' 0
      end
  end.

Definition split_re (ic : bool) (r : regex) (s : jsstring) : list jsstring :=
  match s with
  | [] => match exec_at ic r [] [] with Some _ => [] | None => [[]] end
  | _ :: _ => split_from ic r [] [] s 0
  end.

(** A pattern that ends with [$] (no multiline flag): the matcher of the
    rest of the pattern, with a last continuation that accepts the end
    of the input only. *)
Definition at_end (y : mstate) : option mstate :=
  match after y with [] => Some y | _ :: _ => None end.

Fixpoint search_to_end (ic : bool) (r : regex) (pre s : jsstring)
    : option (mstate * mstate) :=
  match m ic r (MState pre s []) at_end with
  | Some y => Some (MState pre s [], y)
  | None =>
      match s with
      | [] => None
      | c :: s' => search_to_end ic r (c :: pre) s'
      end
  end.

(** [s.replace(r, f)] for such a pattern, without the global flag. *)
Definition replace_first_to_end (ic : bool) (r : regex)
    (f : jsstring -> mstate -> jsstring) (s : jsstring) : jsstring :=
  match search_to_end ic r [] s with
  | Some (x, y) => rev (before x) ++ f (consumed x y) y ++ after y
  | None => s
  end.

(** [s.endsWith(p)] *)
Definition endsWith (p s : jsstring) : bool := startsWith (rev p) (rev s).

End RegExpMore.
Export RegExpMore.

(** ** The earlier parser: src/unnamed/part_002 *)

Module VttParserV1.

(** The loop is the one of [src/lib/vttParser.ts], line for line; the
    assembled text is returned as it is. *)
Definition parseVTT (vttContent : jsstring) : jsstring :=
  let lines := split 10 vttContent in
  let st := run lines in
  let cleanedTranscript := trim (join (js " ") (transcriptLines st)) in
  cleanedTranscript.

End VttParserV1.

(** ** The guard on the request: src/app/api/extract-requirements/route.ts *)

Module RouteGuard.

(** What [POST] does with the body of the request before it calls the
    provider: a response, or the transcript to go on with. *)
Inductive guard_result : Type :=
| Respond (status : N) (error : jsstring)
| Proceed (transcript : jsstring).

(** [typeof v === 'string'] *)
Definition is_string (v : option json) : bool :=
  match v with Some (JStr _) => true | _ => false end.

Definition string_of (v : option json) : jsstring :=
  match v with Some (JStr s) => s | _ => [] end.

(** [body] is what [request.json()] gives, [None] when it rejects.  A body
    that does not parse and the body [null], whose destructuring throws,
    end in the outer [catch]. *)
Definition guard (body : option json) : guard_result :=
  match body with
  | None | Some JNull => Respond 500 (js "Failed to extract requirements")
  | Some b =>
      let transcript := prop b (js "transcript") in
      if negb (truthy transcript) || negb (is_string transcript)
      then Respond 400 (js "Invalid transcript provided")
      else Proceed (string_of transcript)
  end.

End RouteGuard.

(** ** The page with one file: src/app/page.tsx *)

Module Page.

(** A [File]: its name and what [file.text()] resolves to, [None] when
    the read fails. *)
Record File : Type := MkFile {
  name : jsstring;
  text : option jsstring
}.

(** The state the input handlers read and write, and the value of the
    file input element they reset.  The other fields of the page
    ([loading], [results], [usage]) are written by [handleSubmit] only. *)
Record state : Type := State {
  uploadedFile : option File;
  textInput : jsstring;
  error : jsstring;
  fileInputValue : jsstring
}.

Definition initial : state := State None [] [] [].

Definition both_inputs : jsstring :=
  js "Please use either file upload or text input, not both.".

(** [files] is [e.target.files]. *)
Definition handleFileUpload (st : state) (files : list File) : state :=
  match files with
  | [] => st
  | file :: _ =>
      if negb (eqs (trim (textInput st)) [])
      then State (uploadedFile st) (textInput st) both_inputs []
      else if negb (endsWith (js ".vtt") (name file))
      then State (uploadedFile st) (textInput st)
             (js "Please upload a .vtt file") []
      else State (Some file) (textInput st) [] (fileInputValue st)
  end.

(** [value] is [e.target.value]. *)
Definition handleTextChange (st : state) (value : jsstring) : state :=
  match uploadedFile st with
  | Some _ => State (uploadedFile st) (textInput st) both_inputs (fileInputValue st)
  | None => State None value [] (fileInputValue st)
  end.

Definition handleRemoveFile (st : state) : state :=
  State None (textInput st) [] [].

Definition handleClearText (st : state) : state :=
  State (uploadedFile st) [] [] (fileInputValue st).

(** [handleSubmit] up to the request: the body it posts, or the error it
    sets before it returns. *)
Inductive submission : Type :=
| Send (body : json)
| Refuse (error : jsstring).

Definition handleSubmit (st : state) : submission :=
  match uploadedFile st with
  | Some file =>
      match text file with
      | Some fileContent =>
          Send (JObj [(js "transcript", JStr (parseVTT fileContent))])
      | None => Refuse (js "Failed to read file")
      end
  | None =>
      if negb (eqs (trim (textInput st)) [])
      then Send (JObj [(js "transcript", JStr (trim (textInput st)))])
      else Refuse (js "Please provide a transcript file or text")
  end.

(** The states of the inputs that the events of the page lead to: the
    four handlers, [handleSubmit], which writes [error] only, and the
    browser, which sets the value of the file input element. *)
Inductive reachable : state -> Prop :=
| reach_initial : reachable initial
| reach_upload st files : reachable st -> reachable (handleFileUpload st files)
| reach_text st value : reachable st -> reachable (handleTextChange st value)
| reach_remove st : reachable st -> reachable (handleRemoveFile st)
| reach_clear st : reachable st -> reachable (handleClearText st)
| reach_submit st msg :
    reachable st ->
    reachable (State (uploadedFile st) (textInput st) msg (fileInputValue st))
| reach_browse st value :
    reachable st ->
    reachable (State (uploadedFile st) (textInput st) (error st) value).

End Page.

(** ** The page with several files: src/unnamed/part_000 *)

Module Home.

Import Page.

(** What [getTranscriptText] resolves to: the text, or [null] after it
    set the error. *)
Inductive transcript : Type :=
| Text (transcriptText : jsstring)
| Null (error : jsstring).

(** The loop over the files: one part per file, unless a read fails. *)
Fixpoint transcriptParts (uploadedFiles : list File) : option (list jsstring) :=
  match uploadedFiles with
  | [] => Some []
  | file :: rest =>
      match text file with
      | Some fileContent =>
          match transcriptParts rest with
          | Some parts => Some (parseVTT fileContent :: parts)
          | None => None
          end
      | None => None
      end
  end.

Definition getTranscriptText (uploadedFiles : list File) (textInput : jsstring)
    : transcript :=
  if (0 <? length uploadedFiles)%nat then
    match transcriptParts uploadedFiles with
    | Some parts => Text (join (js (nl ++ nl)) parts)
    | None => Null (js "Failed to read files")
    end
  else if negb (eqs (trim textInput) []) then
    let trimmedInput := trim textInput in
    if startsWith (js "WEBVTT") trimmedInput || includes (js "-->") trimmedInput
    then Text (parseVTT trimmedInput)
    else Text trimmedInput
  else Null (js "Please provide a transcript file or text").

(** [l.filter((_, i) => keep(i))], from index [i] on. *)
Fixpoint filter_from {A} (keep : nat -> bool) (i : nat) (l : list A) : list A :=
  match l with
  | [] => []
  | x :: l' =>
      if keep i then x :: filter_from keep (S i) l' else filter_from keep (S i) l'
  end.

(** [handleRemoveFile]: the files it sets. *)
Definition handleRemoveFile (uploadedFiles : list File) (index : nat) : list File :=
  filter_from (fun i => negb (Nat.eqb i index)) 0 uploadedFiles.

End Home.

(** ** The answer to a custom query: src/unnamed/part_000, lines 740-754 *)

Module Quotes.

(** [/Supporting Quotes?:/i] *)
Definition re_marker : regex :=
  seq [chri "S"; chri "u"; chri "p"; chri "p"; chri "o"; chri "r"; chri "t";
       chri "i"; chri "n"; chri "g"; chr " "; chri "Q"; chri "u"; chri "o";
       chri "t"; chri "e"; Alt (chri "s") Eps; chr ":"].

(** [/^[-•*]\s*/] *)
Definition re_bullet : regex :=
  seq [Bol; Cls (fun c => (c =? 45) || (c =? 8226) || (c =? 42)); Star true space].

(** The pattern of the second [replace] without its [$]: [^], a class,
    a group around a greedy [.*] and the same class again.  The class
    lists the straight double quote (code unit 34) twice, nothing else. *)
Definition re_quoted : regex :=
  seq [Bol; Cls (N.eqb 34); Group 1 (Star true dot); Cls (N.eqb 34)].

Definition parts (customQueryResponse : jsstring) : list jsstring :=
  split_re true re_marker customQueryResponse.

(** [parts[0]?.trim() || ''] *)
Definition mainAnswer (customQueryResponse : jsstring) : jsstring :=
  match parts customQueryResponse !! 0%nat with
  | Some part => trim part
  | None => []
  end.

(** [parts[1]?.trim() || ''] *)
Definition quotesSection (customQueryResponse : jsstring) : jsstring :=
  match parts customQueryResponse !! 1%nat with
  | Some part => trim part
  | None => []
  end.

(** [line.length > 0] *)
Definition nonempty (line : jsstring) : bool := (0 <? length line)%nat.

Definition unquote (line : jsstring) : jsstring :=
  replace_first_to_end false re_quoted (expand [Ref 1])
    (replace_first false re_bullet (expand []) line).

Definition quotes (customQueryResponse : jsstring) : list jsstring :=
  let quotesSection := quotesSection customQueryResponse in
  if nonempty quotesSection
  then List.filter nonempty
         (List.map unquote
            (List.filter nonempty (List.map trim (split 10 quotesSection))))
  else [].

End Quotes.

(** ** The selection of pre-loaded files: src/unnamed/part_001 *)

Module Preloaded.

(** The state [togglePreloadedFile] reads and writes.  A [Set<string>]
    keeps the order of insertion, which [loadPreloadedFiles] follows when
    it fetches the files: it is the list of its members in that order. *)
Record state : Type := State {
  textInput : jsstring;
  selectedPreloadedFiles : list jsstring;
  error : jsstring
}.

(** [s.delete(key)] *)
Definition set_delete (s : list jsstring) (key : jsstring) : list jsstring :=
  List.filter (fun k => negb (eqs k key)) s.

Definition togglePreloadedFile (st : state) (filename : jsstring) : state :=
  if negb (eqs (trim (textInput st)) [])
  then State (textInput st) (selectedPreloadedFiles st) Page.both_inputs
  else
    let newSelected := selectedPreloadedFiles st in
    let newSelected :=
      if existsb (eqs filename) newSelected
      then set_delete newSelected filename
      else set_add newSelected filename in
    State (textInput st) newSelected [].

End Preloaded.

(** ** Reference definitions for the statements *)

(** The keys of [ks] not yet in [headers], each at its first occurrence. *)
Fixpoint fresh (headers ks : list jsstring) : list jsstring :=
  match ks with
  | [] => []
  | k :: ks' =>
      if existsb (eqs k) headers then fresh headers ks'
      else k :: fresh (headers ++ [k]) ks'
  end.












(** The number of hyphens of a line. *)
Definition hyphens (line : jsstring) : nat :=
  length (List.filter (N.eqb 45) line).

(** The conditions under which each branch of the loop body handles the
    trimmed line, in the order the code tests them. *)
Definition header_or_blank (line : jsstring) : Prop :=
  line = js "WEBVTT" \/ line = [].

Definition cue_identifier (line : jsstring) : Prop :=
  ~ header_or_blank line /\ (3 <= hyphens line)%nat.

Definition timing_line (line : jsstring) : Prop :=
  ~ header_or_blank line /\ (hyphens line < 3)%nat /\
  includes (js "-->") line = true.

Definition voice_line (line : jsstring) : Prop :=
  ~ header_or_blank line /\ (hyphens line < 3)%nat /\
  includes (js "-->") line = false /\ startsWith (js "<v ") line = true.

Definition plain_line (line : jsstring) : Prop :=
  ~ header_or_blank line /\ (hyphens line < 3)%nat /\
  includes (js "-->") line = false /\ startsWith (js "<v ") line = false.

(** What a pattern can match, whatever the order in which the matcher
    tries the alternatives: [mt ic r x y] when [r] leads from state [x] to
    state [y]. *)
Inductive mt (ic : bool) : regex -> mstate -> mstate -> Prop :=
| mt_eps x : mt ic Eps x x
| mt_cls p c pre s cs :
    p c = true -> mt ic (Cls p) (MState pre (c :: s) cs) (MState (c :: pre) s cs)
| mt_bol x : before x = [] -> mt ic Bol x x
| mt_wordb x :
    xorb (is_word_opt (head (before x))) (is_word_opt (head (after x))) = true ->
    mt ic WordB x x
| mt_seq r1 r2 x y z : mt ic r1 x y -> mt ic r2 y z -> mt ic (Seq r1 r2) x z
| mt_alt_l r1 r2 x y : mt ic r1 x y -> mt ic (Alt r1 r2) x y
| mt_alt_r r1 r2 x y : mt ic r2 x y -> mt ic (Alt r1 r2) x y
| mt_star_stop g r x : mt ic (Star g r) x x
| mt_star_more g r x y z :
    mt ic r x y -> length (after y) <> length (after x) ->
    mt ic (Star g r) y z -> mt ic (Star g r) x z
| mt_group n r x y :
    mt ic r x y ->
    mt ic (Group n r) x (MState (before y) (after y) ((n, consumed x y) :: caps y))
| mt_backref_unset n x : cap n x = None -> mt ic (Backref n) x x
| mt_backref n w x y :
    cap n x = Some w -> backref ic w x = Some y -> mt ic (Backref n) x y.

(** The course of a global replacement from a position of the scan: the
    code units left of it, the input right of it and the output for it. *)
Inductive repl (ic : bool) (r : regex) (f : jsstring -> mstate -> jsstring)
    : jsstring -> jsstring -> jsstring -> Prop :=
| repl_end pre :
    exec_at ic r pre [] = None -> repl ic r f pre [] []
| repl_end_match pre y :
    exec_at ic r pre [] = Some y -> repl ic r f pre [] (f [] y)
| repl_keep pre c s out :
    exec_at ic r pre (c :: s) = None ->
    repl ic r f (c :: pre) s out -> repl ic r f pre (c :: s) (c :: out)
| repl_empty pre c s y out :
    exec_at ic r pre (c :: s) = Some y -> after y = c :: s ->
    repl ic r f (c :: pre) s out ->
    repl ic r f pre (c :: s) (f [] y ++ c :: out)
| repl_match pre c w s y out :
    exec_at ic r pre (c :: w ++ s) = Some y -> after y = s ->
    repl ic r f (rev (c :: w) ++ pre) s out ->
    repl ic r f pre (c :: w ++ s) (f (c :: w) y ++ out).

(** The skeleton of a string for a set of marked code units: the marked
    code units in order, with every run of other code units between them
    reduced to one gap. *)
Definition cons_gap (t : list (option N)) : list (option N) :=
  match t with
  | None :: _ => t
  | _ => None :: t
  end.

Fixpoint skel (mk : N -> bool) (s : jsstring) : list (option N) :=
  match s with
  | [] => []
  | c :: s' => if mk c then Some c :: skel mk s' else cons_gap (skel mk s')
  end.

Fixpoint glue (t1 t2 : list (option N)) : list (option N) :=
  match t1 with
  | [] => t2
  | Some c :: t1' => Some c :: glue t1' t2
  | None :: t1' => cons_gap (glue t1' t2)
  end.

(** No code unit of the string is marked. *)
Definition unmarked (mk : N -> bool) (s : jsstring) : Prop :=
  forall c, c ∈ s -> mk c = false.

(** Sentence punctuation, the class [[.,!?;:]]. *)
Definition is_punct (c : N) : bool := existsb (N.eqb c) (js ".,!?;:").

(** The stages of [enhanceTranscript], in order. *)
Definition strip_tags (text : jsstring) : jsstring :=
  replace_all false re_tag (expand [])
    (replace_all true re_close_voice (expand [])
       (replace_all true re_open_voice (expand []) text)).

Definition collapse_spaces (text : jsstring) : jsstring :=
  replace_all false re_spaces (expand [Txt (js " ")]) text.

Definition space_before_punct (text : jsstring) : jsstring :=
  replace_all false re_space_punct (expand [Ref 1]) text.

Definition space_after_punct (text : jsstring) : jsstring :=
  replace_all false re_punct_nonspace (expand [Ref 1; Txt (js " "); Ref 2]) text.

Definition repeated_words (text : jsstring) : jsstring :=
  replace_all true re_repeated (expand [Ref 1]) text.

Definition capitalize (text : jsstring) : jsstring :=
  replace_all false re_sentence (fun mt _ => toUpperCase mt) text.

(** The code units of the timing arrow, and the arrow in a skeleton. *)
Definition mk_arrow (c : N) : bool := (c =? 45) || (c =? 62).

Fixpoint arrow (t : list (option N)) : bool :=
  match t with
  | [] => false
  | x :: t' =>
      match x, t' with
      | Some a, Some b :: Some c :: _ => (a =? 45) && (b =? 45) && (c =? 62)
      | _, _ => false
      end || arrow t'
  end.

(** The head of [s] is not in the class [p]: a run of [p] stops there. *)
Definition stops (p : N -> bool) (s : jsstring) : Prop :=
  match s with
  | c :: _ => p c = false
  | [] => True
  end.

(** Properties of a string checked by one pass from left to right: a
    scanner has a state, and a step on a code unit gives the next state or
    refuses. *)
Section Scanner.

Context {Q : Type}.
Variable step_on : Q -> N -> option Q.

Fixpoint scan (q : Q) (s : jsstring) : option Q :=
  match s with
  | [] => Some q
  | c :: s' =>
      match step_on q c with
      | Some q' => scan q' s'
      | None => None
      end
  end.

Definition accepts (q : Q) (s : jsstring) : bool :=
  match scan q s with Some _ => true | None => false end.

End Scanner.

Definition is_lower (c : N) : bool := (97 <=? c) && (c <=? 122).

(** Every white space is one space between two other code units; the
    state tells whether the code unit before was white space. *)
Definition spaced_step (prev : bool) (c : N) : option bool :=
  if is_space c then (if (c =? 32) && negb prev then Some true else None)
  else Some false.

Definition spaced : bool -> jsstring -> bool := accepts spaced_step.

(** No white space stands before punctuation. *)
Definition nosp_step (prev : bool) (c : N) : option bool :=
  if prev && is_punct c then None else Some (is_space c).

Definition nosp : bool -> jsstring -> bool := accepts nosp_step.

(** Punctuation is followed by a space and a code unit other than white
    space, or ends the string, possibly with one space; no other space
    stands before punctuation. *)
Inductive pstate : Type := Ready | AfterSpace | AfterPunct | AfterPunctSpace.

Definition paired_step (q : pstate) (c : N) : option pstate :=
  match q with
  | Ready =>
      Some (if is_punct c then AfterPunct
            else if is_space c then AfterSpace else Ready)
  | AfterSpace =>
      if is_punct c then None
      else Some (if is_space c then AfterSpace else Ready)
  | AfterPunct => if is_space c then Some AfterPunctSpace else None
  | AfterPunctSpace => if is_space c then None else Some Ready
  end.

Definition paired : pstate -> jsstring -> bool := accepts paired_step.

(** No lower-case letter follows a full stop and white space. *)
Inductive cstate : Type := CStart | CDot | CDotSpace.

Definition capital_step (q : cstate) (c : N) : option cstate :=
  if c =? 46 then Some CDot
  else if is_space c then
    Some (match q with CStart => CStart | _ => CDotSpace end)
  else match q with
       | CDotSpace => if is_lower c then None else Some CStart
       | _ => Some CStart
       end.

Definition capital : cstate -> jsstring -> bool := accepts capital_step.

(** No [<] opens a tag: it is followed at once by [>], or by no [>] at
    all. *)
Definition mk_tag (c : N) : bool := (c =? 60) || (c =? 62).

Definition starts_gt (s : jsstring) : bool :=
  match s with c :: _ => c =? 62 | [] => false end.

Fixpoint tagfree (s : jsstring) : bool :=
  match s with
  | [] => true
  | c :: s' =>
      (if c =? 60 then starts_gt s' || negb (existsb (N.eqb 62) s') else true)
      && tagfree s'
  end.

Definition is_gt (x : option N) : bool :=
  match x with Some c => c =? 62 | None => false end.

Fixpoint tagfree_skel (t : list (option N)) : bool :=
  match t with
  | [] => true
  | x :: t' =>
      match x with
      | Some c =>
          if c =? 60
          then match t' with d :: _ => is_gt d | [] => false end
               || negb (existsb is_gt t')
          else true
      | None => true
      end && tagfree_skel t'
  end.

(** The scanner state that goes with the spacing state and the input
    that remains. *)
Definition fits (q : pstate) (prev : bool) (s : jsstring) : Prop :=
  match q with
  | Ready => prev = false
  | AfterSpace | AfterPunctSpace => prev = true
  | AfterPunct => prev = false /\ stops (fun c => negb (is_space c)) s
  end.

(** The capital scanner state that goes with the input that remains: past
    a full stop that was kept, no word character follows the white
    space. *)
Definition cfits (q : cstate) (s : jsstring) : Prop :=
  match q with
  | CStart => True
  | CDot =>
      forall u s', s = u ++ s' -> (forall c, c ∈ u -> is_space c = true) ->
        stops is_space s' -> u <> [] -> stops is_word s'
  | CDotSpace =>
      forall u s', s = u ++ s' -> (forall c, c ∈ u -> is_space c = true) ->
        stops is_space s' -> stops is_word s'
  end.

(** The scans of the two punctuation stages, from a position on. *)
Definition before_punct_from : jsstring -> jsstring -> nat -> jsstring :=
  replace_from false re_space_punct (expand [Ref 1]).

Definition after_punct_from : jsstring -> jsstring -> nat -> jsstring :=
  replace_from false re_punct_nonspace (expand [Ref 1; Txt (js " "); Ref 2]).

(** The lines the loop of the parser passes over: header and blank
    lines, cue identifiers and timing lines. *)
Definition skipped_line (raw : jsstring) : Prop :=
  header_or_blank (trim raw) \/ cue_identifier (trim raw) \/ timing_line (trim raw).

(** A voice tag around a text, on one line. *)
Definition voice_tagged (attrs text : jsstring) : jsstring :=
  js "<v" ++ attrs ++ js ">" ++ text ++ js "</v>".

(** A cue of a voiced transcript: the lines before its text, then the
    text in its voice tag. *)
Record voiced_cue : Type := VoicedCue {
  lead : list jsstring;
  attrs : jsstring;
  spoken : jsstring
}.

Definition cue_lines (cue : voiced_cue) : list jsstring :=
  lead cue ++ [voice_tagged (attrs cue) (spoken cue)].

(** The lines before the text are passed over; the voice-tagged line
    reaches the voice-tag branch; the tag has no [>] inside, the text no
    [<] and no line terminator, and the text is not empty. *)
Definition well_formed (cue : voiced_cue) : Prop :=
  Forall (fun raw => skipped_line raw /\ (10 ∉ raw)) (lead cue) /\
  voice_line (voice_tagged (attrs cue) (spoken cue)) /\
  (62 ∉ attrs cue) /\ (10 ∉ attrs cue) /\ (60 ∉ spoken cue) /\
  (forall c, c ∈ spoken cue -> is_line_terminator c = false) /\
  spoken cue <> [].

(** The class [[-•*]]. *)
Definition is_bullet (c : N) : bool := (c =? 45) || (c =? 8226) || (c =? 42).

(** The lines the plain-text branch appends in a document without
    identifiers, timings and voice tags: the trimmed lines other than the
    header and the blank ones. *)
Definition kept_lines (lines : list jsstring) : list jsstring :=
  List.filter (fun line => negb (eqs line (js "WEBVTT") || eqs line []))
    (List.map trim lines).

(** * Properties *)

(** ** Strings *)

Lemma eqs_true (a b : jsstring) : eqs a b = true <-> a = b.
Proof. unfold eqs. apply bool_decide_eq_true. Qed.

Lemma eqs_false (a b : jsstring) : eqs a b = false <-> a <> b.
Proof. unfold eqs. apply bool_decide_eq_false. Qed.

Lemma eqs_refl (a : jsstring) : eqs a a = true.
Proof. by apply eqs_true. Qed.

Lemma startsWith_spec (p s : jsstring) :
  startsWith p s = true <-> exists b, s = p ++ b.
Proof.
  revert s. induction p as [|a p IH]; intros s; simpl.
  - split; [by exists s|done].
  - destruct s as [|c s].
    + split; [done|]. by intros [b Hb].
    + rewrite andb_true_iff, N.eqb_eq, IH. split.
      * intros [-> [b ->]]. by exists b.
      * intros [b Hb]. injection Hb as -> ->. split; [done|by exists b].
Qed.

Lemma includes_spec (p s : jsstring) :
  includes p s = true <-> exists a b, s = a ++ p ++ b.
Proof.
  induction s as [|c s IH].
  - simpl. rewrite orb_false_r, startsWith_spec. split.
    + intros [b Hb]. by exists [], b.
    + intros (a & b & Hab). destruct a; simpl in Hab.
      * by exists b.
      * done.
  - cbn [includes]. rewrite orb_true_iff, startsWith_spec, IH. split.
    + intros [[b Hb]|(a & b & ->)].
      * by exists [], b.
      * by exists (c :: a), b.
    + intros (a & b & Hab). destruct a as [|c' a]; simpl in Hab.
      * left. by exists b.
      * right. injection Hab as -> ->. by exists a, b.
Qed.

Lemma includes_factor (p a w b : jsstring) :
  includes p w = true -> includes p (a ++ w ++ b) = true.
Proof.
  rewrite !includes_spec. intros (u & v & ->).
  exists (a ++ u), (v ++ b). by rewrite <- !app_assoc.
Qed.

Lemma split_length (c : N) (s : jsstring) :
  length (split c s) = S (length (List.filter (N.eqb c) s)).
Proof.
  induction s as [|x s IH]; [done|]. cbn [split List.filter].
  rewrite (N.eqb_sym c x). destruct (x =? c).
  - simpl. by rewrite IH.
  - destruct (split c s); simpl in *; lia.
Qed.

Lemma includes_sep (p a b : jsstring) (c : N) :
  c ∉ p -> includes p (a ++ c :: b) = true ->
  includes p a = true \/ includes p b = true.
Proof.
  intros Hc. rewrite !includes_spec. intros (u & v & H).
  apply app_eq_app in H as [l [[-> H]|[-> H]]].
  - left. apply app_eq_app in H as [l' [[-> H]|[-> H]]].
    + destruct l' as [|c' l']; cbn in H.
      * exists u, []. by rewrite !app_nil_r.
      * injection H as -> _. exfalso. apply Hc.
        rewrite elem_of_app, elem_of_cons. auto.
    + by exists u, l'.
  - right. destruct l as [|c' l]; cbn in H.
    + destruct p as [|c' p]; cbn in H.
      * by exists [], b.
      * injection H as -> _. exfalso. apply Hc. apply list_elem_of_here.
    + injection H as _ ->. by exists l, v.
Qed.

Lemma not_elem_forallb (c : N) (s : jsstring) :
  forallb (fun x => negb (x =? c)) s = true -> c ∉ s.
Proof.
  intros H Hin. rewrite forallb_forall in H.
  apply list_elem_of_In, H in Hin. by rewrite N.eqb_refl in Hin.
Qed.

Lemma trimStart_suffix (s : jsstring) : exists a, s = a ++ trimStart s.
Proof.
  induction s as [|c s [a IH]]; [by exists []|]. cbn.
  destruct (is_space c).
  - exists (c :: a). cbn. by f_equal.
  - by exists [].
Qed.

Lemma trim_factor (s : jsstring) : exists a b, s = a ++ trim s ++ b.
Proof.
  unfold trim, trimEnd.
  destruct (trimStart_suffix s) as [a Ha].
  destruct (trimStart_suffix (rev (trimStart s))) as [b Hb].
  exists a, (rev b). rewrite <- rev_app_distr, <- Hb, rev_involutive. done.
Qed.

Lemma includes_trim (p s : jsstring) :
  includes p (trim s) = true -> includes p s = true.
Proof.
  intros H. destruct (trim_factor s) as (a & b & Hs). rewrite Hs.
  by apply includes_factor.
Qed.

Lemma elem_of_trim (c : N) (s : jsstring) : c ∈ trim s -> c ∈ s.
Proof.
  intros H. destruct (trim_factor s) as (a & b & Hs). rewrite Hs.
  rewrite !elem_of_app. auto.
Qed.

Lemma elem_of_split (c x : N) (s l : jsstring) :
  l ∈ split c s -> x ∈ l -> x ∈ s.
Proof.
  revert l. induction s as [|y s IH]; intros l Hl Hx; cbn [split] in Hl.
  - apply list_elem_of_singleton in Hl as ->. done.
  - destruct (y =? c).
    + apply elem_of_cons in Hl as [->|Hl]; [by apply elem_of_nil in Hx|].
      apply list_elem_of_further. by apply (IH l).
    + destruct (split c s) as [|h t] eqn:E.
      * apply list_elem_of_singleton in Hl as ->. 
        apply list_elem_of_singleton in Hx as ->. apply list_elem_of_here.
      * apply elem_of_cons in Hl as [->|Hl].
        -- apply elem_of_cons in Hx as [->|Hx]; [apply list_elem_of_here|].
           apply list_elem_of_further. apply (IH h); [apply list_elem_of_here|done].
        -- apply list_elem_of_further. apply (IH l); [|done].
           by apply list_elem_of_further.
Qed.

Lemma elem_of_join (x : N) (sep : jsstring) (ls : list jsstring) :
  x ∈ join sep ls -> x ∈ sep \/ exists l, l ∈ ls /\ x ∈ l.
Proof.
  induction ls as [|a ls IH]; cbn [join]; [by intros ?%elem_of_nil|].
  destruct ls as [|b ls].
  - intros Hx. right. exists a. split; [apply list_elem_of_here|done].
  - rewrite !elem_of_app. intros [Hx|[Hx|Hx]].
    + right. exists a. split; [apply list_elem_of_here|done].
    + by left.
    + destruct (IH Hx) as [?|(l & Hl & Hxl)]; [by left|].
      right. exists l. split; [by apply list_elem_of_further|done].
Qed.

(** ** The matcher *)

Section Matcher.

Variable ic : bool.

(** Whatever the matcher returns went through a match of the pattern. *)
Lemma m_sound (r : regex) :
  forall x k z, m ic r x k = Some z -> exists y, mt ic r x y /\ k y = Some z.
Proof.
  induction r as [|p| | |r1 IH1 r2 IH2|r1 IH1 r2 IH2|g r1 IH1|n r1 IH1|n];
    intros x k z H; cbn [m] in H.
  - exists x. split; [constructor|done].
  - destruct x as [pre [|c s] cs]; cbn in H; [done|].
    destruct (p c) eqn:Hp; [|done].
    eexists. split; [by constructor|done].
  - destruct (before x) eqn:E; [|done].
    exists x. split; [by constructor|done].
  - destruct (xorb _ _) eqn:E; [|done].
    exists x. split; [by constructor|done].
  - apply IH1 in H as (y & Hy & H). apply IH2 in H as (y' & Hy' & H).
    exists y'. split; [by econstructor|done].
  - destruct (m ic r1 x k) eqn:E.
    + injection H as ->. apply IH1 in E as (y & Hy & E).
      exists y. split; [by apply mt_alt_l|done].
    + apply IH2 in H as (y & Hy & H).
      exists y. split; [by apply mt_alt_r|done].
  - remember (S (length (after x))) as fuel eqn:Hf. clear Hf. revert x z H.
    induction fuel as [|fuel IHf]; intros x z H; [done|].
    cbn [repeat_matcher] in H.
    assert (Hagain : forall z',
      m ic r1 x (fun y =>
        if Nat.eqb (length (after y)) (length (after x)) then None
        else repeat_matcher (m ic r1) g k fuel y) = Some z' ->
      exists y, mt ic (Star g r1) x y /\ k y = Some z').
    { intros z' Hz. apply IH1 in Hz as (y & Hy & Hz).
      destruct (Nat.eqb _ _) eqn:En; [done|].
      apply Nat.eqb_neq in En.
      apply IHf in Hz as (y' & Hy' & Hz).
      exists y'. split; [by eapply mt_star_more|done]. }
    assert (Hstop : forall z', k x = Some z' ->
      exists y, mt ic (Star g r1) x y /\ k y = Some z').
    { intros z' Hz. exists x. split; [constructor|done]. }
    destruct g.
    + destruct (m ic r1 x _) eqn:E.
      * injection H as ->. by apply Hagain.
      * by apply Hstop.
    + destruct (k x) eqn:E.
      * injection H as ->. by apply Hstop.
      * by apply Hagain.
  - apply IH1 in H as (y & Hy & H).
    eexists. split; [by apply mt_group|done].
  - destruct (cap n x) as [w|] eqn:E.
    + destruct (backref ic w x) as [y|] eqn:Eb; [|done].
      exists y. split; [by eapply mt_backref|done].
    + exists x. split; [by apply mt_backref_unset|done].
Qed.

Lemma backref_span (w : jsstring) :
  forall x y, backref ic w x = Some y ->
  exists u, after x = u ++ after y /\ before y = rev u ++ before x
            /\ caps y = caps x.
Proof.
  induction w as [|a w IH]; intros x y H; cbn in H.
  - injection H as ->. by exists [].
  - destruct (after x) as [|c s] eqn:E; [done|].
    destruct (_ =? _); [|done].
    apply IH in H as (u & H1 & H2 & H3). cbn in *.
    exists (c :: u). rewrite H1, H2, H3. cbn. by rewrite <- app_assoc.
Qed.

(** A matcher calls its continuation only on states that are not behind
    the state it started from. *)
Lemma backref_after (w : jsstring) :
  forall x y, backref ic w x = Some y ->
  (length (after y) <= length (after x))%nat.
Proof.
  induction w as [|a w IH]; intros x y H; cbn in H.
  - by injection H as ->.
  - destruct (after x) as [|c s] eqn:E; [done|].
    destruct (_ =? _); [|done]. apply IH in H. cbn in *. lia.
Qed.

Lemma repeat_matcher_ext (body : mstate -> (mstate -> option mstate) -> option mstate)
    (g : bool) (k k' : mstate -> option mstate) (n : nat) :
  (forall x k1 k2,
     (forall y, (length (after y) <= length (after x))%nat -> k1 y = k2 y) ->
     body x k1 = body x k2) ->
  forall fuel x, (length (after x) <= n)%nat ->
  (forall y, (length (after y) <= n)%nat -> k y = k' y) ->
  repeat_matcher body g k fuel x = repeat_matcher body g k' fuel x.
Proof.
  intros Hbody. induction fuel as [|fuel IH]; intros x Hx Hk; [done|].
  cbn [repeat_matcher].
  rewrite (Hk x Hx).
  rewrite (Hbody x _ (fun y =>
    if Nat.eqb (length (after y)) (length (after x)) then None
    else repeat_matcher body g k' fuel y)); [done|].
  intros y Hy. destruct (Nat.eqb _ _); [done|]. apply IH; [lia|done].
Qed.

Lemma m_ext (r : regex) :
  forall x k k',
  (forall y, (length (after y) <= length (after x))%nat -> k y = k' y) ->
  m ic r x k = m ic r x k'.
Proof.
  induction r as [|p| | |r1 IH1 r2 IH2|r1 IH1 r2 IH2|g r1 IH1|n r1 IH1|n];
    intros x k k' Hk; cbn [m].
  - by apply Hk.
  - destruct (after x) as [|c s] eqn:E; [done|].
    destruct (p c); [|done]. apply Hk. cbn. lia.
  - destruct (before x); [by apply Hk|done].
  - destruct (xorb _ _); [by apply Hk|done].
  - apply IH1. intros y Hy. apply IH2. intros z Hz. apply Hk. lia.
  - by rewrite (IH1 x k k' Hk), (IH2 x k k' Hk).
  - by apply (repeat_matcher_ext _ _ _ _ (length (after x)) IH1).
  - apply IH1. intros y Hy. by apply Hk.
  - destruct (cap n x) as [w|]; [|by apply Hk].
    destruct (backref ic w x) as [y|] eqn:E; [|done].
    apply Hk. by apply backref_after in E.
Qed.

(** The bound of the repetition is never reached: more fuel changes
    nothing. *)
Lemma repeat_matcher_fuel (r : regex) (g : bool) (k : mstate -> option mstate) :
  forall fuel1 fuel2 x,
  (length (after x) < fuel1)%nat -> (length (after x) < fuel2)%nat ->
  repeat_matcher (m ic r) g k fuel1 x = repeat_matcher (m ic r) g k fuel2 x.
Proof.
  induction fuel1 as [|fuel1 IH]; intros fuel2 x H1 H2; [lia|].
  destruct fuel2 as [|fuel2]; [lia|]. cbn [repeat_matcher].
  rewrite (m_ext r x _ (fun y =>
    if Nat.eqb (length (after y)) (length (after x)) then None
    else repeat_matcher (m ic r) g k fuel2 y)); [done|].
  intros y Hy. destruct (Nat.eqb_spec (length (after y)) (length (after x)));
    [done|]. apply IH; lia.
Qed.

(** Inversion of a match, construct by construct. *)
Lemma mt_cls_inv p x y :
  mt ic (Cls p) x y ->
  exists c, after x = c :: after y /\ before y = c :: before x
            /\ caps y = caps x /\ p c = true.
Proof. inversion 1; subst. by exists c. Qed.

Lemma mt_seq_inv r1 r2 x z :
  mt ic (Seq r1 r2) x z -> exists y, mt ic r1 x y /\ mt ic r2 y z.
Proof. inversion 1; subst. by eexists. Qed.

Lemma mt_alt_inv r1 r2 x y :
  mt ic (Alt r1 r2) x y -> mt ic r1 x y \/ mt ic r2 x y.
Proof. inversion 1; subst; auto. Qed.

Lemma mt_group_inv n r x z :
  mt ic (Group n r) x z ->
  exists y, mt ic r x y /\
    z = MState (before y) (after y) ((n, consumed x y) :: caps y).
Proof. inversion 1; subst. by eexists. Qed.

Lemma mt_bol_inv x y : mt ic Bol x y -> y = x /\ before x = [].
Proof. by inversion 1; subst. Qed.

Lemma mt_wordb_inv x y :
  mt ic WordB x y ->
  y = x /\
  xorb (is_word_opt (head (before x))) (is_word_opt (head (after x))) = true.
Proof. by inversion 1; subst. Qed.

Lemma mt_backref_inv n x y :
  mt ic (Backref n) x y ->
  (cap n x = None /\ y = x) \/
  (exists w, cap n x = Some w /\ backref ic w x = Some y).
Proof. inversion 1; subst; [by left|right; by eexists]. Qed.

Lemma mt_star_cls g p x y :
  mt ic (Star g (Cls p)) x y ->
  exists u, after x = u ++ after y /\ before y = rev u ++ before x
            /\ caps y = caps x /\ forall c, c ∈ u -> p c = true.
Proof.
  intros H. remember (Star g (Cls p)) as r eqn:Hr.
  induction H as [| | | | | | |g' r' x|g' r' x y z H1 _ Hne H2 IH2| | |];
    try discriminate Hr.
  - exists []. repeat split; try done. by intros c ?%elem_of_nil.
  - injection Hr as -> ->.
    apply mt_cls_inv in H1 as (c & E1 & E2 & E3 & Hc).
    destruct (IH2 eq_refl) as (u & F1 & F2 & F3 & Hu).
    exists (c :: u). rewrite E1, F1, F2, E2, F3, E3. cbn.
    rewrite <- app_assoc. repeat split; try done.
    by intros c' [->|?]%elem_of_cons; auto.
Qed.

Lemma mt_plus_cls p x y :
  mt ic (plus (Cls p)) x y ->
  exists u, u <> [] /\ after x = u ++ after y /\ before y = rev u ++ before x
            /\ caps y = caps x /\ forall c, c ∈ u -> p c = true.
Proof.
  intros (x1 & H1 & H2)%mt_seq_inv.
  apply mt_cls_inv in H1 as (c & E1 & E2 & E3 & Hc).
  apply mt_star_cls in H2 as (u & F1 & F2 & F3 & Hu).
  exists (c :: u). rewrite E1, F1, F2, E2, F3, E3. cbn.
  rewrite <- app_assoc. repeat split; try done.
  by intros c' [->|?]%elem_of_cons; auto.
Qed.

Lemma backref_shape (w : jsstring) :
  forall x y, backref ic w x = Some y ->
  exists u, after x = u ++ after y /\ before y = rev u ++ before x
            /\ caps y = caps x /\ List.map (canon ic) u = List.map (canon ic) w.
Proof.
  induction w as [|a w IH]; intros x y H; cbn in H.
  - injection H as ->. by exists [].
  - destruct (after x) as [|c s] eqn:E; [done|].
    destruct (_ =? _) eqn:Ec; [|done]. apply N.eqb_eq in Ec.
    apply IH in H as (u & H1 & H2 & H3 & H4). cbn in *.
    exists (c :: u). rewrite H1, H2, H3. cbn. rewrite <- app_assoc, H4, Ec.
    done.
Qed.

(** A match moves forward in the input. *)
Lemma mt_span (r : regex) (x y : mstate) :
  mt ic r x y ->
  exists u, after x = u ++ after y /\ before y = rev u ++ before x.
Proof.
  induction 1 as [x|p c pre s cs Hp|x Hx|x Hx|r1 r2 x y z _ IH1 _ IH2
                 |r1 r2 x y _ IH|r1 r2 x y _ IH|g r x
                 |g r x y z _ IH1 Hne _ IH2|n r x y _ IH|n x Hn|n w x y Hn Hb];
    try (by exists []); try done.
  - by exists [c].
  - destruct IH1 as (u & H1 & H2), IH2 as (v & H3 & H4).
    exists (u ++ v). rewrite H1, H3, H4, H2, rev_app_distr, <- !app_assoc. done.
  - destruct IH1 as (u & H1 & H2), IH2 as (v & H3 & H4).
    exists (u ++ v). rewrite H1, H3, H4, H2, rev_app_distr, <- !app_assoc. done.
  - apply backref_span in Hb as (u & ? & ? & _). by exists u.
Qed.

Lemma consumed_span (x y : mstate) (u : jsstring) :
  after x = u ++ after y -> consumed x y = u.
Proof.
  intros H. unfold consumed. rewrite H, length_app.
  replace (length u + length (after y) - length (after y))%nat
    with (length u) by lia.
  by rewrite firstn_app, Nat.sub_diag, firstn_all, firstn_O, app_nil_r.
Qed.

(** A capture made by a match is a piece of the input after the start. *)
Lemma mt_caps (r : regex) (x y : mstate) :
  mt ic r x y ->
  forall n w, (n, w) ∈ caps y ->
    (n, w) ∈ caps x \/ exists a b, after x = a ++ w ++ b.
Proof.
  induction 1 as [x|p c pre s cs Hp|x Hx|x Hx|r1 r2 x y z H1 IH1 H2 IH2
                 |r1 r2 x y _ IH|r1 r2 x y _ IH|g r x
                 |g r x y z H1 IH1 Hne H2 IH2|n r x y H IH|n x Hn|n w x y Hn Hb];
    intros n' w' Hin; try (by left); try (by apply IH).
  - apply IH2 in Hin as [Hin|(a & b & Hab)]; [by apply IH1|].
    right. apply mt_span in H1 as (u & Hu & _).
    exists (u ++ a), b. by rewrite Hu, Hab, <- app_assoc.
  - apply IH2 in Hin as [Hin|(a & b & Hab)]; [by apply IH1|].
    right. apply mt_span in H1 as (u & Hu & _).
    exists (u ++ a), b. by rewrite Hu, Hab, <- app_assoc.
  - cbn in Hin. apply elem_of_cons in Hin as [Heq|Hin]; [|by apply IH].
    injection Heq as -> ->. right.
    apply mt_span in H as (u & Hu & _).
    exists [], (after y). by rewrite (consumed_span _ _ _ Hu).
  - apply backref_span in Hb as (_ & _ & _ & Hc). left. by rewrite <- Hc.
Qed.

Lemma cap_elem (n : nat) (x : mstate) (w : jsstring) :
  cap n x = Some w -> (n, w) ∈ caps x.
Proof.
  unfold cap. destruct (List.find _ _) as [[n' w']|] eqn:E; [|done].
  intros [= <-]. apply find_some in E as [Hin Hn].
  apply Nat.eqb_eq in Hn. cbn in Hn. subst. by apply list_elem_of_In.
Qed.

(** The first match starts somewhere in the string. *)
Lemma search_spec (r : regex) (pre s : jsstring) (x y : mstate) :
  search ic r pre s = Some (x, y) ->
  exists a b, s = a ++ b /\ x = MState (rev a ++ pre) b []
              /\ exec_at ic r (rev a ++ pre) b = Some y.
Proof.
  revert pre. induction s as [|c s IH]; intros pre H; cbn [search] in H.
  - destruct (exec_at ic r pre []) eqn:E; [|done].
    injection H as <- <-. by exists [], [].
  - destruct (exec_at ic r pre (c :: s)) eqn:E.
    + injection H as <- <-. by exists [], (c :: s).
    + apply IH in H as (a & b & -> & -> & H).
      exists (c :: a), b. cbn. by rewrite <- app_assoc.
Qed.

Lemma search_None (r : regex) (pre s : jsstring) :
  search ic r pre s = None ->
  forall a b, s = a ++ b -> exec_at ic r (rev a ++ pre) b = None.
Proof.
  revert pre. induction s as [|c s IH]; intros pre H a b Hab; cbn [search] in H.
  - destruct (exec_at ic r pre []) eqn:E; [done|].
    symmetry in Hab. apply app_eq_nil in Hab as [-> ->]. done.
  - destruct (exec_at ic r pre (c :: s)) eqn:E; [done|].
    destruct a as [|c' a]; cbn in Hab.
    + by subst.
    + injection Hab as <- ->. cbn. rewrite <- app_assoc. by apply IH.
Qed.

End Matcher.

(** ** Global replacement *)

Section Replacement.

Variables (ic : bool) (r : regex) (f : jsstring -> mstate -> jsstring).

Lemma exec_at_span (pre s : jsstring) (y : mstate) :
  exec_at ic r pre s = Some y ->
  mt ic r (MState pre s []) y /\
  exists u, s = u ++ after y /\ before y = rev u ++ pre.
Proof.
  intros H. apply m_sound in H as (y' & Hy & [= ->]).
  split; [done|]. by apply mt_span in Hy.
Qed.

Lemma replace_from_skip (w : jsstring) :
  forall pre s,
  replace_from ic r f pre (w ++ s) (length w)
  = replace_from ic r f (rev w ++ pre) s 0.
Proof.
  induction w as [|c w IH]; intros pre s; [done|].
  cbn [app length replace_from rev]. rewrite IH. by rewrite <- app_assoc.
Qed.

Lemma replace_from_0 (pre s : jsstring) :
  replace_from ic r f pre s 0
  = match exec_at ic r pre s with
    | Some y =>
        let n := (length s - length (after y))%nat in
        f (consumed (MState pre s []) y) y ++
        match s with
        | [] => []
        | c :: s' =>
            (if Nat.eqb n 0 then [c] else []) ++
            replace_from ic r f (c :: pre) s' (n - 1)
        end
    | None =>
        match s with
        | [] => []
        | c :: s' => c :: replace_from ic r f (c :: pre) s' 0
        end
    end.
Proof. by destruct s. Qed.

(** The scan follows the course [repl] describes. *)
Lemma replace_from_repl (s : jsstring) :
  forall pre, repl ic r f pre s (replace_from ic r f pre s 0).
Proof.
  remember (length s) as n eqn:Hn. revert s Hn.
  induction n as [n IH] using lt_wf_ind. intros s Hn pre.
  rewrite replace_from_0.
  destruct (exec_at ic r pre s) as [y|] eqn:E.
  - pose proof (exec_at_span _ _ _ E) as (_ & u & Hu & _).
    cbn zeta. rewrite (consumed_span (MState pre s []) y u Hu).
    destruct s as [|c s].
    + symmetry in Hu. apply app_eq_nil in Hu as [-> _].
      rewrite app_nil_r. by apply repl_end_match.
    + destruct u as [|c' u]; cbn [app] in Hu.
      * rewrite <- Hu, Nat.sub_diag. cbn [Nat.eqb Nat.sub app].
        apply repl_empty; [done..|].
        apply (IH (length s)); [subst; cbn; lia|done].
      * injection Hu as <- ->.
        replace (length (c :: u ++ after y) - length (after y))%nat
          with (S (length u)) by (cbn; rewrite length_app; lia).
        cbn [Nat.eqb app]. rewrite Nat.sub_succ, Nat.sub_0_r.
        rewrite replace_from_skip.
        apply repl_match; [done..|].
        change (rev u ++ c :: pre) with (rev u ++ [c] ++ pre).
        rewrite app_assoc.
        apply (IH (length (after y))); [|done].
        subst. cbn. rewrite length_app. lia.
  - destruct s as [|c s].
    + by apply repl_end.
    + apply repl_keep; [done|].
      apply (IH (length s)); [subst; cbn; lia|done].
Qed.

Lemma replace_from_keep (pre : jsstring) (c : N) (s : jsstring) :
  exec_at ic r pre (c :: s) = None ->
  replace_from ic r f pre (c :: s) 0 = c :: replace_from ic r f (c :: pre) s 0.
Proof. intros H. by rewrite replace_from_0, H. Qed.

Lemma replace_from_end (pre : jsstring) :
  exec_at ic r pre [] = None -> replace_from ic r f pre [] 0 = [].
Proof. intros H. by rewrite replace_from_0, H. Qed.

Lemma replace_from_hit (pre w s : jsstring) (y : mstate) :
  exec_at ic r pre (w ++ s) = Some y -> after y = s -> w <> [] ->
  replace_from ic r f pre (w ++ s) 0
  = f w y ++ replace_from ic r f (rev w ++ pre) s 0.
Proof.
  intros H Hy Hne. rewrite replace_from_0, H. cbn zeta.
  rewrite (consumed_span (MState pre (w ++ s) []) y w) by by rewrite Hy.
  rewrite Hy. destruct w as [|c w]; [done|]. cbn [app].
  replace (length (c :: w ++ s) - length s)%nat with (S (length w))
    by (cbn; rewrite length_app; lia).
  cbn [Nat.eqb app]. rewrite Nat.sub_succ, Nat.sub_0_r, replace_from_skip.
  cbn [rev]. by rewrite <- app_assoc.
Qed.

Lemma replace_all_repl (s : jsstring) : repl ic r f [] s (replace_all ic r f s).
Proof. apply replace_from_repl. Qed.

(** Where nothing matches, nothing changes. *)
Lemma repl_no_match (pre s out : jsstring) :
  (forall a b, s = a ++ b -> exec_at ic r (rev a ++ pre) b = None) ->
  repl ic r f pre s out -> out = s.
Proof.
  intros Hno H. induction H as [pre|pre y E|pre c s out E _ IH
    |pre c s y out E|pre c w s y out E].
  - done.
  - pose proof (Hno [] [] eq_refl) as Hx. cbn in Hx. congruence.
  - f_equal. apply IH. intros a b ->.
    specialize (Hno (c :: a) b eq_refl). cbn in Hno.
    by rewrite <- app_assoc in Hno.
  - pose proof (Hno [] (c :: s) eq_refl) as Hx. cbn in Hx. congruence.
  - pose proof (Hno [] (c :: w ++ s) eq_refl) as Hx. cbn in Hx. congruence.
Qed.

End Replacement.

(** ** Skeletons *)

Section Skeleton.

Variable mk : N -> bool.

Lemma cons_gap_idem t : cons_gap (cons_gap t) = cons_gap t.
Proof. by destruct t as [|[c|] t]. Qed.

Lemma glue_cons_gap t1 t2 : glue (cons_gap t1) t2 = cons_gap (glue t1 t2).
Proof.
  destruct t1 as [|[c|] t1]; cbn; try done.
  by rewrite cons_gap_idem.
Qed.

Lemma skel_app (a b : jsstring) : skel mk (a ++ b) = glue (skel mk a) (skel mk b).
Proof.
  induction a as [|c a IH]; [done|]. cbn [app skel].
  destruct (mk c); cbn [glue]; [by rewrite IH|].
  by rewrite glue_cons_gap, IH.
Qed.

Lemma skel_unmarked (s : jsstring) :
  unmarked mk s -> s <> [] -> skel mk s = [None].
Proof.
  induction s as [|c s IH]; intros Hs Hne; [done|]. cbn [skel].
  rewrite (Hs c) by apply list_elem_of_here.
  destruct s as [|c' s]; [done|].
  rewrite IH; [done| |done].
  intros x Hx. apply Hs. by apply list_elem_of_further.
Qed.

Lemma skel_nil (s : jsstring) : skel mk s = [] -> s = [].
Proof.
  destruct s as [|c s]; [done|]. cbn [skel].
  destruct (mk c); [done|]. by destruct (skel mk s) as [|[]].
Qed.

Lemma unmarked_app (a b : jsstring) :
  unmarked mk (a ++ b) <-> unmarked mk a /\ unmarked mk b.
Proof.
  unfold unmarked. split.
  - intros H. split; intros c Hc; apply H, elem_of_app; auto.
  - intros [Ha Hb] c [Hc|Hc]%elem_of_app; auto.
Qed.

Lemma unmarked_cons (c : N) (s : jsstring) :
  unmarked mk (c :: s) <-> mk c = false /\ unmarked mk s.
Proof.
  unfold unmarked. split.
  - intros H. split; [apply H, list_elem_of_here|].
    intros x Hx. by apply H, list_elem_of_further.
  - intros [Hc Hs] x [->|Hx]%elem_of_cons; auto.
Qed.

Lemma unmarked_nil : unmarked mk [].
Proof. intros c Hc. by apply elem_of_nil in Hc. Qed.

Variables (ic : bool) (r : regex) (f : jsstring -> mstate -> jsstring).

(** A replacement that keeps the skeleton of every match keeps the
    skeleton of the string. *)
Lemma repl_skel (pre s out : jsstring) :
  (forall pre w y, exec_at ic r pre (w ++ after y) = Some y ->
     skel mk (f w y) = skel mk w) ->
  repl ic r f pre s out -> skel mk out = skel mk s.
Proof.
  intros Hf H. induction H as [pre|pre y E|pre c s out E _ IH
    |pre c s y out E Hy _ IH|pre c w s y out E Hy _ IH].
  - done.
  - pose proof (exec_at_span _ _ _ _ _ E) as (_ & u & Hu & _).
    symmetry in Hu. apply app_eq_nil in Hu as [_ Hu].
    rewrite <- Hu in E. apply (Hf pre []) in E. by apply skel_nil in E as ->.
  - cbn [skel]. by rewrite IH.
  - rewrite <- Hy in E at 1. apply (Hf pre []) in E.
    apply skel_nil in E as ->. cbn [app skel]. by rewrite IH.
  - subst s. apply (Hf pre (c :: w)) in E.
    change (c :: w ++ after y) with ((c :: w) ++ after y).
    by rewrite !skel_app, E, IH.
Qed.

End Skeleton.

(** ** The result table *)

Section Headers.

Implicit Types (headers ks : list jsstring) (k : jsstring).

Lemma existsb_eqs k headers : existsb (eqs k) headers = true <-> k ∈ headers.
Proof.
  rewrite existsb_exists. split.
  - intros (x & Hin & Heq). apply eqs_true in Heq. subst.
    by apply list_elem_of_In.
  - intros Hin. exists k. split; [by apply list_elem_of_In | apply eqs_refl].
Qed.



Lemma fold_set_add headers ks :
  fold_left set_add ks headers = headers ++ fresh headers ks.
Proof.
  revert headers. induction ks as [|k ks IH]; intros headers; simpl.
  - by rewrite app_nil_r.
  - rewrite IH. unfold set_add. destruct (existsb (eqs k) headers); [done|].
    by rewrite <- app_assoc.
Qed.

Lemma fold_stories headers (results : list UserStory) :
  fold_left (fun hs story => fold_left set_add (keys story) hs) results headers
  = fold_left set_add (List.concat (List.map keys results)) headers.
Proof.
  revert headers. induction results as [|story results IH]; intros headers.
  - done.
  - simpl. rewrite IH. by rewrite fold_left_app.
Qed.

End Headers.







(** ** The tab-separated projection *)

Section Projection.

Implicit Types (results : list UserStory) (selectedRows : gset nat).
Implicit Types (row : UserStory) (headers : list jsstring).




End Projection.






(** C3, the claim as stated fails: for the one record [{epicName: "x"}]
    the export starts with the key [epicName] as it is, not with its
    display form [Epic Name]. *)
Lemma export_header_not_transformed :
  let results := [[(js "epicName", js "x")]] in
  List.map displayHeader (getHeaders results) = [js "Epic Name"] /\
  copyToClipboard results ∅ = js ("epicName" ++ nl ++ "x") /\
  ~ (exists rest,
       copyToClipboard results ∅
       = join (js tab) (List.map displayHeader (getHeaders results))
         ++ js nl ++ rest).
Proof.
  cbn zeta. split; [by vm_compute|]. split; [by vm_compute|].
  intros [rest H]. vm_compute in H. discriminate.
Qed.

(** C3, amended. For every record collection and every selection, the
    first row of the tab-separated projection is the header row: the
    headers as they are, the keys of the records untransformed, joined by
    tabs; the data rows look fields up under the same keys. The camel-case
    display form belongs to the rendered table only. *)
Theorem export_header_row (results : list UserStory) (selectedRows : gset nat) :
  copyToClipboard results selectedRows
  = join (js tab) (getHeaders results) ++ js nl ++
    join (js nl)
      (List.map (fun row =>
         join (js tab)
           (List.map (fun header => default [] (get row header))
              (getHeaders results)))
         (rowsToCopy results selectedRows)).
Proof.
  unfold copyToClipboard, headerRow, dataRows. do 3 f_equal.
  apply map_ext. intros row. f_equal. unfold dataCells.
  apply map_ext. intros header. unfold cell.
  by destruct (get row header) as [[]|].
Qed.

(** ** The record-collection detection *)

Section Detection.

Implicit Types (fields : list (jsstring * json)) (key : jsstring).






End Detection.


(** The payload [null] ends in the exception of the [catch] block. *)
Lemma detection_null_throws :
  userStories_of JNull = Throw (js "Invalid JSON response from OpenAI").
Proof. reflexivity. Qed.



(** ** The normalizer *)

Section Classification.

Implicit Types (line raw : jsstring) (st : loop_state).

Lemma classify_blank line : header_or_blank line -> classify line = Blank.
Proof. intros [->| ->]; reflexivity. Qed.

Lemma not_header_or_blank line :
  ~ header_or_blank line ->
  eqs line (js "WEBVTT") || eqs line [] = false.
Proof.
  intros H. apply orb_false_iff. split; apply eqs_false; intros ->; apply H.
  - by left.
  - by right.
Qed.

Lemma cue_test line :
  includes (js "-") line && (4 <=? length (split 45 line))%nat
  = (3 <=? hyphens line)%nat.
Proof.
  rewrite split_length. fold (hyphens line).
  change (4 <=? S (hyphens line))%nat with (3 <=? hyphens line)%nat.
  destruct (3 <=? hyphens line)%nat eqn:E; [|by rewrite andb_false_r].
  rewrite andb_true_r. apply Nat.leb_le in E.
  unfold hyphens in E. induction line as [|c line IH]; [cbn in E; lia|].
  cbn [includes]. cbn [List.filter] in E.
  destruct (45 =? c) eqn:Ec.
  - apply N.eqb_eq in Ec. subst. reflexivity.
  - assert (H : startsWith (js "-") (c :: line) = false).
    { change (startsWith (js "-") (c :: line)) with ((45 =? c) && true).
      by rewrite Ec. }
    rewrite H. cbn [orb]. by apply IH.
Qed.

Lemma classify_cue line : cue_identifier line -> classify line = CueId.
Proof.
  intros [Hb Hh]. unfold classify.
  rewrite (not_header_or_blank _ Hb), cue_test.
  by apply Nat.leb_le in Hh as ->.
Qed.

Lemma classify_timing line : timing_line line -> classify line = Timing.
Proof.
  intros (Hb & Hh & Ht). unfold classify.
  rewrite (not_header_or_blank _ Hb), cue_test, Ht.
  by apply Nat.leb_gt in Hh as ->.
Qed.

Lemma classify_voice line : voice_line line -> classify line = Voice.
Proof.
  intros (Hb & Hh & Ht & Hv). unfold classify.
  rewrite (not_header_or_blank _ Hb), cue_test, Ht, Hv.
  by apply Nat.leb_gt in Hh as ->.
Qed.

Lemma classify_plain line : plain_line line -> classify line = Plain.
Proof.
  intros (Hb & Hh & Ht & Hv). unfold classify.
  rewrite (not_header_or_blank _ Hb), cue_test, Ht, Hv.
  by apply Nat.leb_gt in Hh as ->.
Qed.

(** Every line falls under exactly one of the five conditions. *)
Lemma classify_cases line :
  match classify line with
  | Blank => header_or_blank line
  | CueId => cue_identifier line
  | Timing => timing_line line
  | Voice => voice_line line
  | Plain => plain_line line
  end.
Proof.
  unfold classify. rewrite cue_test.
  destruct (eqs line (js "WEBVTT")) eqn:E1.
  { left. by apply eqs_true. }
  destruct (eqs line []) eqn:E2.
  { right. by apply eqs_true. }
  apply eqs_false in E1, E2.
  assert (Hb : ~ header_or_blank line) by (intros [?|?]; done).
  cbn [orb]. destruct (3 <=? hyphens line)%nat eqn:E3.
  { apply Nat.leb_le in E3. by split. }
  apply Nat.leb_gt in E3.
  destruct (includes (js "-->") line) eqn:E4; [done|].
  destruct (startsWith (js "<v ") line) eqn:E5; done.
Qed.

End Classification.

(** C2, the claim as stated fails: the iteration that handles the
    cue-identifier line [a-b-c-d] ends with [skipNext] true. *)
Lemma skipNext_true_after_cue_identifier :
  cue_identifier (trim (js "a-b-c-d")) /\
  skipNext (step (LoopState [] false) (js "a-b-c-d")) = true.
Proof.
  split; [|reflexivity]. split.
  - intros [H|H]; vm_compute in H; discriminate.
  - vm_compute. lia.
Qed.

(** C2, amended. [skipNext] is false at the end of every iteration that
    handles a voice-tag line or a plain line; a blank or header line leaves
    the loop state as it was, and a cue-identifier line leaves the flag
    true. A plain non-blank line is appended to the dialogue accumulator
    unless [skipNext] was true when the line was reached, in which case the
    line is discarded and the flag consumed. *)
Theorem skipNext_after_iteration (st : loop_state) (raw : jsstring) :
  let line := trim raw in
  (header_or_blank line -> step st raw = st) /\
  (cue_identifier line -> step st raw = LoopState (transcriptLines st) true) /\
  (voice_line line -> skipNext (step st raw) = false) /\
  (plain_line line ->
     step st raw
     = LoopState (if skipNext st then transcriptLines st
                  else transcriptLines st ++ [line]) false).
Proof.
  cbn zeta. unfold step. repeat split.
  - intros H. by rewrite (classify_blank _ H).
  - intros H. by rewrite (classify_cue _ H).
  - intros H. by rewrite (classify_voice _ H).
  - intros H. rewrite (classify_plain _ H).
    destruct H as (Hb & _). apply not_header_or_blank in Hb.
    apply orb_false_iff in Hb as [_ ->].
    by destruct (skipNext st).
Qed.

Lemma skipNext_after_iteration_witness :
  step (LoopState [js "Hi."] true) (js "  so it goes  ")
  = LoopState [js "Hi."] false /\
  step (LoopState [js "Hi."] false) (js "  so it goes  ")
  = LoopState [js "Hi."; js "so it goes"] false.
Proof.
  assert (H : plain_line (trim (js "  so it goes  "))).
  { split; [intros [H|H]; vm_compute in H; discriminate|].
    split; [vm_compute; lia|]. split; reflexivity. }
  split.
  - exact (proj2 (proj2 (proj2
      (skipNext_after_iteration (LoopState [js "Hi."] true) (js "  so it goes  ")))) H).
  - exact (proj2 (proj2 (proj2
      (skipNext_after_iteration (LoopState [js "Hi."] false) (js "  so it goes  ")))) H).
Defined.

(** C1. On the cue of the example the code returns the empty string, not
    ["Hello world."]: the text line follows the timing line, which set
    [skipNext], and the plain branch drops it. The enhancement alone does
    turn the text into ["Hello world."], and so does the voice-tag branch
    on the same cue. *)
Theorem plain_cue_text_is_dropped :
  let cue := js ("00:00:01.000 --> 00:00:02.000" ++ nl ++ "Hello hello world." ++ nl) in
  let voiced :=
    js ("00:00:01.000 --> 00:00:02.000" ++ nl ++ "<v A>Hello hello world.</v>" ++ nl) in
  parseVTT cue = [] /\
  parseVTT cue <> js "Hello world." /\
  enhanceTranscript (js "Hello hello world.") = js "Hello world." /\
  parseVTT voiced = js "Hello world.".
Proof.
  cbn zeta. split; [by vm_compute|]. split; [by vm_compute|].
  split; by vm_compute.
Qed.

(** ** The voice-tag pattern *)

Section VoiceTag.

(** A match of [/<v[^>]*>(.*?)<\/v>/] ends with the closing tag. *)
Lemma voice_match_shape ic x y :
  mt ic re_voice x y -> exists u, after x = u ++ js "</v>" ++ after y.
Proof.
  intros H.
  apply mt_seq_inv in H as (x1 & H1 & H).
  apply mt_seq_inv in H as (x2 & H2 & H).
  apply mt_seq_inv in H as (x3 & H3 & H).
  apply mt_seq_inv in H as (x4 & H4 & H).
  apply mt_seq_inv in H as (x5 & H5 & H).
  apply mt_seq_inv in H as (x6 & H6 & H).
  apply mt_seq_inv in H as (x7 & H7 & H).
  apply mt_seq_inv in H as (x8 & H8 & H9).
  apply mt_span in H1 as (u1 & E1 & _), H2 as (u2 & E2 & _),
    H3 as (u3 & E3 & _), H4 as (u4 & E4 & _), H5 as (u5 & E5 & _).
  apply mt_cls_inv in H6 as (c6 & E6 & _ & _ & P6),
    H7 as (c7 & E7 & _ & _ & P7), H8 as (c8 & E8 & _ & _ & P8),
    H9 as (c9 & E9 & _ & _ & P9).
  apply N.eqb_eq in P6, P7, P8, P9. subst.
  exists (u1 ++ u2 ++ u3 ++ u4 ++ u5).
  rewrite E1, E2, E3, E4, E5, E6, E7, E8, E9, <- !app_assoc. done.
Qed.

Lemma voice_match_needs_close (line : jsstring) :
  includes (js "</v>") line = false -> jsmatch false re_voice line = None.
Proof.
  intros Hno. destruct (jsmatch false re_voice line) as [[x y]|] eqn:E; [|done].
  apply search_spec in E as (a & b & -> & -> & E).
  apply m_sound in E as (y' & Hy & _).
  apply voice_match_shape in Hy as (u & Hu). cbn [after] in Hu.
  assert (includes (js "</v>") (a ++ b) = true); [|congruence].
  apply includes_spec. exists (a ++ u), (after y').
  by rewrite Hu, <- app_assoc.
Qed.

End VoiceTag.

(** C9. A line that begins with ["<v "], reaches the voice-tag branch and
    has no closing ["</v>"] on it adds nothing to the dialogue accumulator,
    whatever the state of the loop: the iteration leaves the accumulator as
    it was and the flag false, so the first line of a voice cue whose
    closing tag comes on a later line is lost. *)
Theorem unclosed_voice_line_is_dropped (st : loop_state) (raw : jsstring) :
  voice_line (trim raw) -> includes (js "</v>") (trim raw) = false ->
  step st raw = LoopState (transcriptLines st) false.
Proof.
  intros Hv Hno. unfold step.
  by rewrite (classify_voice _ Hv), (voice_match_needs_close _ Hno).
Qed.

Lemma unclosed_voice_line_is_dropped_witness :
  let st := LoopState [js "Good morning."] true in
  step st (js "<v Ann>First line of the cue") = LoopState [js "Good morning."] false /\
  parseVTT (js ("<v Ann>First line of the cue" ++ nl ++ "and the second.</v>"))
  = js "And the second.".
Proof.
  intros st. split; [|by vm_compute].
  refine (unclosed_voice_line_is_dropped st (js "<v Ann>First line of the cue") _ _).
  - split; [intros [H|H]; vm_compute in H; discriminate|].
    split; [vm_compute; lia|]. split; reflexivity.
  - reflexivity.
Defined.

(** ** The stages of the enhancement *)

Lemma enhanceTranscript_stages (text : jsstring) :
  enhanceTranscript text
  = trim (collapse_spaces (capitalize (repeated_words (space_after_punct
      (space_before_punct (collapse_spaces (strip_tags text))))))).
Proof. reflexivity. Qed.

Section Shapes.

Implicit Types (pre s w : jsstring) (y : mstate).

Lemma exec_at_mt ic r pre s y :
  exec_at ic r pre s = Some y -> mt ic r (MState pre s []) y.
Proof. intros H. by apply exec_at_span in H as [H _]. Qed.

(** What each pattern matches and captures. *)
Lemma spaces_shape pre s y :
  exec_at false re_spaces pre s = Some y ->
  exists w, s = w ++ after y /\ w <> [] /\ forall c, c ∈ w -> is_space c = true.
Proof.
  intros H%exec_at_mt.
  apply mt_plus_cls in H as (u & Hne & Hu & _ & _ & Hs). by exists u.
Qed.

Lemma space_punct_shape pre s y :
  exec_at false re_space_punct pre s = Some y ->
  exists u p, s = (u ++ [p]) ++ after y /\ u <> []
    /\ (forall c, c ∈ u -> is_space c = true)
    /\ is_punct p = true /\ cap 1 y = Some [p].
Proof.
  intros H%exec_at_mt.
  apply mt_seq_inv in H as (x1 & H1 & H2).
  apply mt_plus_cls in H1 as (u & Hne & Hu & _ & Hc & Hs).
  apply mt_group_inv in H2 as (y1 & H2 & ->).
  apply mt_cls_inv in H2 as (p & Hp & _ & Hc' & Hpp).
  cbn [after caps] in *.
  exists u, p. rewrite Hp in Hu.
  repeat split; try done.
  - by rewrite <- app_assoc.
  - unfold cap. cbn. by rewrite (consumed_span x1 y1 [p] Hp).
Qed.

Lemma punct_nonspace_shape pre s y :
  exec_at false re_punct_nonspace pre s = Some y ->
  exists p c, s = [p; c] ++ after y /\ is_punct p = true /\ is_space c = false
    /\ cap 1 y = Some [p] /\ cap 2 y = Some [c].
Proof.
  intros H%exec_at_mt.
  apply mt_seq_inv in H as (x1 & H1 & H2).
  apply mt_group_inv in H1 as (y1 & H1 & ->).
  apply mt_cls_inv in H1 as (p & Hp & _ & Hc1 & Hpp).
  apply mt_group_inv in H2 as (y2 & H2 & ->).
  apply mt_cls_inv in H2 as (c & Hc & _ & Hc2 & Hcc).
  cbn [after caps before] in *.
  exists p, c. rewrite Hc in Hp.
  apply negb_true_iff in Hcc.
  repeat split; try done.
  - unfold cap. cbn. rewrite Hc2. cbn. f_equal.
    apply (consumed_span (MState pre s []) y1 [p]).
    cbn. by rewrite Hp, Hc.
  - unfold cap. cbn. f_equal.
    apply (consumed_span _ y2 [c]). by rewrite Hc.
Qed.

Lemma is_word_upper (c : N) : is_word (upper c) = true -> is_word c = true.
Proof.
  unfold upper. destruct ((97 <=? c) && (c <=? 122)) eqn:E; [|done].
  intros _. unfold is_word. rewrite E. apply orb_true_r.
Qed.

Lemma upper_is_word (c : N) : is_word c = true -> is_word (upper c) = true.
Proof.
  unfold upper. destruct ((97 <=? c) && (c <=? 122)) eqn:E; [|done].
  intros _. apply andb_true_iff in E as [E1 E2].
  apply N.leb_le in E1, E2. unfold is_word.
  assert ((65 <=? c - 32) = true) as -> by (apply N.leb_le; lia).
  assert ((c - 32 <=? 90) = true) as -> by (apply N.leb_le; lia).
  cbn. by rewrite orb_true_r.
Qed.

Lemma repeated_shape pre s y :
  exec_at true re_repeated pre s = Some y ->
  exists a u b, s = (a ++ u ++ b) ++ after y /\ a <> [] /\ u <> []
    /\ (forall c, c ∈ a -> is_word c = true)
    /\ (forall c, c ∈ u -> is_space c = true)
    /\ List.map upper b = List.map upper a
    /\ cap 1 y = Some a
    /\ is_word_opt (head pre) = false
    /\ is_word_opt (head (after y)) = false.
Proof.
  intros H%exec_at_mt.
  apply mt_seq_inv in H as (x1 & H1 & H).
  apply mt_wordb_inv in H1 as [-> Hb1].
  apply mt_seq_inv in H as (x2 & H2 & H).
  apply mt_group_inv in H2 as (y2 & H2 & ->).
  apply mt_plus_cls in H2 as (a & Hane & Ha & Hpa & Hca & Hwa).
  apply mt_seq_inv in H as (x3 & H3 & H).
  apply mt_plus_cls in H3 as (u & Hune & Hu & Hpu & Hcu & Hsu).
  apply mt_seq_inv in H as (x4 & H4 & H5).
  apply mt_wordb_inv in H5 as [-> Hb2].
  cbn [after caps before] in *.
  apply mt_backref_inv in H4 as [[Hn _]|(a' & Hcap & H4)].
  { unfold cap in Hn. rewrite Hcu in Hn. done. }
  assert (a' = a) as ->.
  { unfold cap in Hcap. rewrite Hcu in Hcap. cbn in Hcap.
    injection Hcap as <-. exact (consumed_span (MState pre s []) y2 a Ha). }
  apply backref_shape in H4 as (b & Hb & Hpb & Hcb & Hab).
  change (List.map upper b = List.map upper a) in Hab.
  exists a, u, b.
  repeat split; try done.
  - by rewrite Ha, Hu, Hb, <- !app_assoc.
  - unfold cap. rewrite Hcb, Hcu. cbn. f_equal.
    exact (consumed_span (MState pre s []) y2 a Ha).
  - destruct a as [|c a]; [done|]. rewrite Ha in Hb1. cbn in Hb1.
    assert (is_word c = true) as Hc by apply Hwa, list_elem_of_here.
    rewrite Hc, xorb_true_r in Hb1. by apply negb_true_iff in Hb1.
  - assert (exists c, head (before x4) = Some c /\ is_word c = true)
      as (c & Hc & Hcw).
    { rewrite Hpb. destruct b as [|c b _] using rev_ind.
      - destruct a; done.
      - rewrite rev_app_distr. cbn. exists c. split; [done|].
        assert (In (upper c) (List.map upper a)) as Hin.
        { rewrite <- Hab, map_app. apply in_or_app. right. by left. }
        apply in_map_iff in Hin as (c' & Hc' & Hin).
        apply is_word_upper. rewrite <- Hc'. apply upper_is_word.
        by apply Hwa, list_elem_of_In. }
    rewrite Hc in Hb2. cbn in Hb2.
    rewrite Hcw in Hb2. cbn in Hb2. by apply negb_true_iff in Hb2.
Qed.

Lemma sentence_shape pre s y :
  exec_at false re_sentence pre s = Some y ->
  exists w, s = w ++ after y /\
    ((exists c, w = [c] /\ is_word c = true /\ pre = []) \/
     (exists u c, w = 46 :: u ++ [c] /\ u <> []
        /\ (forall c', c' ∈ u -> is_space c' = true) /\ is_word c = true)).
Proof.
  intros H%exec_at_mt.
  apply mt_group_inv in H as (y1 & H & ->). cbn [after].
  apply mt_alt_inv in H as [H|H].
  - apply mt_seq_inv in H as (x1 & H1 & H2).
    apply mt_bol_inv in H1 as [-> Hpre].
    apply mt_cls_inv in H2 as (c & Hc & _ & _ & Hw). cbn [after before] in *.
    exists [c]. split; [done|]. left. by exists c.
  - apply mt_seq_inv in H as (x1 & H1 & H).
    apply mt_cls_inv in H1 as (d & Hd & _ & _ & Hdot).
    apply N.eqb_eq in Hdot. subst d.
    apply mt_seq_inv in H as (x2 & H2 & H3).
    apply mt_plus_cls in H2 as (u & Hne & Hu & _ & _ & Hs).
    apply mt_cls_inv in H3 as (c & Hc & _ & _ & Hw). cbn [after] in *.
    exists (46 :: u ++ [c]). split.
    + rewrite Hd, Hu, Hc. cbn. by rewrite <- app_assoc.
    + right. by exists u, c.
Qed.

Lemma tag_shape ic r pre s y :
  r = re_open_voice \/ r = re_close_voice \/ r = re_tag ->
  exec_at ic r pre s = Some y -> exists s', s = 60 :: s'.
Proof.
  intros Hr H%exec_at_mt.
  assert (exists r', r = Seq (Cls (N.eqb 60)) r') as [r' ->].
  { destruct Hr as [->|[->| ->]]; by eexists. }
  apply mt_seq_inv in H as (x1 & H1 & _).
  apply mt_cls_inv in H1 as (c & Hc & _ & _ & ->%N.eqb_eq).
  cbn in Hc. by eexists.
Qed.

End Shapes.

(** ** The stages keep the skeleton *)

Section StageSkeleton.

Variable mk : N -> bool.
Hypothesis mk_space : forall c, is_space c = true -> mk c = false.
Hypothesis mk_word : forall c, is_word c = true -> mk c = false.
Hypothesis mk_punct : forall c, is_punct c = true -> mk c = false.
Hypothesis mk_upper : forall c, mk (upper c) = mk c.

Lemma unmarked_spaces (u : jsstring) :
  (forall c, c ∈ u -> is_space c = true) -> unmarked mk u.
Proof. intros H c Hc. by apply mk_space, H. Qed.

Lemma unmarked_words (u : jsstring) :
  (forall c, c ∈ u -> is_word c = true) -> unmarked mk u.
Proof. intros H c Hc. by apply mk_word, H. Qed.

Lemma unmarked_upper (u : jsstring) :
  unmarked mk u -> unmarked mk (List.map upper u).
Proof.
  intros H c Hc. apply list_elem_of_In, in_map_iff in Hc as (c' & <- & Hc).
  rewrite mk_upper. by apply H, list_elem_of_In.
Qed.

Lemma unmarked_same_upper (a b : jsstring) :
  List.map upper b = List.map upper a -> unmarked mk a -> unmarked mk b.
Proof.
  intros Hab Ha c Hc. rewrite <- mk_upper.
  assert (In (upper c) (List.map upper a)) as Hin.
  { rewrite <- Hab. apply in_map. by apply list_elem_of_In. }
  apply in_map_iff in Hin as (c' & Hc' & Hin).
  rewrite <- Hc', mk_upper. by apply Ha, list_elem_of_In.
Qed.

Lemma collapse_spaces_skel (s : jsstring) :
  skel mk (collapse_spaces s) = skel mk s.
Proof.
  unfold collapse_spaces. eapply repl_skel; [|apply replace_all_repl].
  intros pre w y (w' & Hw & Hne & Hs)%spaces_shape.
  apply app_inv_tail in Hw as <-.
  rewrite (skel_unmarked mk w (unmarked_spaces w Hs) Hne).
  cbn. by rewrite mk_space.
Qed.

Lemma space_before_punct_skel (s : jsstring) :
  skel mk (space_before_punct s) = skel mk s.
Proof.
  unfold space_before_punct. eapply repl_skel; [|apply replace_all_repl].
  intros pre w y (u & p & Hw & Hne & Hs & Hp & Hc)%space_punct_shape.
  apply app_inv_tail in Hw as ->.
  unfold expand. cbn [List.map List.concat]. rewrite Hc.
  change (skel mk [p] = skel mk (u ++ [p])).
  rewrite (skel_app mk u [p]), (skel_unmarked mk u (unmarked_spaces u Hs) Hne).
  cbn. by rewrite (mk_punct p Hp).
Qed.

Lemma space_after_punct_skel (s : jsstring) :
  skel mk (space_after_punct s) = skel mk s.
Proof.
  unfold space_after_punct. eapply repl_skel; [|apply replace_all_repl].
  intros pre w y (p & c & Hw & Hp & Hns & Hc1 & Hc2)%punct_nonspace_shape.
  apply app_inv_tail in Hw as ->.
  unfold expand. cbn [List.map List.concat]. rewrite Hc1, Hc2.
  change (skel mk [p; 32; c] = skel mk [p; c]). cbn [skel].
  rewrite (mk_punct p Hp), (mk_space 32 eq_refl).
  destruct (mk c); [done|]. by rewrite !cons_gap_idem.
Qed.

Lemma repeated_words_skel (s : jsstring) :
  skel mk (repeated_words s) = skel mk s.
Proof.
  unfold repeated_words. eapply repl_skel; [|apply replace_all_repl].
  intros pre w y (a & u & b & Hw & Ha & Hu & Hwa & Hsu & Hab & Hc & _)%repeated_shape.
  apply app_inv_tail in Hw as ->.
  unfold expand. cbn [List.map List.concat]. rewrite Hc.
  change (skel mk (a ++ []) = skel mk (a ++ u ++ b)). rewrite app_nil_r.
  pose proof (unmarked_words a Hwa) as Hma.
  rewrite (skel_unmarked mk a Hma Ha). symmetry. apply skel_unmarked.
  - apply unmarked_app. split; [done|]. apply unmarked_app.
    split; [by apply unmarked_spaces|by apply (unmarked_same_upper a)].
  - by destruct a.
Qed.

Lemma capitalize_skel (s : jsstring) :
  skel mk (capitalize s) = skel mk s.
Proof.
  unfold capitalize. eapply repl_skel; [|apply replace_all_repl].
  intros pre w y (w' & Hw & Hshape)%sentence_shape.
  apply app_inv_tail in Hw as <-.
  assert (unmarked mk w /\ w <> []) as [Hm Hne].
  { destruct Hshape as [(c & -> & Hc & _)|(u & c & -> & Hu & Hs & Hc)].
    - split; [|done]. apply unmarked_cons. split; [by apply mk_word|].
      apply unmarked_nil.
    - split; [|done]. apply unmarked_cons. split; [by apply mk_punct|].
      apply unmarked_app. split; [by apply unmarked_spaces|].
      apply unmarked_cons. split; [by apply mk_word|apply unmarked_nil]. }
  unfold toUpperCase.
  rewrite (skel_unmarked mk w Hm Hne). apply skel_unmarked.
  - by apply unmarked_upper.
  - by destruct w.
Qed.

(** The stages after the removal of the tags, before the final trim. *)
Lemma stages_skel (s : jsstring) :
  skel mk (collapse_spaces (capitalize (repeated_words (space_after_punct
    (space_before_punct (collapse_spaces s))))))
  = skel mk s.
Proof.
  by rewrite collapse_spaces_skel, capitalize_skel, repeated_words_skel,
    space_after_punct_skel, space_before_punct_skel, collapse_spaces_skel.
Qed.

End StageSkeleton.

(** ** Timing syntax in the output *)

Section Arrow.

Lemma mk_arrow_space c : is_space c = true -> mk_arrow c = false.
Proof.
  unfold mk_arrow. destruct (N.eqb_spec c 45) as [->|]; [done|].
  destruct (N.eqb_spec c 62) as [->|]; done.
Qed.

Lemma mk_arrow_word c : is_word c = true -> mk_arrow c = false.
Proof.
  unfold mk_arrow. destruct (N.eqb_spec c 45) as [->|]; [done|].
  destruct (N.eqb_spec c 62) as [->|]; done.
Qed.

Lemma mk_arrow_punct c : is_punct c = true -> mk_arrow c = false.
Proof.
  unfold mk_arrow. destruct (N.eqb_spec c 45) as [->|]; [done|].
  destruct (N.eqb_spec c 62) as [->|]; done.
Qed.

Lemma mk_arrow_upper c : mk_arrow (upper c) = mk_arrow c.
Proof.
  unfold upper. destruct ((97 <=? c) && (c <=? 122)) eqn:E; [|done].
  apply andb_true_iff in E as [E1%N.leb_le E2%N.leb_le]. unfold mk_arrow.
  repeat match goal with
  | |- context [?a =? ?b] => destruct (N.eqb_spec a b)
  end; try done; lia.
Qed.

Lemma arrow_cons_gap t : arrow (cons_gap t) = arrow t.
Proof. by destruct t as [|[c|] t]. Qed.

Lemma skel_head_gap (c : N) (s : jsstring) :
  mk_arrow c = false ->
  exists t, skel mk_arrow (c :: s) = None :: t.
Proof.
  intros Hc. cbn [skel]. rewrite Hc.
  destruct (skel mk_arrow s) as [|[]]; by eexists.
Qed.

(** The arrow occurs in a string exactly when it occurs in its skeleton. *)
Lemma includes_arrow (s : jsstring) :
  includes (js "-->") s = arrow (skel mk_arrow s).
Proof.
  induction s as [|c s IH]; [done|].
  cbn [includes]. rewrite IH. cbn [skel].
  destruct (mk_arrow c) eqn:Ec.
  - cbn [arrow]. f_equal.
    change (startsWith (js "-->") (c :: s))
      with ((45 =? c) && startsWith (js "->") s).
    rewrite (N.eqb_sym 45 c).
    destruct s as [|c1 s]; [by rewrite andb_false_r|].
    change (startsWith (js "->") (c1 :: s))
      with ((45 =? c1) && startsWith (js ">") s).
    rewrite (N.eqb_sym 45 c1).
    destruct (mk_arrow c1) eqn:Ec1.
    + cbn [skel]. rewrite Ec1.
      destruct s as [|c2 s].
      { cbn. by rewrite !andb_false_r. }
      change (startsWith (js ">") (c2 :: s)) with ((62 =? c2) && true).
      rewrite (N.eqb_sym 62 c2), andb_true_r.
      destruct (mk_arrow c2) eqn:Ec2.
      * cbn [skel]. rewrite Ec2. by rewrite andb_assoc.
      * destruct (skel_head_gap c2 s Ec2) as [t ->].
        unfold mk_arrow in Ec2. apply orb_false_iff in Ec2 as [_ ->].
        by rewrite !andb_false_r.
    + destruct (skel_head_gap c1 s Ec1) as [t ->].
      unfold mk_arrow in Ec1. apply orb_false_iff in Ec1 as [-> _].
      by rewrite andb_false_r.
  - rewrite arrow_cons_gap.
    change (startsWith (js "-->") (c :: s))
      with ((45 =? c) && startsWith (js "->") s).
    unfold mk_arrow in Ec. apply orb_false_iff in Ec as [Ec _].
    by rewrite (N.eqb_sym 45 c), Ec.
Qed.

(** Without a [<] there is no tag to strip. *)
Lemma strip_tags_id (s : jsstring) : 60 ∉ s -> strip_tags s = s.
Proof.
  intros Hs.
  assert (H : forall ic r, r = re_open_voice \/ r = re_close_voice \/ r = re_tag ->
    replace_all ic r (expand []) s = s).
  { intros ic r Hr. apply (repl_no_match ic r (expand []) [] s);
      [|apply replace_all_repl].
    intros a b ->. destruct (exec_at ic r (rev a ++ []) b) eqn:E; [|done].
    apply (tag_shape _ _ _ _ _ Hr) in E as [s' ->].
    exfalso. apply Hs. rewrite elem_of_app, elem_of_cons. auto. }
  unfold strip_tags. rewrite !H; auto.
Qed.

Lemma stages_no_arrow (s : jsstring) :
  60 ∉ s -> includes (js "-->") s = false ->
  includes (js "-->") (enhanceTranscript s) = false.
Proof.
  intros Hlt Hs. rewrite enhanceTranscript_stages, (strip_tags_id s Hlt).
  apply not_true_is_false. intros H%includes_trim.
  rewrite includes_arrow in H, Hs.
  rewrite (stages_skel mk_arrow mk_arrow_space mk_arrow_word mk_arrow_punct
             mk_arrow_upper) in H.
  congruence.
Qed.

End Arrow.

Section Accumulator.

Implicit Types (st : loop_state) (raw line : jsstring).

(** What the voice-tag branch extracts is a piece of the line. *)
Lemma voice_capture_factor line x y w :
  jsmatch false re_voice line = Some (x, y) -> cap 1 y = Some w ->
  exists a b, line = a ++ w ++ b.
Proof.
  intros H Hc. apply search_spec in H as (a & b & -> & -> & E).
  apply exec_at_mt in E. apply cap_elem in Hc.
  apply (mt_caps _ _ _ _ E) in Hc as [Hc|(u & v & Hb)].
  - by apply elem_of_nil in Hc.
  - cbn in Hb. exists (a ++ u), v. by rewrite Hb, <- app_assoc.
Qed.

(** An iteration appends at most one entry, a piece of the trimmed line,
    and only in the voice-tag and plain branches. *)
Lemma step_entries st raw :
  transcriptLines (step st raw) = transcriptLines st \/
  exists w a b,
    transcriptLines (step st raw) = transcriptLines st ++ [w] /\
    trim raw = a ++ w ++ b /\
    (voice_line (trim raw) \/ plain_line (trim raw)).
Proof.
  unfold step. pose proof (classify_cases (trim raw)) as Hk.
  destruct (classify (trim raw)); cbn [transcriptLines]; try by left.
  - destruct (jsmatch false re_voice (trim raw)) as [[x y]|] eqn:E; [|by left].
    destruct (cap 1 y) as [[|c t]|] eqn:Ec; try by left.
    right. destruct (voice_capture_factor _ _ _ _ E Ec) as (a & b & Hab).
    exists (c :: t), a, b. auto.
  - destruct (negb (skipNext st) && negb (eqs (trim raw) [])); [|by left].
    right. exists (trim raw), [], []. rewrite app_nil_r. auto.
Qed.

Lemma run_entries (P : jsstring -> Prop) (lines : list jsstring) :
  (forall raw w a b, raw ∈ lines -> trim raw = a ++ w ++ b ->
     voice_line (trim raw) \/ plain_line (trim raw) -> P w) ->
  forall st, Forall P (transcriptLines st) ->
  Forall P (transcriptLines (fold_left step lines st)).
Proof.
  induction lines as [|raw lines IH]; intros HP st Hst; [done|].
  cbn [fold_left]. apply IH.
  - intros raw' w a b Hin. apply HP. by apply list_elem_of_further.
  - destruct (step_entries st raw) as [->|(w & a & b & -> & Hab & Hk)]; [done|].
    apply Forall_app. split; [done|]. apply Forall_singleton.
    apply (HP raw w a b); [apply list_elem_of_here|done..].
Qed.

Lemma kept_line_no_arrow line :
  voice_line line \/ plain_line line -> includes (js "-->") line = false.
Proof. by intros [(_ & _ & H & _)|(_ & _ & H & _)]. Qed.

Lemma entries_no_arrow (lines : list jsstring) :
  Forall (fun l => includes (js "-->") l = false) (transcriptLines (run lines)).
Proof.
  apply run_entries; [|by constructor].
  intros raw w a b _ Hab Hk. apply kept_line_no_arrow in Hk.
  apply not_true_is_false. intros Hw.
  apply (includes_factor _ a w b) in Hw. congruence.
Qed.

Lemma entries_no_lt (lines : list jsstring) :
  (forall raw, raw ∈ lines -> 60 ∉ raw) ->
  Forall (fun l => 60 ∉ l) (transcriptLines (run lines)).
Proof.
  intros Hl. apply run_entries; [|by constructor].
  intros raw w a b Hin Hab _ Hw. apply (Hl raw Hin), elem_of_trim.
  rewrite Hab, !elem_of_app. auto.
Qed.

Lemma join_no_arrow (ls : list jsstring) :
  Forall (fun l => includes (js "-->") l = false) ls ->
  includes (js "-->") (join (js " ") ls) = false.
Proof.
  induction ls as [|a ls IH]; intros H; [done|].
  apply Forall_cons in H as [Ha Hls]. cbn [join].
  destruct ls as [|b ls]; [done|].
  apply not_true_is_false. intros Hj.
  change (js " " ++ join (js " ") (b :: ls))
    with (32 :: join (js " ") (b :: ls)) in Hj.
  apply includes_sep in Hj as [Hj|Hj].
  - congruence.
  - rewrite IH in Hj; done.
  - by apply not_elem_forallb.
Qed.

Lemma join_no_lt (ls : list jsstring) :
  Forall (fun l => 60 ∉ l) ls -> 60 ∉ join (js " ") ls.
Proof.
  intros H [Hs|(l & Hl & Hx)]%elem_of_join.
  - by apply (not_elem_forallb 60 (js " ")) in Hs.
  - rewrite Forall_forall in H. by apply (H l Hl).
Qed.

End Accumulator.




(** ** What the greedy patterns match exactly *)

Section Greedy.

Variables (ic : bool) (p : N -> bool) (k : mstate -> option mstate).

(** A greedy repetition of a class takes the whole run when the
    continuation accepts there. *)
Lemma repeat_cls_hit (z : mstate) (s' : jsstring) :
  forall u x fuel,
  after x = u ++ s' -> (forall c, c ∈ u -> p c = true) -> stops p s' ->
  (length u < fuel)%nat ->
  k (MState (rev u ++ before x) s' (caps x)) = Some z ->
  repeat_matcher (m ic (Cls p)) true k fuel x = Some z.
Proof.
  induction u as [|c u IH]; intros [pre s cs] fuel Hx Hu Hs Hf Hk;
    (destruct fuel as [|fuel]; [cbn in Hf; lia|]); cbn in Hx; subst s;
    cbn [repeat_matcher m after before caps] in *.
  - cbn in Hk. destruct s' as [|c s]; [by rewrite Hk|].
    cbn in Hs. by rewrite Hs, Hk.
  - rewrite (Hu c) by apply list_elem_of_here.
    assert (Hlen : Nat.eqb (length (u ++ s')) (length (c :: u ++ s')) = false).
    { apply Nat.eqb_neq. cbn. lia. }
    rewrite Hlen.
    rewrite (IH (MState (c :: pre) (u ++ s') cs) fuel); try done.
    + intros c' Hc'. by apply Hu, list_elem_of_further.
    + cbn in Hf. lia.
    + cbn [before caps]. rewrite <- Hk. f_equal. f_equal.
      cbn [rev]. by rewrite <- app_assoc.
Qed.

End Greedy.

Section Exact.

Implicit Types (pre s u : jsstring).

Lemma punct_not_space c : is_punct c = true -> is_space c = false.
Proof.
  unfold is_punct. cbn [existsb js List.map list_ascii_of_string].
  rewrite !orb_true_iff, !N.eqb_eq.
  intros H. repeat (destruct H as [H|H]; [by subst|]). done.
Qed.

Lemma word_not_space c : is_word c = true -> is_space c = false.
Proof.
  intros Hw. destruct (is_space c) eqn:Hs; [|done].
  revert Hw Hs. unfold is_word, is_space.
  rewrite !orb_true_iff, !andb_true_iff, !N.leb_le, !N.eqb_eq. lia.
Qed.

Lemma word_not_punct c : is_word c = true -> is_punct c = false.
Proof.
  intros Hw. destruct (is_punct c) eqn:Hp; [|done].
  revert Hp Hw. unfold is_punct. cbn [existsb js List.map list_ascii_of_string].
  rewrite !orb_true_iff, !N.eqb_eq.
  intros H. repeat (destruct H as [H|H]; [by subst|]). done.
Qed.

(** A string splits into its leading run of a class and the rest. *)
Lemma run_split (p : N -> bool) s :
  exists u s', s = u ++ s' /\ (forall c, c ∈ u -> p c = true) /\ stops p s'.
Proof.
  induction s as [|c s (u & s' & -> & Hu & Hs)].
  - exists [], []. split; [done|]. split; [by intros c ?%elem_of_nil|done].
  - destruct (p c) eqn:Hc.
    + exists (c :: u), s'. split; [done|]. split; [|done].
      by intros c' [->|?]%elem_of_cons; auto.
    + exists [], (c :: u ++ s'). split; [done|].
      split; [by intros c' ?%elem_of_nil|done].
Qed.

Lemma spaces_exec_hit pre c u s' :
  is_space c = true -> (forall c', c' ∈ u -> is_space c' = true) ->
  stops is_space s' ->
  exec_at false re_spaces pre (c :: u ++ s')
  = Some (MState (rev (c :: u) ++ pre) s' []).
Proof.
  intros Hc Hu Hs. unfold exec_at, re_spaces, plus, space.
  cbn [m after before caps]. rewrite Hc.
  apply (repeat_cls_hit false is_space Some _ s' u); try done.
  - rewrite length_app. cbn. lia.
  - cbn. by rewrite <- app_assoc.
Qed.

Lemma space_punct_exec_hit pre c u q s' :
  is_space c = true -> (forall c', c' ∈ u -> is_space c' = true) ->
  is_punct q = true ->
  exec_at false re_space_punct pre (c :: u ++ q :: s')
  = Some (MState (q :: rev (c :: u) ++ pre) s' [(1%nat, [q])]).
Proof.
  intros Hc Hu Hq. unfold exec_at, re_space_punct, plus, space, one_of.
  cbn [m after before caps]. rewrite Hc.
  apply (repeat_cls_hit false is_space _ _ (q :: s') u); try done.
  - cbn. by apply punct_not_space.
  - rewrite length_app. cbn. lia.
  - cbn [m after before caps]. fold (is_punct q). rewrite Hq.
    cbn [after before caps]. f_equal. f_equal.
    + cbn. by rewrite <- app_assoc.
    + f_equal. f_equal.
      apply (consumed_span (MState _ (q :: s') []) (MState _ s' []) [q]).
      done.
Qed.

Lemma punct_nonspace_exec_hit pre q c s' :
  is_punct q = true -> is_space c = false ->
  exec_at false re_punct_nonspace pre (q :: c :: s')
  = Some (MState (c :: q :: pre) s' [(2%nat, [c]); (1%nat, [q])]).
Proof.
  intros Hq Hc. unfold exec_at, re_punct_nonspace, one_of, nonspace.
  cbn [m after before caps]. fold (is_punct q). rewrite Hq, Hc.
  cbn [negb after before caps]. f_equal. f_equal. f_equal.
  - f_equal. apply (consumed_span (MState _ (c :: s') _) (MState _ s' _) [c]).
    done.
  - f_equal. f_equal.
    apply (consumed_span (MState _ (q :: c :: s') _) (MState _ (c :: s') _) [q]).
    done.
Qed.

Lemma sentence_exec_hit pre c u d s' :
  is_space c = true -> (forall c', c' ∈ u -> is_space c' = true) ->
  is_word d = true ->
  exec_at false re_sentence pre (46 :: c :: u ++ d :: s')
  = Some (MState (d :: rev (c :: u) ++ 46 :: pre) s'
            [(1%nat, 46 :: c :: u ++ [d])]).
Proof.
  intros Hc Hu Hd. unfold exec_at, re_sentence, seq, plus, space, word.
  cbn [m after before caps].
  match goal with |- match ?t with Some z => Some z | None => _ end = _ =>
    replace t with (@None mstate) by (by destruct pre) end.
  change (chr ".") with (Cls (N.eqb 46)). cbn [m after before caps].
  rewrite Hc.
  apply (repeat_cls_hit false is_space _ _ (d :: s') u); try done.
  - cbn. by apply word_not_space.
  - rewrite length_app. cbn. lia.
  - cbn [m after before caps]. rewrite Hd.
    cbn [after before caps]. f_equal. f_equal.
    + cbn. by rewrite <- app_assoc.
    + f_equal. f_equal.
      apply (consumed_span (MState _ _ []) (MState _ s' []) (46 :: c :: u ++ [d])).
      cbn. by rewrite <- app_assoc.
Qed.

Lemma tag_exec_hit pre c u s' :
  c <> 62 -> (forall c', c' ∈ u -> c' <> 62) ->
  exec_at false re_tag pre (60 :: c :: u ++ 62 :: s')
  = Some (MState (62 :: rev (c :: u) ++ 60 :: pre) s' []).
Proof.
  intros Hc Hu. unfold exec_at, re_tag, seq, plus.
  change (chr "<") with (Cls (N.eqb 60)).
  change (chr ">") with (Cls (N.eqb 62)).
  change (not_chr ">") with (Cls (fun x => negb (x =? 62))).
  cbn [m after before caps N.eqb Pos.eqb].
  assert (negb (c =? 62) = true) as ->.
  { apply negb_true_iff. by apply N.eqb_neq. }
  apply (repeat_cls_hit false _ _ _ (62 :: s') u); try done.
  - intros c' Hc'. apply negb_true_iff, N.eqb_neq. by apply Hu.
  - rewrite length_app. cbn. lia.
  - cbn [m after before caps N.eqb Pos.eqb]. f_equal. f_equal.
    cbn. by rewrite <- app_assoc.
Qed.

End Exact.

(** ** Scanners *)

Section ScannerFacts.

Context {Q : Type}.
Variable step_on : Q -> N -> option Q.

Lemma scan_app (q : Q) (a b : jsstring) :
  scan step_on q (a ++ b)
  = match scan step_on q a with
    | Some q' => scan step_on q' b
    | None => None
    end.
Proof.
  revert q. induction a as [|c a IH]; intros q; [done|]. cbn.
  by destruct (step_on q c).
Qed.

Lemma accepts_app (q : Q) (a b : jsstring) :
  accepts step_on q (a ++ b)
  = match scan step_on q a with
    | Some q' => accepts step_on q' b
    | None => false
    end.
Proof.
  unfold accepts. rewrite scan_app. by destruct (scan step_on q a).
Qed.

Lemma accepts_cons (q : Q) (c : N) (s : jsstring) :
  accepts step_on q (c :: s)
  = match step_on q c with
    | Some q' => accepts step_on q' s
    | None => false
    end.
Proof. unfold accepts. cbn. by destruct (step_on q c). Qed.

Lemma accepts_prefix (q : Q) (a b : jsstring) :
  accepts step_on q (a ++ b) = true -> accepts step_on q a = true.
Proof.
  rewrite accepts_app. unfold accepts. by destruct (scan step_on q a).
Qed.

Variables (ic : bool) (r : regex) (f : jsstring -> mstate -> jsstring).

(** A replacement whose every match leads the scanner to the state the
    matched text led it to keeps what the scanner accepts. *)
Lemma repl_accepts (pre s out : jsstring) :
  (forall pre w y q q', exec_at ic r pre (w ++ after y) = Some y ->
     scan step_on q w = Some q' -> scan step_on q (f w y) = Some q') ->
  repl ic r f pre s out ->
  forall q, accepts step_on q s = true -> accepts step_on q out = true.
Proof.
  intros Hf H. induction H as [pre|pre y E|pre c s out E _ IH
    |pre c s y out E Hy _ IH|pre c w s y out E Hy _ IH]; intros q Hq.
  - done.
  - pose proof (exec_at_span _ _ _ _ _ E) as (_ & u & Hu & _).
    symmetry in Hu. apply app_eq_nil in Hu as [_ Hu].
    rewrite <- Hu in E. apply (Hf pre [] y q q) in E; [|done].
    unfold accepts. by rewrite E.
  - rewrite accepts_cons in *. destruct (step_on q c); [by apply IH|done].
  - rewrite <- Hy in E at 1. apply (Hf pre [] y q q) in E; [|done].
    rewrite accepts_app, E. rewrite accepts_cons in *.
    destruct (step_on q c); [by apply IH|done].
  - subst s. change (c :: w ++ after y) with ((c :: w) ++ after y) in *.
    rewrite accepts_app in Hq.
    destruct (scan step_on q (c :: w)) as [q'|] eqn:Eq; [|done].
    apply (Hf pre (c :: w) y q q') in E; [|done].
    rewrite accepts_app, E. by apply IH.
Qed.

End ScannerFacts.

(** ** Code units and upper case *)

Section Upper.

Lemma upper_id c : is_lower c = false -> upper c = c.
Proof. unfold upper, is_lower. by intros ->. Qed.

Lemma lower_range c : is_lower c = true -> 97 <= c /\ c <= 122.
Proof.
  unfold is_lower. by rewrite andb_true_iff, !N.leb_le.
Qed.

Lemma upper_lower c : is_lower c = true -> upper c = c - 32.
Proof. unfold upper, is_lower. by intros ->. Qed.

Lemma lower_word c : is_lower c = true -> is_word c = true.
Proof. unfold is_lower, is_word. intros ->. apply orb_true_r. Qed.

Lemma upper_not_lower c : is_lower (upper c) = false.
Proof.
  destruct (is_lower c) eqn:E.
  - rewrite (upper_lower c E). apply lower_range in E.
    unfold is_lower. apply andb_false_iff. left. apply N.leb_gt. lia.
  - by rewrite (upper_id c E).
Qed.

Lemma upper_space c : is_space (upper c) = is_space c.
Proof.
  destruct (is_lower c) eqn:E; [|by rewrite (upper_id c E)].
  rewrite (word_not_space c (lower_word c E)).
  apply word_not_space, upper_is_word, lower_word, E.
Qed.

Lemma upper_punct c : is_punct (upper c) = is_punct c.
Proof.
  destruct (is_lower c) eqn:E; [|by rewrite (upper_id c E)].
  rewrite (word_not_punct c (lower_word c E)).
  apply word_not_punct, upper_is_word, lower_word, E.
Qed.

Lemma upper_eqb c (d : N) :
  is_word d = false -> (upper c =? d) = (c =? d).
Proof.
  intros Hd. destruct (is_lower c) eqn:E; [|by rewrite (upper_id c E)].
  pose proof (upper_is_word c (lower_word c E)) as H1.
  pose proof (lower_word c E) as H2.
  destruct (N.eqb_spec (upper c) d) as [<-|_]; [congruence|].
  destruct (N.eqb_spec c d) as [<-|_]; [congruence|done].
Qed.

Lemma upper_spaces (u : jsstring) :
  (forall c, c ∈ u -> is_space c = true) -> List.map upper u = u.
Proof.
  induction u as [|c u IH]; intros Hu; [done|]. cbn. f_equal.
  - apply upper_id. destruct (is_lower c) eqn:E; [|done].
    apply lower_word, word_not_space in E.
    by rewrite (Hu c) in E by apply list_elem_of_here.
  - apply IH. intros c' Hc'. by apply Hu, list_elem_of_further.
Qed.

Lemma same_upper_words (a b : jsstring) :
  List.map upper b = List.map upper a ->
  (forall c, c ∈ a -> is_word c = true) -> forall c, c ∈ b -> is_word c = true.
Proof.
  intros Hab Ha c Hc. apply is_word_upper.
  assert (In (upper c) (List.map upper a)) as Hin.
  { rewrite <- Hab. apply in_map. by apply list_elem_of_In. }
  apply in_map_iff in Hin as (c' & <- & Hin).
  by apply upper_is_word, Ha, list_elem_of_In.
Qed.

Lemma same_upper_nonempty (a b : jsstring) :
  List.map upper b = List.map upper a -> a <> [] -> b <> [].
Proof. intros H Ha ->. by destruct a. Qed.

(** A scanner whose steps do not tell a letter from its upper case reads
    a text and its upper case alike. *)
Lemma scan_upper {Q} (step_on : Q -> N -> option Q) :
  (forall q c, step_on q (upper c) = step_on q c) ->
  forall w q, scan step_on q (toUpperCase w) = scan step_on q w.
Proof.
  intros H. induction w as [|c w IH]; intros q; [done|].
  cbn. rewrite H. by destruct (step_on q c).
Qed.

End Upper.

(** ** Spacing *)

Section Spacing.

Implicit Types (prev : bool) (s u w : jsstring).

Lemma spaced_step_upper prev c :
  spaced_step prev (upper c) = spaced_step prev c.
Proof.
  unfold spaced_step. by rewrite upper_space, (upper_eqb c 32).
Qed.

(** Reading code units other than white space. *)
Lemma scan_spaced_text prev w :
  w <> [] -> (forall c, c ∈ w -> is_space c = false) ->
  scan spaced_step prev w = Some false.
Proof.
  revert prev. induction w as [|c w IH]; intros prev Hne Hw; [done|].
  cbn [scan]. unfold spaced_step at 1.
  rewrite (Hw c) by apply list_elem_of_here.
  destruct w as [|c' w]; [done|]. apply IH; [done|].
  intros x Hx. by apply Hw, list_elem_of_further.
Qed.

(** Reading white space: one space at most, after another code unit. *)
Lemma scan_spaced_spaces prev u q :
  u <> [] -> (forall c, c ∈ u -> is_space c = true) ->
  scan spaced_step prev u = Some q -> u = [32] /\ prev = false /\ q = true.
Proof.
  intros Hne Hu. destruct u as [|c u]; [done|]. cbn [scan].
  unfold spaced_step at 1. rewrite (Hu c) by apply list_elem_of_here.
  destruct (c =? 32) eqn:Ec; [|done]. apply N.eqb_eq in Ec. subst c.
  destruct prev; [done|]. cbn [negb andb].
  destruct u as [|c u]; [by intros [= <-]|].
  cbn [scan]. unfold spaced_step at 1.
  rewrite (Hu c) by (apply list_elem_of_further, list_elem_of_here).
  by rewrite andb_false_r.
Qed.

Lemma words_not_spaces w :
  (forall c, c ∈ w -> is_word c = true) -> forall c, c ∈ w -> is_space c = false.
Proof. intros H c Hc. by apply word_not_space, H. Qed.

Lemma space_before_punct_spaced s prev :
  spaced prev s = true -> spaced prev (space_before_punct s) = true.
Proof.
  unfold spaced, space_before_punct. intros Hacc.
  eapply repl_accepts; [|apply replace_all_repl|exact Hacc].
  intros pre w y q q' (u & p & Hw & Hne & Hs & Hp & Hc)%space_punct_shape Hq.
  apply app_inv_tail in Hw as ->.
  unfold expand. cbn [List.map List.concat]. rewrite Hc.
  change (scan spaced_step q [p] = Some q').
  rewrite scan_app in Hq.
  destruct (scan spaced_step q u) as [q1|]; [|done].
  cbn in *. unfold spaced_step in *.
  rewrite (punct_not_space p Hp) in *. done.
Qed.

Lemma space_after_punct_spaced s prev :
  spaced prev s = true -> spaced prev (space_after_punct s) = true.
Proof.
  unfold spaced, space_after_punct. intros Hacc.
  eapply repl_accepts; [|apply replace_all_repl|exact Hacc].
  intros pre w y q q' (p & c & Hw & Hp & Hns & Hc1 & Hc2)%punct_nonspace_shape Hq.
  apply app_inv_tail in Hw as ->.
  unfold expand. cbn [List.map List.concat]. rewrite Hc1, Hc2.
  change (scan spaced_step q [p; 32; c] = Some q').
  cbn in *. unfold spaced_step in *.
  rewrite (punct_not_space p Hp), Hns in *. done.
Qed.

Lemma repeated_words_spaced s prev :
  spaced prev s = true -> spaced prev (repeated_words s) = true.
Proof.
  unfold spaced, repeated_words. intros Hacc.
  eapply repl_accepts; [|apply replace_all_repl|exact Hacc].
  intros pre w y q q'
    (a & u & b & Hw & Ha & Hu & Hwa & Hsu & Hab & Hc & _)%repeated_shape Hq.
  apply app_inv_tail in Hw as ->.
  unfold expand. cbn [List.map List.concat]. rewrite Hc.
  change (scan spaced_step q (a ++ []) = Some q'). rewrite app_nil_r.
  rewrite (scan_spaced_text q a Ha (words_not_spaces a Hwa)).
  rewrite app_assoc, scan_app in Hq.
  destruct (scan spaced_step q (a ++ u)) as [q1|]; [|done].
  rewrite scan_spaced_text in Hq; [done|by apply (same_upper_nonempty a)|].
  by apply words_not_spaces, (same_upper_words a).
Qed.

Lemma capitalize_spaced s prev :
  spaced prev s = true -> spaced prev (capitalize s) = true.
Proof.
  unfold spaced, capitalize. intros Hacc.
  eapply repl_accepts; [|apply replace_all_repl|exact Hacc].
  intros pre w y q q' _ Hq. cbn beta.
  by rewrite (scan_upper spaced_step spaced_step_upper).
Qed.

Lemma spaced_relax s : spaced true s = true -> spaced false s = true.
Proof.
  destruct s as [|c s]; [done|]. unfold spaced. rewrite !accepts_cons.
  unfold spaced_step. destruct (is_space c); [|done].
  by rewrite andb_false_r.
Qed.

Lemma spaced_tail prev c s :
  spaced prev (c :: s) = true -> spaced (is_space c) s = true.
Proof.
  unfold spaced. rewrite accepts_cons. unfold spaced_step.
  destruct (is_space c); [|done]. by destruct ((c =? 32) && negb prev).
Qed.

End Spacing.

Section Collapse.

Implicit Types (prev : bool) (pre s out : jsstring).

(** [\s+] takes a whole run of white space. *)
Lemma spaces_exec_exact pre s y :
  exec_at false re_spaces pre s = Some y ->
  exists w, s = w ++ after y /\ w <> [] /\
    (forall c, c ∈ w -> is_space c = true) /\ stops is_space (after y).
Proof.
  intros H. pose proof (spaces_shape _ _ _ H) as (w & Hw & Hne & Hs).
  destruct s as [|c s]; [by destruct w|].
  assert (is_space c = true) as Hc.
  { destruct w as [|c' w]; [done|]. injection Hw as <- _.
    apply Hs, list_elem_of_here. }
  destruct (run_split is_space s) as (u & s' & -> & Hu & Hstop).
  rewrite (spaces_exec_hit pre c u s' Hc Hu Hstop) in H.
  injection H as <-. cbn [after]. exists (c :: u).
  repeat split; try done.
  by intros c' [->|?]%elem_of_cons; auto.
Qed.

Lemma spaces_exec_none pre c s :
  exec_at false re_spaces pre (c :: s) = None -> is_space c = false.
Proof.
  intros H. destruct (is_space c) eqn:Hc; [|done].
  destruct (run_split is_space s) as (u & s' & -> & Hu & Hstop).
  by rewrite (spaces_exec_hit pre c u s' Hc Hu Hstop) in H.
Qed.

Lemma collapse_repl_spaced pre s out :
  repl false re_spaces (expand [Txt (js " ")]) pre s out ->
  forall prev, (prev = true -> stops is_space s) -> spaced prev out = true.
Proof.
  unfold spaced.
  induction 1 as [pre|pre y E|pre c s out E _ IH
    |pre c s y out E Hy _ IH|pre c w s y out E Hy _ IH]; intros prev Hprev.
  - done.
  - apply spaces_shape in E as (w & Hw & Hne & _). by destruct w.
  - rewrite accepts_cons. unfold spaced_step.
    rewrite (spaces_exec_none _ _ _ E). by apply IH.
  - apply spaces_shape in E as (w & Hw & Hne & _).
    rewrite Hy in Hw. apply (f_equal length) in Hw.
    rewrite length_app in Hw. destruct w; [done|cbn in Hw; lia].
  - apply spaces_exec_exact in E as (w' & Hw & Hne & Hs & Hstop).
    rewrite Hy in Hw, Hstop.
    change (c :: w ++ s) with ((c :: w) ++ s) in Hw.
    apply app_inv_tail in Hw as <-.
    change (expand [Txt (js " ")] (c :: w) y) with [32].
    cbn [app]. rewrite accepts_cons. unfold spaced_step. cbn [is_space].
    change (is_space 32) with true. cbn [N.eqb Pos.eqb andb].
    destruct prev.
    + specialize (Hprev eq_refl). cbn in Hprev.
      by rewrite (Hs c) in Hprev by apply list_elem_of_here.
    + cbn [negb]. by apply IH.
Qed.

Lemma collapse_spaces_spaced s : spaced false (collapse_spaces s) = true.
Proof.
  apply (collapse_repl_spaced [] s); [apply replace_all_repl|done].
Qed.

(** On a spaced string the collapse changes nothing. *)
Lemma collapse_repl_id pre s out :
  repl false re_spaces (expand [Txt (js " ")]) pre s out ->
  forall prev, spaced prev s = true -> out = s.
Proof.
  induction 1 as [pre|pre y E|pre c s out E _ IH
    |pre c s y out E Hy _ IH|pre c w s y out E Hy _ IH]; intros prev Hprev.
  - done.
  - apply spaces_shape in E as (w & Hw & Hne & _). by destruct w.
  - f_equal. apply (IH (is_space c)). by apply (spaced_tail prev).
  - apply spaces_shape in E as (w & Hw & Hne & _).
    rewrite Hy in Hw. apply (f_equal length) in Hw.
    rewrite length_app in Hw. destruct w; [done|cbn in Hw; lia].
  - apply spaces_shape in E as (w' & Hw & Hne & Hs).
    rewrite Hy in Hw.
    change (c :: w ++ s) with ((c :: w) ++ s) in Hw.
    apply app_inv_tail in Hw as <-.
    change (expand [Txt (js " ")] (c :: w) y) with [32].
    change (c :: w ++ s) with ((c :: w) ++ s) in Hprev.
    unfold spaced in Hprev. rewrite accepts_app in Hprev.
    destruct (scan spaced_step prev (c :: w)) as [q|] eqn:Eq; [|done].
    apply scan_spaced_spaces in Eq as ([= -> ->] & -> & ->); [|done..].
    cbn [app]. f_equal. by apply (IH true).
Qed.

Lemma collapse_spaces_id s : spaced false s = true -> collapse_spaces s = s.
Proof.
  intros H. apply (collapse_repl_id [] s _ (replace_all_repl _ _ _ s) false H).
Qed.

End Collapse.

(** ** Spaces and punctuation *)

Section Punctuation.

Implicit Types (prev : bool) (pre s out : jsstring) (q : pstate).

(** After the removal of the white space before punctuation none is
    left, on a spaced string. *)
Lemma space_punct_repl_nosp pre s out :
  repl false re_space_punct (expand [Ref 1]) pre s out ->
  forall prev, spaced prev s = true ->
  (prev = true -> stops is_punct s) -> nosp prev out = true.
Proof.
  unfold nosp.
  induction 1 as [pre|pre y E|pre c s out E _ IH
    |pre c s y out E Hy _ IH|pre c w s y out E Hy _ IH];
    intros prev Hsp Hprev.
  - done.
  - apply space_punct_shape in E as (u & p & Hw & _). by destruct u.
  - rewrite accepts_cons. unfold nosp_step.
    assert (prev && is_punct c = false) as ->.
    { destruct prev; [|done]. by apply Hprev. }
    apply IH; [by apply (spaced_tail prev)|].
    intros Hc. destruct s as [|p s]; [done|]. cbn.
    destruct (is_punct p) eqn:Hp; [|done].
    assert (Hx : forall c', c' ∈ [] -> is_space c' = true)
      by (by intros ? ?%elem_of_nil).
    pose proof (space_punct_exec_hit pre c [] p s Hc Hx Hp) as Hhit.
    cbn [app] in Hhit. congruence.
  - apply space_punct_shape in E as (u & p & Hw & _).
    rewrite Hy in Hw. apply (f_equal length) in Hw.
    rewrite !length_app in Hw. cbn in Hw. lia.
  - apply space_punct_shape in E as (u & p & Hw & Hne & Hs & Hp & Hc).
    rewrite Hy in Hw. change (c :: w ++ s) with ((c :: w) ++ s) in *.
    apply app_inv_tail in Hw. rewrite Hw in *.
    unfold expand. cbn [List.map List.concat]. rewrite Hc.
    change (accepts nosp_step prev (p :: out) = true).
    unfold spaced in Hsp. rewrite <- app_assoc, accepts_app in Hsp.
    destruct (scan spaced_step prev u) as [q1|] eqn:Eq; [|done].
    apply scan_spaced_spaces in Eq as (-> & -> & ->); [|done..].
    rewrite accepts_cons. unfold nosp_step. cbn [andb].
    rewrite (punct_not_space p Hp).
    apply IH; [|done].
    change ([p] ++ s) with (p :: s) in Hsp. apply spaced_tail in Hsp.
    by rewrite (punct_not_space p Hp) in Hsp.
Qed.

Lemma space_before_punct_nosp s :
  spaced false s = true -> nosp false (space_before_punct s) = true.
Proof.
  intros H.
  by apply (space_punct_repl_nosp [] s _ (replace_all_repl _ _ _ s) false H).
Qed.

Lemma nosp_tail prev c s :
  nosp prev (c :: s) = true -> nosp (is_space c) s = true.
Proof.
  unfold nosp. rewrite accepts_cons. unfold nosp_step.
  by destruct (prev && is_punct c).
Qed.

Lemma nosp_head c s : nosp true (c :: s) = true -> is_punct c = false.
Proof.
  unfold nosp. rewrite accepts_cons. unfold nosp_step. cbn [andb].
  by destruct (is_punct c).
Qed.

Lemma spaced_head c s : spaced true (c :: s) = true -> is_space c = false.
Proof.
  unfold spaced. rewrite accepts_cons. unfold spaced_step.
  destruct (is_space c); [|done]. by rewrite andb_false_r.
Qed.

(** The insertion of a space after punctuation pairs punctuation and
    spaces, on a spaced string without space before punctuation. *)
Lemma punct_nonspace_repl_paired pre s out :
  repl false re_punct_nonspace (expand [Ref 1; Txt (js " "); Ref 2]) pre s out ->
  forall prev q, spaced prev s = true -> nosp prev s = true ->
  fits q prev s -> paired q out = true.
Proof.
  unfold paired.
  induction 1 as [pre|pre y E|pre c s out E _ IH
    |pre c s y out E Hy _ IH|pre c w s y out E Hy _ IH];
    intros prev q Hsp Hno Hq.
  - done.
  - by apply punct_nonspace_shape in E as (p & c & Hw & _).
  - pose proof (spaced_tail _ _ _ Hsp) as Hsp'.
    pose proof (nosp_tail _ _ _ Hno) as Hno'.
    rewrite accepts_cons.
    destruct q; cbn in Hq; cbn [paired_step].
    + subst prev. destruct (is_punct c) eqn:Hp.
      * apply (IH (is_space c)); try done.
        rewrite (punct_not_space c Hp). split; [done|].
        destruct s as [|d s]; [done|]. cbn.
        destruct (is_space d) eqn:Hd; [done|].
        by rewrite (punct_nonspace_exec_hit pre c d s Hp Hd) in E.
      * destruct (is_space c) eqn:Hc.
        -- by apply (IH true).
        -- by apply (IH false).
    + subst prev. rewrite (nosp_head _ _ Hno), (spaced_head _ _ Hsp).
      apply (IH _ Ready Hsp' Hno'). apply (spaced_head _ _ Hsp).
    + destruct Hq as [-> Hq]. cbn in Hq. apply negb_false_iff in Hq.
      rewrite Hq. apply (IH _ AfterPunctSpace Hsp' Hno'). apply Hq.
    + subst prev. rewrite (spaced_head _ _ Hsp).
      apply (IH _ Ready Hsp' Hno'). apply (spaced_head _ _ Hsp).
  - apply punct_nonspace_shape in E as (p & d & Hw & _).
    rewrite Hy in Hw. apply (f_equal length) in Hw. cbn in Hw. lia.
  - apply punct_nonspace_shape in E as (p & d & Hw & Hp & Hd & Hc1 & Hc2).
    rewrite Hy in Hw. change (c :: w ++ s) with ((c :: w) ++ s) in *.
    apply app_inv_tail in Hw. rewrite Hw in *.
    unfold expand. cbn [List.map List.concat]. rewrite Hc1, Hc2.
    change (accepts paired_step q (p :: 32 :: d :: out) = true).
    change ([p; d] ++ s) with (p :: d :: s) in *.
    pose proof (spaced_tail _ _ _ Hsp) as Hsp'.
    pose proof (nosp_tail _ _ _ Hno) as Hno'.
    rewrite (punct_not_space p Hp) in *.
    apply spaced_tail in Hsp'. apply nosp_tail in Hno'. rewrite Hd in *.
    assert (q = Ready) as ->.
    { destruct q; cbn in Hq; try done.
      - subst prev. apply nosp_head in Hno. congruence.
      - destruct Hq as [_ Hq]. cbn in Hq.
        by rewrite (punct_not_space p Hp) in Hq.
      - subst prev. apply nosp_head in Hno. congruence. }
    rewrite accepts_cons. cbn [paired_step]. rewrite Hp.
    rewrite accepts_cons. cbn [paired_step].
    change (is_space 32) with true. cbn iota.
    rewrite accepts_cons. cbn [paired_step]. rewrite Hd.
    by apply (IH false Ready).
Qed.

Lemma space_after_punct_paired s :
  spaced false s = true -> nosp false s = true ->
  paired Ready (space_after_punct s) = true.
Proof.
  intros H1 H2.
  by apply (punct_nonspace_repl_paired [] s _ (replace_all_repl _ _ _ s)
              false Ready H1 H2).
Qed.

End Punctuation.

Section Pairing.

Implicit Types (q : pstate) (s u w : jsstring).

Lemma paired_step_upper q c : paired_step q (upper c) = paired_step q c.
Proof. unfold paired_step. by rewrite upper_space, upper_punct. Qed.

Lemma scan_paired_words q w :
  w <> [] -> (forall c, c ∈ w -> is_word c = true) ->
  scan paired_step q w
  = match q with AfterPunct => None | _ => Some Ready end.
Proof.
  intros Hne Hw.
  assert (Hready : forall w, (forall c, c ∈ w -> is_word c = true) ->
    scan paired_step Ready w = Some Ready).
  { clear. induction w as [|c w IH]; intros Hw; [done|]. cbn [scan paired_step].
    assert (is_word c = true) as Hc by apply Hw, list_elem_of_here.
    rewrite (word_not_punct c Hc), (word_not_space c Hc).
    apply IH. intros c' Hc'. by apply Hw, list_elem_of_further. }
  destruct w as [|c w]; [done|]. cbn [scan].
  assert (is_word c = true) as Hc by apply Hw, list_elem_of_here.
  assert (forall c', c' ∈ w -> is_word c' = true) as Hw'.
  { intros c' Hc'. by apply Hw, list_elem_of_further. }
  destruct q; cbn [paired_step];
    rewrite ?(word_not_punct c Hc), ?(word_not_space c Hc); auto.
Qed.

Lemma scan_paired_spaces u :
  u <> [] -> (forall c, c ∈ u -> is_space c = true) ->
  scan paired_step Ready u = Some AfterSpace.
Proof.
  intros Hne Hu.
  assert (Hsp : forall c, is_space c = true -> is_punct c = false).
  { intros c Hc. destruct (is_punct c) eqn:Hp; [|done].
    apply punct_not_space in Hp. congruence. }
  assert (Hafter : forall u, (forall c, c ∈ u -> is_space c = true) ->
    scan paired_step AfterSpace u = Some AfterSpace).
  { clear Hne Hu u. induction u as [|c u IH]; intros Hu; [done|]. cbn [scan paired_step].
    assert (is_space c = true) as Hc by apply Hu, list_elem_of_here.
    rewrite (Hsp c Hc), Hc.
    apply IH. intros c' Hc'. by apply Hu, list_elem_of_further. }
  destruct u as [|c u]; [done|]. cbn [scan paired_step].
  assert (is_space c = true) as Hc by apply Hu, list_elem_of_here.
  rewrite (Hsp c Hc), Hc.
  apply Hafter. intros c' Hc'. by apply Hu, list_elem_of_further.
Qed.

Lemma repeated_words_paired s q :
  paired q s = true -> paired q (repeated_words s) = true.
Proof.
  unfold paired, repeated_words. intros Hacc.
  eapply repl_accepts; [|apply replace_all_repl|exact Hacc].
  intros pre w y q0 q'
    (a & u & b & Hw & Ha & Hu & Hwa & Hsu & Hab & Hc & _)%repeated_shape Hq.
  apply app_inv_tail in Hw as ->.
  unfold expand. cbn [List.map List.concat]. rewrite Hc.
  change (scan paired_step q0 (a ++ []) = Some q'). rewrite app_nil_r.
  rewrite scan_app, (scan_paired_words q0 a Ha Hwa) in Hq.
  rewrite (scan_paired_words q0 a Ha Hwa).
  destruct q0; try done;
    rewrite scan_app, (scan_paired_spaces u Hu Hsu) in Hq;
    rewrite scan_paired_words in Hq;
    try done; try (by apply (same_upper_nonempty a));
    try (by apply (same_upper_words a)).
Qed.

Lemma capitalize_paired s q :
  paired q s = true -> paired q (capitalize s) = true.
Proof.
  unfold paired, capitalize. intros Hacc.
  eapply repl_accepts; [|apply replace_all_repl|exact Hacc].
  intros pre w y q0 q' _ Hq. cbn beta.
  by rewrite (scan_upper paired_step paired_step_upper).
Qed.

Lemma paired_relax s : paired AfterSpace s = true -> paired Ready s = true.
Proof.
  destruct s as [|c s]; [done|]. unfold paired. rewrite !accepts_cons.
  cbn [paired_step]. by destruct (is_punct c).
Qed.

End Pairing.

(** ** Tags *)

Section Tags.

Implicit Types (pre s out : jsstring).

Lemma mk_tag_space c : is_space c = true -> mk_tag c = false.
Proof.
  unfold mk_tag. destruct (N.eqb_spec c 60) as [->|]; [done|].
  destruct (N.eqb_spec c 62) as [->|]; done.
Qed.

Lemma mk_tag_word c : is_word c = true -> mk_tag c = false.
Proof.
  unfold mk_tag. destruct (N.eqb_spec c 60) as [->|]; [done|].
  destruct (N.eqb_spec c 62) as [->|]; done.
Qed.

Lemma mk_tag_punct c : is_punct c = true -> mk_tag c = false.
Proof.
  unfold mk_tag. destruct (N.eqb_spec c 60) as [->|]; [done|].
  destruct (N.eqb_spec c 62) as [->|]; done.
Qed.

Lemma mk_tag_upper c : mk_tag (upper c) = mk_tag c.
Proof. unfold mk_tag. by rewrite (upper_eqb c 60), (upper_eqb c 62). Qed.

Lemma exists_gt_skel s :
  existsb (N.eqb 62) s = existsb is_gt (skel mk_tag s).
Proof.
  induction s as [|c s IH]; [done|]. cbn [existsb skel].
  destruct (mk_tag c) eqn:Ec.
  - cbn [existsb is_gt]. by rewrite IH, (N.eqb_sym 62 c).
  - unfold mk_tag in Ec. apply orb_false_iff in Ec as [_ Ec].
    rewrite (N.eqb_sym 62 c), Ec, IH.
    by destruct (skel mk_tag s) as [|[d|] t].
Qed.

Lemma starts_gt_skel s :
  starts_gt s = match skel mk_tag s with d :: _ => is_gt d | [] => false end.
Proof.
  destruct s as [|c s]; [done|]. cbn [starts_gt skel].
  destruct (mk_tag c) eqn:Ec; [done|].
  unfold mk_tag in Ec. apply orb_false_iff in Ec as [_ ->].
  by destruct (skel mk_tag s) as [|[d|] t].
Qed.

Lemma tagfree_skel_gap t : tagfree_skel (cons_gap t) = tagfree_skel t.
Proof. by destruct t as [|[d|] t]. Qed.

(** Whether a string is free of tags shows in its skeleton. *)
Lemma tagfree_skel_eq s : tagfree s = tagfree_skel (skel mk_tag s).
Proof.
  induction s as [|c s IH]; [done|]. cbn [tagfree skel].
  destruct (mk_tag c) eqn:Ec.
  - cbn [tagfree_skel]. by rewrite IH, exists_gt_skel, starts_gt_skel.
  - rewrite tagfree_skel_gap, IH.
    unfold mk_tag in Ec. apply orb_false_iff in Ec as [-> _]. done.
Qed.

Lemma stages_tagfree s :
  tagfree s = true ->
  tagfree (collapse_spaces (capitalize (repeated_words (space_after_punct
    (space_before_punct (collapse_spaces s)))))) = true.
Proof.
  rewrite !tagfree_skel_eq.
  by rewrite (stages_skel mk_tag mk_tag_space mk_tag_word mk_tag_punct
                mk_tag_upper).
Qed.

Lemma tagfree_suffix a s : tagfree (a ++ s) = true -> tagfree s = true.
Proof.
  induction a as [|c a IH]; [done|]. cbn [app tagfree].
  intros [_ H]%andb_true_iff. by apply IH.
Qed.

Lemma tagfree_prefix s b : tagfree (s ++ b) = true -> tagfree s = true.
Proof.
  induction s as [|c s IH]; [done|]. cbn [app tagfree].
  intros [H1 H2]%andb_true_iff. rewrite (IH H2), andb_true_r.
  destruct (c =? 60); [|done].
  apply orb_true_iff in H1 as [H1|H1].
  - destruct s as [|d s]; [done|]. cbn in *. by rewrite H1.
  - rewrite existsb_app, negb_orb in H1.
    apply andb_true_iff in H1 as [-> _]. apply orb_true_r.
Qed.

Lemma trim_tagfree s : tagfree s = true -> tagfree (trim s) = true.
Proof.
  destruct (trim_factor s) as (a & b & Hs). intros H. rewrite Hs in H.
  by apply tagfree_suffix, tagfree_prefix in H.
Qed.

(** The three tag patterns need a [<], then something other than [>],
    and a [>] later. *)
Lemma tag_match_shape ic r pre s y :
  (ic = true /\ r = re_open_voice) \/ (ic = true /\ r = re_close_voice)
  \/ (ic = false /\ r = re_tag) ->
  exec_at ic r pre s = Some y ->
  exists d rest, s = 60 :: d :: rest /\ (d =? 62) = false
    /\ existsb (N.eqb 62) rest = true.
Proof.
  intros Hr H%exec_at_mt.
  assert (Hgt : forall u v, existsb (N.eqb 62) (u ++ 62 :: v) = true).
  { intros u v. rewrite existsb_app. cbn. apply orb_true_r. }
  destruct Hr as [[-> ->]|[[-> ->]|[-> ->]]].
  - apply mt_seq_inv in H as (x1 & H1 & H).
    apply mt_cls_inv in H1 as (c1 & E1 & _ & _ & Hc1%N.eqb_eq).
    apply mt_seq_inv in H as (x2 & H2 & H).
    apply mt_cls_inv in H2 as (d & E2 & _ & _ & Hd).
    apply mt_seq_inv in H as (x3 & H3 & H4).
    apply mt_star_cls in H3 as (u & E3 & _ & _ & _).
    apply mt_cls_inv in H4 as (c4 & E4 & _ & _ & Hc4%N.eqb_eq).
    cbn in Hc1, Hc4. subst c1 c4.
    cbn [after] in E1. exists d, (u ++ 62 :: after y).
    rewrite E1, E2, E3, E4. repeat split; [|apply Hgt].
    destruct (N.eqb_spec d 62) as [->|]; [by vm_compute in Hd|done].
  - apply mt_seq_inv in H as (x1 & H1 & H).
    apply mt_cls_inv in H1 as (c1 & E1 & _ & _ & Hc1%N.eqb_eq).
    apply mt_seq_inv in H as (x2 & H2 & H).
    apply mt_cls_inv in H2 as (d & E2 & _ & _ & Hd%N.eqb_eq).
    apply mt_seq_inv in H as (x3 & H3 & H4).
    apply mt_cls_inv in H3 as (v & E3 & _ & _ & _).
    apply mt_cls_inv in H4 as (c4 & E4 & _ & _ & Hc4%N.eqb_eq).
    cbn in Hc1, Hd, Hc4. subst c1 d c4.
    cbn [after] in E1. exists 47, (v :: 62 :: after y).
    rewrite E1, E2, E3, E4. repeat split. apply (Hgt [v]).
  - apply mt_seq_inv in H as (x1 & H1 & H).
    apply mt_cls_inv in H1 as (c1 & E1 & _ & _ & Hc1%N.eqb_eq).
    apply mt_seq_inv in H as (x2 & H2 & H3).
    apply mt_plus_cls in H2 as (u & Hne & E2 & _ & _ & Hu).
    apply mt_cls_inv in H3 as (c4 & E4 & _ & _ & Hc4%N.eqb_eq).
    cbn in Hc1, Hc4. subst c1 c4.
    cbn [after] in E1. destruct u as [|d u]; [done|].
    exists d, (u ++ 62 :: after y).
    rewrite E1, E2, E4. repeat split; [|apply Hgt].
    apply negb_true_iff, Hu, list_elem_of_here.
Qed.

(** In a string free of tags the three patterns match nowhere. *)
Lemma tagfree_no_match ic r s :
  (ic = true /\ r = re_open_voice) \/ (ic = true /\ r = re_close_voice)
  \/ (ic = false /\ r = re_tag) ->
  tagfree s = true -> replace_all ic r (expand []) s = s.
Proof.
  intros Hr Hs.
  apply (repl_no_match ic r (expand []) [] s); [|apply replace_all_repl].
  intros a b ->. destruct (exec_at ic r (rev a ++ []) b) eqn:E; [|done].
  apply (tag_match_shape _ _ _ _ _ Hr) in E as (d & rest & -> & Hd & Hgt).
  apply tagfree_suffix in Hs.
  change (tagfree (60 :: d :: rest))
    with (((d =? 62) || negb ((62 =? d) || existsb (N.eqb 62) rest))
          && tagfree (d :: rest)) in Hs.
  rewrite Hd, (N.eqb_sym 62 d), Hd, Hgt in Hs. done.
Qed.

Lemma strip_tags_tagfree_id s : tagfree s = true -> strip_tags s = s.
Proof.
  intros H. unfold strip_tags.
  rewrite (tagfree_no_match true re_open_voice s) by auto.
  rewrite (tagfree_no_match true re_close_voice s) by auto.
  apply tagfree_no_match; auto.
Qed.

Lemma tag_repl_elem pre s out :
  repl false re_tag (expand []) pre s out -> forall x, x ∈ out -> x ∈ s.
Proof.
  induction 1 as [pre|pre y E|pre c s out E _ IH
    |pre c s y out E Hy _ IH|pre c w s y out E Hy _ IH]; intros x Hx.
  - done.
  - by apply elem_of_nil in Hx.
  - apply elem_of_cons in Hx as [->|Hx]; [apply list_elem_of_here|].
    by apply list_elem_of_further, IH.
  - cbn in Hx. apply elem_of_cons in Hx as [->|Hx]; [apply list_elem_of_here|].
    by apply list_elem_of_further, IH.
  - cbn in Hx. apply list_elem_of_further, elem_of_app. right. by apply IH.
Qed.

Lemma tag_repl_gt pre s out :
  repl false re_tag (expand []) pre s out ->
  starts_gt s = true -> starts_gt out = true.
Proof.
  assert (Hr : (false = true /\ re_tag = re_open_voice)
    \/ (false = true /\ re_tag = re_close_voice)
    \/ (false = false /\ re_tag = re_tag)) by auto.
  destruct 1 as [pre|pre y E|pre c s out E _
    |pre c s y out E Hy _|pre c w s y out E Hy _]; intros Hs; try done;
    apply (tag_match_shape _ _ _ _ _ Hr) in E as (d & rest & [= -> _] & _);
    done.
Qed.

Lemma existsb_gt_elem s : existsb (N.eqb 62) s = true <-> 62 ∈ s.
Proof.
  rewrite existsb_exists. split.
  - intros (x & Hx & ->%N.eqb_eq). by apply list_elem_of_In.
  - intros H. exists 62. split; [by apply list_elem_of_In|done].
Qed.

Lemma tag_match_nonempty pre s y :
  exec_at false re_tag pre s = Some y -> after y <> s.
Proof.
  intros H%exec_at_mt Hy.
  apply mt_seq_inv in H as (x1 & H1 & H2).
  apply mt_cls_inv in H1 as (c & E1 & _).
  apply mt_span in H2 as (u & E2 & _). cbn [after] in E1.
  rewrite E1, E2 in Hy. apply (f_equal length) in Hy.
  cbn in Hy. rewrite length_app in Hy. lia.
Qed.

(** After the removal of the tags the string is free of tags. *)
Lemma tag_repl_tagfree pre s out :
  repl false re_tag (expand []) pre s out -> tagfree out = true.
Proof.
  induction 1 as [pre|pre y E|pre c s out E Hrepl IH
    |pre c s y out E Hy _ IH|pre c w s y out E Hy _ IH]; try done.
  2: { by apply tag_match_nonempty in E. }
  cbn [tagfree]. rewrite IH, andb_true_r.
  destruct (N.eqb_spec c 60) as [->|]; [|done].
  destruct (starts_gt s) eqn:Hgt.
  { pose proof (tag_repl_gt _ _ _ Hrepl Hgt) as Hx. by rewrite Hx. }
  destruct (existsb (N.eqb 62) out) eqn:Hout; [|apply orb_true_r].
  exfalso. apply existsb_gt_elem, (tag_repl_elem _ _ _ Hrepl) in Hout.
  destruct s as [|d s]; [by apply elem_of_nil in Hout|].
  cbn [starts_gt] in Hgt.
  apply elem_of_cons in Hout as [Heq|Hout]; [subst d; done|].
  destruct (run_split (fun x => negb (x =? 62)) s) as (u & s' & -> & Hu & Hstop).
  destruct s' as [|g s'].
  - rewrite app_nil_r in Hout. apply Hu in Hout. done.
  - cbn in Hstop. apply negb_false_iff, N.eqb_eq in Hstop. subst g.
    rewrite (tag_exec_hit pre d u s') in E; [done|by apply N.eqb_neq|].
    intros c' Hc'. by apply N.eqb_neq, negb_true_iff, Hu.
Qed.

Lemma strip_tags_tagfree s : tagfree (strip_tags s) = true.
Proof. unfold strip_tags. eapply tag_repl_tagfree, replace_all_repl. Qed.

End Tags.

(** ** Capitals *)

Section Capitals.

Implicit Types (q : cstate) (pre s out u w : jsstring).

Lemma word_not_dot c : is_word c = true -> (c =? 46) = false.
Proof. destruct (N.eqb_spec c 46) as [->|]; done. Qed.

Lemma space_not_dot c : is_space c = true -> (c =? 46) = false.
Proof. destruct (N.eqb_spec c 46) as [->|]; done. Qed.

Lemma scan_capital_spaces q u :
  u <> [] -> (forall c, c ∈ u -> is_space c = true) ->
  scan capital_step q u
  = Some (match q with CStart => CStart | _ => CDotSpace end).
Proof.
  intros Hne Hu. revert q Hne. induction u as [|c u IH]; intros q Hne; [done|].
  assert (is_space c = true) as Hc by apply Hu, list_elem_of_here.
  cbn [scan]. unfold capital_step at 1. rewrite (space_not_dot c Hc), Hc.
  destruct u as [|c' u]; [done|].
  rewrite IH; [by destruct q| |done].
  intros x Hx. by apply Hu, list_elem_of_further.
Qed.

Lemma scan_capital_upper_word q c :
  is_word c = true -> scan capital_step q [upper c] = Some CStart.
Proof.
  intros Hc. apply upper_is_word in Hc. cbn. unfold capital_step.
  rewrite (word_not_dot _ Hc), (word_not_space _ Hc), upper_not_lower.
  by destruct q.
Qed.

Lemma capitalize_repl_capital pre s out :
  repl false re_sentence (fun mt _ => toUpperCase mt) pre s out ->
  forall q, cfits q s -> capital q out = true.
Proof.
  unfold capital.
  induction 1 as [pre|pre y E|pre c s out E _ IH
    |pre c s y out E Hy _ IH|pre c w s y out E Hy _ IH]; intros q Hq.
  - done.
  - apply sentence_shape in E as (w & Hw & [(c & -> & _)|(u & c & -> & _)]);
      done.
  - rewrite accepts_cons. unfold capital_step.
    destruct (N.eqb_spec c 46) as [->|Hdot].
    { apply IH. intros u s' -> Hu Hstop Hne.
      destruct s' as [|d s']; [done|]. cbn.
      destruct (is_word d) eqn:Hd; [|done].
      destruct u as [|c1 u]; [done|].
      assert (Hhit := sentence_exec_hit pre c1 u d s').
      cbn [app] in E. rewrite Hhit in E; try done.
      - apply Hu, list_elem_of_here.
      - intros c' Hc'. by apply Hu, list_elem_of_further. }
    destruct (is_space c) eqn:Hc.
    { apply IH. destruct q; [done| |].
      - intros u s' -> Hu Hstop.
        apply (Hq (c :: u) s'); try done.
        by intros c' [->|?]%elem_of_cons; auto.
      - intros u s' -> Hu Hstop.
        apply (Hq (c :: u) s'); try done.
        by intros c' [->|?]%elem_of_cons; auto. }
    assert (Hlow : q = CDotSpace -> is_lower c = false).
    { intros ->. specialize (Hq [] (c :: s) eq_refl).
      cbn in Hq. destruct (is_lower c) eqn:Hl; [|done].
      apply lower_word in Hl. rewrite Hq in Hl; try done.
      by intros ? ?%elem_of_nil. }
    destruct q; try by apply IH.
    rewrite Hlow by done. by apply IH.
  - apply sentence_shape in E as (w & Hw & Hshape).
    rewrite Hy in Hw. apply (f_equal length) in Hw. rewrite length_app in Hw.
    destruct Hshape as [(d & -> & _)|(u & d & -> & _)]; cbn in Hw; lia.
  - apply sentence_shape in E as (w' & Hw & Hshape).
    rewrite Hy in Hw. change (c :: w ++ s) with ((c :: w) ++ s) in Hw.
    apply app_inv_tail in Hw. rewrite Hw. clear Hw.
    rewrite accepts_app.
    assert (scan capital_step q (toUpperCase w') = Some CStart) as ->.
    { destruct Hshape as [(d & -> & Hd & _)|(u & d & -> & Hne & Hu & Hd)].
      - by apply scan_capital_upper_word.
      - unfold toUpperCase. cbn [List.map]. rewrite map_app.
        rewrite (upper_spaces u Hu). cbn [List.map scan].
        change (upper 46) with 46. unfold capital_step at 1.
        cbn [N.eqb Pos.eqb]. rewrite scan_app.
        rewrite (scan_capital_spaces CDot u Hne Hu).
        by apply scan_capital_upper_word. }
    by apply IH.
Qed.

Lemma capitalize_capital s : capital CStart (capitalize s) = true.
Proof.
  apply (capitalize_repl_capital [] s); [apply replace_all_repl|done].
Qed.

Lemma capital_tail q c s :
  capital q (c :: s) = true -> exists q', capital q' s = true.
Proof.
  unfold capital. rewrite accepts_cons.
  destruct (capital_step q c) as [q'|]; [by exists q'|done].
Qed.

(** On a string with capitals in place the capitalization changes
    nothing. *)
Lemma capitalize_repl_id pre s out :
  repl false re_sentence (fun mt _ => toUpperCase mt) pre s out ->
  forall q, capital q s = true -> (pre = [] -> stops is_lower s) -> out = s.
Proof.
  induction 1 as [pre|pre y E|pre c s out E _ IH
    |pre c s y out E Hy _ IH|pre c w s y out E Hy _ IH]; intros q Hq Hpre.
  - done.
  - apply sentence_shape in E as (w & Hw & [(c & -> & _)|(u & c & -> & _)]);
      done.
  - f_equal. apply capital_tail in Hq as [q' Hq']. by apply (IH q').
  - apply sentence_shape in E as (w & Hw & Hshape).
    rewrite Hy in Hw. apply (f_equal length) in Hw. rewrite length_app in Hw.
    destruct Hshape as [(d & -> & _)|(u & d & -> & _)]; cbn in Hw; lia.
  - apply sentence_shape in E as (w' & Hw & Hshape).
    rewrite Hy in Hw. change (c :: w ++ s) with ((c :: w) ++ s) in *.
    apply app_inv_tail in Hw. rewrite Hw in *. clear Hw.
    unfold capital in Hq. rewrite accepts_app in Hq.
    destruct (scan capital_step q w') as [q'|] eqn:Eq; [|done].
    assert (toUpperCase w' = w') as ->; [|f_equal; apply (IH q' Hq)].
    + destruct Hshape as [(d & -> & Hd & ->)|(u & d & -> & Hne & Hu & Hd)].
      * specialize (Hpre eq_refl). cbn in Hpre. cbn.
        by rewrite (upper_id d Hpre).
      * unfold toUpperCase. cbn [List.map]. rewrite map_app.
        rewrite (upper_spaces u Hu). cbn [List.map].
        change (upper 46) with 46. do 3 f_equal. apply upper_id.
        cbn [scan] in Eq. unfold capital_step at 1 in Eq.
        cbn [N.eqb Pos.eqb] in Eq. rewrite scan_app in Eq.
        rewrite (scan_capital_spaces CDot u Hne Hu) in Eq.
        cbn in Eq. unfold capital_step in Eq.
        rewrite (word_not_dot d Hd), (word_not_space d Hd) in Eq.
        by destruct (is_lower d).
    + intros Hnil. exfalso. apply app_eq_nil in Hnil as [Hnil _].
      apply (f_equal (@rev N)) in Hnil. rewrite rev_involutive in Hnil.
      cbn in Hnil. subst w'.
      destruct Hshape as [(d & ? & _)|(u & d & ? & _)]; done.
Qed.

Lemma capitalize_id s :
  capital CStart s = true -> stops is_lower s -> capitalize s = s.
Proof.
  intros H1 H2.
  apply (capitalize_repl_id [] s _ (replace_all_repl _ _ _ s) CStart H1).
  done.
Qed.

End Capitals.

(** ** The two punctuation stages, one after the other *)

Section SpaceRound.

Implicit Types (pre s : jsstring) (q : pstate) (prev : bool).

Lemma before_punct_nil pre : before_punct_from pre [] 0 = [].
Proof.
  apply replace_from_end.
  destruct (exec_at _ _ _ _) eqn:E; [|done].
  apply space_punct_shape in E as (u & p & Hw & _). by destruct u.
Qed.

Lemma before_punct_other pre c s :
  is_space c = false -> before_punct_from pre (c :: s) 0 = c :: before_punct_from (c :: pre) s 0.
Proof.
  intros Hc. apply replace_from_keep.
  destruct (exec_at _ _ _ _) eqn:E; [|done].
  apply space_punct_shape in E as (u & p & Hw & Hne & Hu & _).
  destruct u as [|c' u]; [done|]. injection Hw as <- _.
  by rewrite (Hu c) in Hc by apply list_elem_of_here.
Qed.

Lemma before_punct_keep pre c s :
  stops (fun x => is_space x || is_punct x) s ->
  before_punct_from pre (c :: s) 0 = c :: before_punct_from (c :: pre) s 0.
Proof.
  intros Hs. apply replace_from_keep.
  destruct (exec_at _ _ _ _) eqn:E; [|done].
  apply space_punct_shape in E as (u & p & Hw & Hne & Hu & Hp & _).
  destruct u as [|c' u]; [done|]. injection Hw as <- Hw.
  destruct s as [|d s]; [by destruct u|]. cbn [stops] in Hs.
  apply orb_false_iff in Hs as [Hd1 Hd2].
  destruct u as [|c'' u]; cbn in Hw; injection Hw as Hw _; subst.
  - congruence.
  - by rewrite (Hu c'') in Hd1
      by (apply list_elem_of_further, list_elem_of_here).
Qed.

Lemma before_punct_hit pre c p s :
  is_space c = true -> is_punct p = true ->
  before_punct_from pre (c :: p :: s) 0 = p :: before_punct_from (p :: c :: pre) s 0.
Proof.
  intros Hc Hp. unfold before_punct_from.
  assert (Hx : forall c', c' ∈ [] -> is_space c' = true)
    by (by intros ? ?%elem_of_nil).
  pose proof (space_punct_exec_hit pre c [] p s Hc Hx Hp) as Hhit.
  cbn [app rev] in Hhit.
  by rewrite (replace_from_hit false _ _ pre [c; p] s _ Hhit).
Qed.

Lemma after_punct_nil pre : after_punct_from pre [] 0 = [].
Proof.
  apply replace_from_end.
  destruct (exec_at _ _ _ _) eqn:E; [|done].
  by apply punct_nonspace_shape in E as (p & c & Hw & _).
Qed.

Lemma after_punct_other pre c s :
  is_punct c = false -> after_punct_from pre (c :: s) 0 = c :: after_punct_from (c :: pre) s 0.
Proof.
  intros Hc. apply replace_from_keep.
  destruct (exec_at _ _ _ _) eqn:E; [|done].
  apply punct_nonspace_shape in E as (p & d & [= <- _] & Hp & _). congruence.
Qed.

Lemma after_punct_keep pre c s :
  stops (fun x => negb (is_space x)) s ->
  after_punct_from pre (c :: s) 0 = c :: after_punct_from (c :: pre) s 0.
Proof.
  intros Hs. apply replace_from_keep.
  destruct (exec_at _ _ _ _) eqn:E; [|done].
  apply punct_nonspace_shape in E as (p & d & [= <- ->] & _ & Hd & _).
  cbn [stops] in Hs. by rewrite Hd in Hs.
Qed.

Lemma after_punct_hit pre p d s :
  is_punct p = true -> is_space d = false ->
  after_punct_from pre (p :: d :: s) 0 = p :: 32 :: d :: after_punct_from (d :: p :: pre) s 0.
Proof.
  intros Hp Hd. unfold after_punct_from.
  pose proof (punct_nonspace_exec_hit pre p d s Hp Hd) as Hhit.
  by rewrite (replace_from_hit false _ _ pre [p; d] s _ Hhit).
Qed.

Lemma paired_cons q c s :
  paired q (c :: s) = true ->
  exists q', paired_step q c = Some q' /\ paired q' s = true.
Proof.
  unfold paired. rewrite accepts_cons.
  destruct (paired_step q c) as [q'|]; [by exists q'|done].
Qed.

Lemma spaced_cons prev c s :
  spaced prev (c :: s) = true ->
  spaced (is_space c) s = true /\
  (is_space c = true -> c = 32 /\ prev = false).
Proof.
  intros H. split; [by apply (spaced_tail prev)|].
  unfold spaced in H. rewrite accepts_cons in H. unfold spaced_step in H.
  intros Hc. rewrite Hc in H.
  destruct (N.eqb_spec c 32) as [->|]; [|done]. by destruct prev.
Qed.

(** Removing the spaces before punctuation and inserting them again
    gives back a string that is spaced and paired. *)
Lemma space_round_from (n : nat) :
  forall s, (length s <= n)%nat ->
  forall prev q pre pre',
  spaced prev s = true -> paired q s = true ->
  (q = Ready /\ prev = false) \/ (q = AfterSpace /\ prev = true) ->
  after_punct_from pre' (before_punct_from pre s 0) 0 = s.
Proof.
  induction n as [n IH] using lt_wf_ind.
  intros [|c s] Hn prev q pre pre' Hsp Hpa Hq.
  { by rewrite before_punct_nil, after_punct_nil. }
  apply spaced_cons in Hsp as [Hsp Hc32].
  apply paired_cons in Hpa as (q1 & Hq1 & Hpa).
  cbn [length] in Hn.
  destruct (is_punct c) eqn:Hp.
  - (* punctuation *)
    pose proof (punct_not_space c Hp) as Hc. rewrite Hc in *.
    assert (q = Ready /\ q1 = AfterPunct) as [-> ->].
    { destruct Hq as [[-> ->]|[-> ->]]; cbn [paired_step] in Hq1; rewrite Hp in Hq1;
        [by injection Hq1 as <-|done]. }
    rewrite (before_punct_other _ _ _ Hc).
    destruct s as [|c1 s].
    { by rewrite before_punct_nil, after_punct_keep, after_punct_nil. }
    apply spaced_cons in Hsp as [Hsp Hc1].
    apply paired_cons in Hpa as (q2 & Hq2 & Hpa). cbn [paired_step] in Hq2.
    destruct (is_space c1) eqn:Hs1; [|done]. injection Hq2 as <-.
    destruct (Hc1 eq_refl) as [-> _].
    destruct s as [|d s].
    { rewrite before_punct_keep, before_punct_nil by done.
      rewrite after_punct_keep by done.
      by rewrite after_punct_other, after_punct_nil. }
    apply spaced_cons in Hsp as [Hsp Hd].
    apply paired_cons in Hpa as (q3 & Hq3 & Hpa). cbn [paired_step] in Hq3.
    destruct (is_space d) eqn:Hsd; [done|]. injection Hq3 as <-.
    cbn [length] in Hn.
    destruct (is_punct d) eqn:Hpd.
    + rewrite (before_punct_hit _ _ _ _ Hs1 Hpd), (after_punct_hit _ _ _ _ Hp Hsd).
      do 3 f_equal. apply (IH (length s)) with (prev := false) (q := Ready);
        auto; lia.
    + rewrite before_punct_keep by (cbn [stops]; by rewrite Hsd, Hpd).
      rewrite (before_punct_other _ _ _ Hsd).
      rewrite after_punct_keep by done.
      rewrite after_punct_other by done. rewrite (after_punct_other _ _ _ Hpd).
      do 3 f_equal. apply (IH (length s)) with (prev := false) (q := Ready);
        auto; lia.
  - destruct (is_space c) eqn:Hc.
    + (* a space *)
      destruct (Hc32 eq_refl) as [-> ->].
      assert (q = Ready /\ q1 = AfterSpace) as [-> ->].
      { destruct Hq as [[-> _]|[_ ?]]; [|done]. cbn [paired_step] in Hq1.
        by injection Hq1 as <-. }
      rewrite before_punct_keep, (after_punct_other _ _ _ Hp).
      * f_equal. apply (IH (length s)) with (prev := true) (q := AfterSpace);
          auto; lia.
      * destruct s as [|d s]; [done|]. cbn [stops].
        apply spaced_head in Hsp. apply paired_cons in Hpa as (q2 & Hq2 & _).
        cbn [paired_step] in Hq2. rewrite Hsp. by destruct (is_punct d).
    + (* another code unit *)
      assert (q1 = Ready) as ->.
      { destruct Hq as [[-> _]|[-> _]]; cbn [paired_step] in Hq1; rewrite Hp, ?Hc in Hq1;
          by injection Hq1 as <-. }
      rewrite (before_punct_other _ _ _ Hc), (after_punct_other _ _ _ Hp).
      f_equal. apply (IH (length s)) with (prev := false) (q := Ready);
        auto; lia.
Qed.

Lemma space_round_id s :
  spaced false s = true -> paired Ready s = true ->
  space_after_punct (space_before_punct s) = s.
Proof.
  intros H1 H2.
  apply (space_round_from (length s) s (le_n _) false Ready [] [] H1 H2).
  auto.
Qed.

End SpaceRound.

(** ** Trimming *)

Section Trim.

Implicit Types (s : jsstring).

Lemma trimStart_stops s : stops is_space (trimStart s).
Proof.
  induction s as [|c s IH]; [done|]. cbn [trimStart].
  destruct (is_space c) eqn:Hc; [done|]. by cbn.
Qed.

Lemma trimStart_id s : stops is_space s -> trimStart s = s.
Proof. destruct s as [|c s]; [done|]. cbn. by intros ->. Qed.

Lemma trimEnd_prefix s : exists b, s = trimEnd s ++ b.
Proof.
  unfold trimEnd. destruct (trimStart_suffix (rev s)) as [a Ha].
  exists (rev a). by rewrite <- rev_app_distr, <- Ha, rev_involutive.
Qed.

Lemma trim_stops s : stops is_space (trim s).
Proof.
  unfold trim. pose proof (trimStart_stops s) as H.
  destruct (trimEnd_prefix (trimStart s)) as [b Hb].
  destruct (trimEnd (trimStart s)) as [|c t] eqn:E; [done|].
  rewrite Hb in H. done.
Qed.

Lemma trim_trim s : trim (trim s) = trim s.
Proof.
  unfold trim at 1. rewrite (trimStart_id _ (trim_stops s)).
  unfold trim, trimEnd. rewrite rev_involutive.
  by rewrite (trimStart_id _ (trimStart_stops _)).
Qed.

(** Trimming keeps what a scanner accepts, when white space in front
    can be left out. *)
Lemma trim_accepts {Q} (step_on : Q -> N -> option Q) (q0 : Q) s :
  (forall c t, is_space c = true ->
     accepts step_on q0 (c :: t) = true -> accepts step_on q0 t = true) ->
  accepts step_on q0 s = true -> accepts step_on q0 (trim s) = true.
Proof.
  intros Hdrop Hs. unfold trim.
  destruct (trimEnd_prefix (trimStart s)) as [b Hb].
  apply (accepts_prefix _ _ _ b). rewrite <- Hb. clear b Hb.
  induction s as [|c s IH]; [done|]. cbn [trimStart].
  destruct (is_space c) eqn:Hc; [|done].
  by apply IH, (Hdrop c).
Qed.

Lemma trim_spaced s : spaced false s = true -> spaced false (trim s) = true.
Proof.
  apply trim_accepts. intros c t Hc H. apply spaced_tail in H.
  rewrite Hc in H. by apply spaced_relax.
Qed.

Lemma trim_paired s : paired Ready s = true -> paired Ready (trim s) = true.
Proof.
  apply trim_accepts. intros c t Hc H.
  apply paired_cons in H as (q' & Hq & H). cbn [paired_step] in Hq.
  assert (is_punct c = false) as Hp.
  { destruct (is_punct c) eqn:Hp; [|done].
    apply punct_not_space in Hp. congruence. }
  rewrite Hp, Hc in Hq. injection Hq as <-. by apply paired_relax.
Qed.

Lemma trim_capital s :
  capital CStart s = true -> capital CStart (trim s) = true.
Proof.
  apply trim_accepts. intros c t Hc H.
  unfold capital in *. rewrite accepts_cons in H. unfold capital_step in H.
  by rewrite (space_not_dot c Hc), Hc in H.
Qed.

Lemma spaced_no_newline prev s : spaced prev s = true -> 10 ∉ s.
Proof.
  revert prev. induction s as [|c s IH]; intros prev H.
  - by intros ?%elem_of_nil.
  - apply spaced_cons in H as [H Hc].
    intros [<-|Hin]%elem_of_cons; [|by apply (IH _ H)].
    by destruct (Hc eq_refl).
Qed.

Lemma split_no_sep (c : N) s : c ∉ s -> split c s = [s].
Proof.
  induction s as [|x s IH]; intros Hc; [done|]. cbn [split].
  destruct (N.eqb_spec x c) as [->|Hne].
  - exfalso. apply Hc, list_elem_of_here.
  - rewrite IH; [done|]. intros Hin. by apply Hc, list_elem_of_further.
Qed.

End Trim.

(** ** The normalizer on its own output *)

Section SecondPass.

(** What every output of the enhancement satisfies. *)
Lemma enhanced_invariants (text : jsstring) :
  let y := enhanceTranscript text in
  tagfree y = true /\ spaced false y = true /\ paired Ready y = true
  /\ capital CStart y = true /\ trim y = y.
Proof.
  cbn zeta. rewrite enhanceTranscript_stages.
  set (t3 := strip_tags text).
  set (t4 := collapse_spaces t3).
  set (t5 := space_before_punct t4).
  set (t6 := space_after_punct t5).
  set (t7 := repeated_words t6).
  set (t8 := capitalize t7).
  assert (H3 : tagfree t3 = true) by apply strip_tags_tagfree.
  assert (H4 : spaced false t4 = true) by apply collapse_spaces_spaced.
  assert (H5 : spaced false t5 = true) by by apply space_before_punct_spaced.
  assert (H5' : nosp false t5 = true) by by apply space_before_punct_nosp.
  assert (H6 : spaced false t6 = true) by by apply space_after_punct_spaced.
  assert (H6' : paired Ready t6 = true) by by apply space_after_punct_paired.
  assert (H7 : spaced false t7 = true) by by apply repeated_words_spaced.
  assert (H7' : paired Ready t7 = true) by by apply repeated_words_paired.
  assert (H8 : spaced false t8 = true) by by apply capitalize_spaced.
  assert (H8' : paired Ready t8 = true) by by apply capitalize_paired.
  assert (H8'' : capital CStart t8 = true) by apply capitalize_capital.
  pose proof (stages_tagfree t3 H3) as Htag.
  fold t4 t5 t6 t7 t8 in Htag.
  rewrite (collapse_spaces_id t8 H8) in *.
  split; [by apply trim_tagfree|].
  split; [by apply trim_spaced|].
  split; [by apply trim_paired|].
  split; [by apply trim_capital|apply trim_trim].
Qed.

(** The enhancement gives back a string that satisfies these, has no
    repeated word left and no lower-case letter in front. *)
Lemma enhanceTranscript_fixed (y : jsstring) :
  tagfree y = true -> spaced false y = true -> paired Ready y = true ->
  capital CStart y = true -> trim y = y ->
  jsmatch true re_repeated y = None -> stops is_lower y ->
  enhanceTranscript y = y.
Proof.
  intros Htag Hsp Hpa Hcap Htrim Hrep Hlow.
  rewrite enhanceTranscript_stages.
  rewrite (strip_tags_tagfree_id y Htag), (collapse_spaces_id y Hsp).
  rewrite (space_round_id y Hsp Hpa).
  assert (repeated_words y = y) as ->.
  { apply (repl_no_match true re_repeated (expand [Ref 1]) [] y);
      [|apply replace_all_repl].
    intros a b ->. by apply (search_None true re_repeated [] (a ++ b)). }
  by rewrite (capitalize_id y Hcap Hlow), (collapse_spaces_id y Hsp).
Qed.

(** On one line that the plain branch keeps the normalizer is the
    enhancement. *)
Lemma parseVTT_plain_line (y : jsstring) :
  10 ∉ y -> trim y = y -> plain_line y -> parseVTT y = enhanceTranscript y.
Proof.
  intros Hnl Htrim Hplain. unfold parseVTT, run.
  rewrite (split_no_sep 10 y Hnl). cbn [fold_left]. unfold step.
  rewrite Htrim, (classify_plain y Hplain).
  destruct Hplain as (Hb & _). apply not_header_or_blank in Hb.
  apply orb_false_iff in Hb as [_ ->]. cbn [skipNext negb andb transcriptLines app join].
  by rewrite Htrim.
Qed.

End SecondPass.

(** C4, the claim as stated fails: on ["a a a"] the first pass removes
    one repetition and leaves ["A a"], which the second pass turns into
    ["A"]. An output with three hyphens, gathered from three lines, is
    dropped whole by the second pass, and one that lost a tag in front is
    capitalized by it. *)
Lemma second_pass_differs :
  parseVTT (js "a a a") = js "A a" /\
  parseVTT (parseVTT (js "a a a")) = js "A" /\
  parseVTT (parseVTT (js "a a a")) <> parseVTT (js "a a a") /\
  parseVTT (js ("a-b" ++ nl ++ "c-d" ++ nl ++ "e-f")) = js "A-b c-d e-f" /\
  parseVTT (parseVTT (js ("a-b" ++ nl ++ "c-d" ++ nl ++ "e-f"))) = [] /\
  parseVTT (js "<b> a") = js "a" /\
  parseVTT (parseVTT (js "<b> a")) = js "A".
Proof. repeat split; by vm_compute. Qed.

(** C4, amended. For every input string [x] with output [y = parseVTT x]:
    when [y] is empty or a line the plain-text branch keeps (not the
    header, fewer than three hyphens, no [-->], no ["<v "] in front), no
    immediately repeated word is left in [y] and [y] does not begin with
    a lower-case letter, the normalizer gives [y] back: applying it twice
    equals applying it once. *)
Theorem second_pass_fixed (x : jsstring) :
  let y := parseVTT x in
  y = [] \/ plain_line y ->
  jsmatch true re_repeated y = None ->
  stops is_lower y ->
  parseVTT y = y.
Proof.
  cbn zeta. intros Hline Hrep Hlow.
  destruct Hline as [Hy|Hplain]; [by rewrite Hy|].
  set (y := parseVTT x) in *.
  pose proof (enhanced_invariants
    (trim (join (js " ") (transcriptLines (run (split 10 x))))))
    as (Htag & Hsp & Hpa & Hcap & Htrim).
  change (enhanceTranscript _) with y in Htag, Hsp, Hpa, Hcap, Htrim.
  rewrite (parseVTT_plain_line y (spaced_no_newline _ _ Hsp) Htrim Hplain).
  by apply enhanceTranscript_fixed.
Qed.

Lemma second_pass_fixed_witness :
  let x :=
    js ("WEBVTT" ++ nl ++ nl ++ "<v Ann>so  we we agreed ,did we</v>" ++ nl
        ++ "yes.and -then?" ++ nl) in
  parseVTT x = js "So we agreed, did we yes. And -then?" /\
  parseVTT (parseVTT x) = parseVTT x.
Proof.
  intros x. split; [by vm_compute|].
  refine (second_pass_fixed x _ _ _).
  - right. split; [intros [H|H]; vm_compute in H; discriminate|].
    split; [vm_compute; lia|]. split; by vm_compute.
  - by vm_compute.
  - by vm_compute.
Defined.

(** * Further properties *)

(** ** The output of the enhancement *)

Section Enhanced.

Lemma spaced_only_space prev s :
  spaced prev s = true -> forall c, c ∈ s -> is_space c = true -> c = 32.
Proof.
  revert prev. induction s as [|d s IH]; intros prev H c Hin Hc.
  - by apply elem_of_nil in Hin.
  - apply spaced_cons in H as [H Hd].
    apply elem_of_cons in Hin as [->|Hin]; [by destruct (Hd Hc)|].
    by apply (IH _ H).
Qed.

Lemma spaced_no_double prev s :
  spaced prev s = true -> includes (js "  ") s = false.
Proof.
  revert prev. induction s as [|d s IH]; intros prev H; [done|].
  apply spaced_cons in H as [H Hd].
  change (includes (js "  ") (d :: s))
    with (((32 =? d) && startsWith (js " ") s) || includes (js "  ") s).
  rewrite (IH _ H), orb_false_r.
  destruct (N.eqb_spec 32 d) as [<-|]; [|done]. cbn [andb].
  destruct s as [|e s]; [done|].
  change (startsWith (js " ") (e :: s)) with ((32 =? e) && true).
  destruct (N.eqb_spec 32 e) as [<-|]; [|done].
  apply spaced_cons in H as [_ He]. by destruct (He eq_refl).
Qed.

Lemma search_fails ic r s :
  (forall a b, s = a ++ b -> exec_at ic r (rev a) b = None) ->
  jsmatch ic r s = None.
Proof.
  intros H. destruct (jsmatch ic r s) as [[x y]|] eqn:E; [|done].
  apply search_spec in E as (a & b & -> & _ & E).
  rewrite app_nil_r in E. by rewrite (H a b) in E.
Qed.

Lemma tagfree_no_tag ic r s :
  (ic = true /\ r = re_open_voice) \/ (ic = true /\ r = re_close_voice)
  \/ (ic = false /\ r = re_tag) ->
  tagfree s = true -> jsmatch ic r s = None.
Proof.
  intros Hr Hs. apply search_fails. intros a b ->.
  destruct (exec_at ic r (rev a) b) eqn:E; [|done].
  apply (tag_match_shape _ _ _ _ _ Hr) in E as (d & rest & -> & Hd & Hgt).
  apply tagfree_suffix in Hs.
  change (tagfree (60 :: d :: rest))
    with (((d =? 62) || negb ((62 =? d) || existsb (N.eqb 62) rest))
          && tagfree (d :: rest)) in Hs.
  rewrite Hd, (N.eqb_sym 62 d), Hd, Hgt in Hs. done.
Qed.

Lemma capital_after_stop q a c b :
  capital q (a ++ js ". " ++ c :: b) = true -> is_lower c = false.
Proof.
  unfold capital, accepts. rewrite scan_app.
  destruct (scan capital_step q a) as [q1|]; [|done].
  change (js ". " ++ c :: b) with (46 :: 32 :: c :: b).
  cbn [scan]. change (capital_step q1 46) with (Some CDot). cbn [scan].
  change (capital_step CDot 32) with (Some CDotSpace). cbn [scan].
  destruct (is_lower c) eqn:Hl; [|done].
  assert (capital_step CDotSpace c = None) as ->; [|done].
  unfold capital_step.
  by rewrite (word_not_dot c), (word_not_space c), Hl by by apply lower_word.
Qed.

Lemma forallb_elem (p : N -> bool) (s : jsstring) :
  forallb p s = true -> forall c, c ∈ s -> p c = true.
Proof.
  induction s as [|x s IH]; intros H c Hc; [by apply elem_of_nil in Hc|].
  cbn [forallb] in H. apply andb_true_iff in H as [Hx Hs].
  apply elem_of_cons in Hc as [->|Hc]; [done|by apply IH].
Qed.

End Enhanced.

(** X1. Whatever the text, the output of [enhanceTranscript] holds no
    white space other than the space (code unit 32), no two spaces in a
    row, and no white space at either end: trimming it changes nothing. *)
Theorem enhanced_white_space (text : jsstring) :
  let y := enhanceTranscript text in
  (forall c, c ∈ y -> is_space c = true -> c = 32) /\
  includes (js "  ") y = false /\
  trim y = y.
Proof.
  cbn zeta. destruct (enhanced_invariants text) as (_ & Hsp & _ & _ & Htrim).
  split; [by apply (spaced_only_space false)|].
  split; [by apply (spaced_no_double false)|done].
Qed.

Lemma enhanced_white_space_witness :
  let y := enhanceTranscript (js ("  so " ++ tab ++ " we   agreed" ++ nl)) in
  y = js "so we agreed" /\ includes (js "  ") y = false /\ trim y = y.
Proof.
  intros y. split; [by vm_compute|].
  exact (proj2 (enhanced_white_space (js ("  so " ++ tab ++ " we   agreed" ++ nl)))).
Defined.

(** X2. Whatever the text, none of the three tag patterns of
    [enhanceTranscript] matches anywhere in its output: a [<] of the
    output is followed at once by [>], or by no [>] at all.  The same
    holds of the output of [parseVTT], which is an output of the
    enhancement. *)
Theorem enhanced_no_tag (text : jsstring) :
  let y := enhanceTranscript text in
  jsmatch true re_open_voice y = None /\
  jsmatch true re_close_voice y = None /\
  jsmatch false re_tag y = None /\
  (forall a d b c, y = a ++ 60 :: d :: b ++ 62 :: c -> d = 62) /\
  (forall vttContent, jsmatch false re_tag (parseVTT vttContent) = None).
Proof.
  cbn zeta. destruct (enhanced_invariants text) as (Htag & _).
  split; [apply tagfree_no_tag; auto|].
  split; [apply tagfree_no_tag; auto|].
  split; [apply tagfree_no_tag; auto|]. split.
  - intros a d b c Hy. rewrite Hy in Htag. apply tagfree_suffix in Htag.
    change (tagfree (60 :: d :: b ++ 62 :: c))
      with (((d =? 62) || negb ((62 =? d) || existsb (N.eqb 62) (b ++ 62 :: c)))
            && tagfree (d :: b ++ 62 :: c)) in Htag.
    destruct (N.eqb_spec d 62) as [->|Hne]; [done|].
    rewrite existsb_app in Htag. cbn [existsb] in Htag.
    rewrite N.eqb_refl, orb_true_l, !orb_true_r in Htag. done.
  - intros vttContent. unfold parseVTT. apply tagfree_no_tag; [auto|].
    apply enhanced_invariants.
Qed.

Lemma enhanced_no_tag_witness :
  enhanceTranscript (js "a <<b>c> d <> e") = js "A c> d <> e" /\
  jsmatch false re_tag (enhanceTranscript (js "a <<b>c> d <> e")) = None.
Proof.
  split; [by vm_compute|].
  exact (proj1 (proj2 (proj2 (enhanced_no_tag (js "a <<b>c> d <> e"))))).
Defined.

(** X3. Whatever the text, in the output of [enhanceTranscript] the code
    unit that follows a full stop and a space is never a lower-case ASCII
    letter. *)
Theorem enhanced_sentence_capital (text : jsstring) :
  let y := enhanceTranscript text in
  forall a c b, y = a ++ js ". " ++ c :: b -> is_lower c = false.
Proof.
  cbn zeta. destruct (enhanced_invariants text) as (_ & _ & _ & Hcap & _).
  intros a c b Hy. rewrite Hy in Hcap. by apply capital_after_stop in Hcap.
Qed.

Lemma enhanced_sentence_capital_witness :
  enhanceTranscript (js "fine.we go on") = js "Fine. We go on" /\
  is_lower 87 = false.
Proof.
  split; [by vm_compute|].
  refine (enhanced_sentence_capital (js "fine.we go on") (js "Fine") 87 (js "e go on") _).
  by vm_compute.
Defined.

(** X4. When the output [y] of [enhanceTranscript] has no immediately
    repeated word left (the repeated-word pattern matches nowhere in it)
    and does not begin with a lower-case letter, enhancing it again gives
    [y] back. *)
Theorem enhancement_settles (text : jsstring) :
  let y := enhanceTranscript text in
  jsmatch true re_repeated y = None -> stops is_lower y ->
  enhanceTranscript y = y.
Proof.
  cbn zeta. intros Hrep Hlow.
  destruct (enhanced_invariants text) as (Htag & Hsp & Hpa & Hcap & Htrim).
  by apply enhanceTranscript_fixed.
Qed.

Lemma enhancement_settles_witness :
  let text := js "so  we we agreed ,did we yes.and then?" in
  enhanceTranscript text = js "So we agreed, did we yes. And then?" /\
  enhanceTranscript (enhanceTranscript text) = enhanceTranscript text.
Proof.
  intros text. split; [by vm_compute|].
  refine (enhancement_settles text _ _); by vm_compute.
Defined.

(** ** Splitting and joining *)

Section SplitJoin.

Lemma split_app (c : N) (a b : jsstring) :
  c ∉ a -> split c (a ++ c :: b) = a :: split c b.
Proof.
  induction a as [|x a IH]; intros Ha.
  - cbn [app split]. by rewrite N.eqb_refl.
  - cbn [app split]. destruct (N.eqb_spec x c) as [->|Hne].
    + exfalso. apply Ha, list_elem_of_here.
    + rewrite IH; [done|]. intros Hin. by apply Ha, list_elem_of_further.
Qed.

Lemma split_join (c : N) (ls : list jsstring) :
  ls <> [] -> Forall (fun l => c ∉ l) ls -> split c (join [c] ls) = ls.
Proof.
  induction ls as [|a ls IH]; intros Hne H; [done|].
  apply Forall_cons in H as [Ha Hls].
  destruct ls as [|b ls].
  - cbn [join]. by apply split_no_sep.
  - change (join [c] (a :: b :: ls)) with (a ++ c :: join [c] (b :: ls)).
    rewrite (split_app c a _ Ha), IH; done.
Qed.

Lemma split_elem_no_sep (c : N) (s l : jsstring) : l ∈ split c s -> c ∉ l.
Proof.
  revert l. induction s as [|x s IH]; intros l Hl.
  - apply list_elem_of_singleton in Hl as ->. by intros ?%elem_of_nil.
  - cbn [split] in Hl. destruct (N.eqb_spec x c) as [->|Hne].
    + apply elem_of_cons in Hl as [->|Hl]; [by intros ?%elem_of_nil|by apply IH].
    + destruct (split c s) as [|h t] eqn:E.
      * apply list_elem_of_singleton in Hl as ->.
        by intros ->%list_elem_of_singleton.
      * apply elem_of_cons in Hl as [->|Hl].
        -- intros [->|Hin]%elem_of_cons; [done|].
           by apply (IH h); [apply list_elem_of_here|].
        -- apply IH. by apply list_elem_of_further.
Qed.

Lemma join_cons_sep (sep a : jsstring) (ls : list jsstring) :
  ls <> [] -> join sep (a :: ls) = a ++ sep ++ join sep ls.
Proof. by destruct ls. Qed.

Lemma not_elem_join (c : N) (sep : jsstring) (ls : list jsstring) :
  c ∉ sep -> Forall (fun l => c ∉ l) ls -> c ∉ join sep ls.
Proof.
  intros Hsep Hls [Hs|(l & Hl & Hx)]%elem_of_join; [done|].
  rewrite Forall_forall in Hls. by apply (Hls l Hl).
Qed.

(** The loop on the lines of a text that was joined from lines. *)
Lemma run_split_join (ls : list jsstring) :
  Forall (fun l => 10 ∉ l) ls -> run (split 10 (join (js nl) ls)) = run ls.
Proof.
  intros H. destruct ls as [|a ls]; [done|].
  change (js nl) with [10]. by rewrite (split_join 10 (a :: ls)).
Qed.

Lemma trim_fixed (s : jsstring) :
  trim s = s <-> stops is_space s /\ stops is_space (rev s).
Proof.
  split.
  - intros H. split; [rewrite <- H; apply trim_stops|].
    rewrite <- H. unfold trim, trimEnd. rewrite rev_involutive.
    apply trimStart_stops.
  - intros [H1 H2]. unfold trim, trimEnd.
    by rewrite (trimStart_id _ H1), (trimStart_id _ H2), rev_involutive.
Qed.

End SplitJoin.

(** ** Lines the loop passes over *)

Section Skipped.

Implicit Types (st : loop_state) (raw : jsstring).

Lemma step_blank st raw : header_or_blank (trim raw) -> step st raw = st.
Proof. intros H. unfold step. by rewrite (classify_blank _ H). Qed.

Lemma step_skipped st raw :
  skipped_line raw -> transcriptLines (step st raw) = transcriptLines st.
Proof.
  unfold step. intros [H|[H|H]].
  - by rewrite (classify_blank _ H).
  - by rewrite (classify_cue _ H).
  - by rewrite (classify_timing _ H).
Qed.

Lemma run_skipped (lines : list jsstring) :
  Forall skipped_line lines ->
  forall st, transcriptLines (fold_left step lines st) = transcriptLines st.
Proof.
  induction 1 as [|raw lines Hraw _ IH]; intros st; [done|].
  cbn [fold_left]. by rewrite IH, step_skipped.
Qed.

End Skipped.

(** X5. A header line [WEBVTT] or a blank line can be put in or taken out
    anywhere in a document without any change to the output of
    [parseVTT]: such a line leaves the whole state of the loop, the flag
    included, as it was. *)
Theorem blank_lines_transparent (above below : list jsstring) (raw : jsstring) :
  header_or_blank (trim raw) ->
  Forall (fun l => 10 ∉ l) (above ++ raw :: below) ->
  parseVTT (join (js nl) (above ++ raw :: below))
  = parseVTT (join (js nl) (above ++ below)).
Proof.
  intros Hraw Hnl. unfold parseVTT.
  rewrite (run_split_join _ Hnl).
  rewrite run_split_join.
  - unfold run. rewrite !fold_left_app. cbn [fold_left].
    by rewrite (step_blank _ raw Hraw).
  - apply Forall_app in Hnl as [Ha Hb]. apply Forall_cons in Hb as [_ Hb].
    by apply Forall_app.
Qed.

Lemma blank_lines_transparent_witness :
  parseVTT (js ("<v Ann>one</v>" ++ nl ++ nl ++ "two"))
  = parseVTT (js ("<v Ann>one</v>" ++ nl ++ "two")).
Proof.
  refine (blank_lines_transparent [js "<v Ann>one</v>"] [js "two"] [] _ _).
  - by right.
  - repeat constructor; apply not_elem_forallb; by vm_compute.
Defined.

(** ** The voice-tag branch on a closed tag *)

Section MatcherSteps.

Variable ic : bool.

Lemma m_seq r1 r2 x k :
  m ic (Seq r1 r2) x k = m ic r1 x (fun y => m ic r2 y k).
Proof. reflexivity. Qed.

Lemma m_star g r x k :
  m ic (Star g r) x k = repeat_matcher (m ic r) g k (S (length (after x))) x.
Proof. reflexivity. Qed.

Lemma m_group n r x k :
  m ic (Group n r) x k
  = m ic r x (fun y => k (MState (before y) (after y) ((n, consumed x y) :: caps y))).
Proof. reflexivity. Qed.

Lemma m_bol pre s cs k :
  m ic Bol (MState pre s cs) k
  = match pre with [] => k (MState pre s cs) | _ :: _ => None end.
Proof. reflexivity. Qed.

Lemma m_cls_hit (p : N -> bool) c pre s cs k :
  p c = true -> m ic (Cls p) (MState pre (c :: s) cs) k = k (MState (c :: pre) s cs).
Proof. intros H. cbn [m after before caps]. by rewrite H. Qed.

Lemma m_cls_miss (p : N -> bool) c pre s cs k :
  p c = false -> m ic (Cls p) (MState pre (c :: s) cs) k = None.
Proof. intros H. cbn [m after before caps]. by rewrite H. Qed.

(** A lazy run of a class stops at the first position where the rest of
    the pattern matches. *)
Lemma repeat_lazy_cls_hit (p : N -> bool) k z s cs :
  forall u pre fuel,
  (forall c, c ∈ u -> p c = true) ->
  (forall a b, u = a ++ b -> b <> [] ->
     k (MState (rev a ++ pre) (b ++ s) cs) = None) ->
  (length u < fuel)%nat ->
  k (MState (rev u ++ pre) s cs) = Some z ->
  repeat_matcher (m ic (Cls p)) false k fuel (MState pre (u ++ s) cs) = Some z.
Proof.
  induction u as [|c u IH]; intros pre fuel Hp Hk Hf Hz.
  - destruct fuel as [|fuel]; [cbn in Hf; lia|].
    cbn [repeat_matcher app rev] in *. by rewrite Hz.
  - destruct fuel as [|fuel]; [cbn in Hf; lia|].
    pose proof (Hk [] (c :: u) eq_refl ltac:(done)) as Hk0.
    cbn [rev app] in Hk0 |- *. cbn [repeat_matcher]. rewrite Hk0.
    rewrite m_cls_hit by apply Hp, list_elem_of_here.
    cbn [after length].
    destruct (Nat.eqb_spec (length (u ++ s)) (S (length (u ++ s)))) as [E|_]; [lia|].
    apply IH.
    + intros d Hd. by apply Hp, list_elem_of_further.
    + intros a b -> Hb.
      specialize (Hk (c :: a) b eq_refl Hb).
      cbn [rev] in Hk. by rewrite <- app_assoc in Hk.
    + cbn [length] in Hf. lia.
    + cbn [rev] in Hz. by rewrite <- app_assoc in Hz.
Qed.

Lemma search_here r s y :
  exec_at ic r [] s = Some y -> jsmatch ic r s = Some (MState [] s [], y).
Proof. intros H. unfold jsmatch. destruct s; cbn [search]; by rewrite H. Qed.

Lemma search_bol_miss r (s : jsstring) :
  forall pre, pre <> [] -> search ic (Seq Bol r) pre s = None.
Proof.
  induction s as [|c s IH]; intros pre Hpre.
  - cbn [search]. unfold exec_at. cbn [m before]. by destruct pre.
  - cbn [search]. unfold exec_at. cbn [m before].
    destruct pre; [done|]. by apply IH.
Qed.

End MatcherSteps.

Section ClosedVoice.

Lemma voice_pattern :
  re_voice
  = Seq (Cls (N.eqb 60)) (Seq (Cls (N.eqb 118))
      (Seq (Star true (Cls (fun x => negb (x =? 62)))) (Seq (Cls (N.eqb 62))
        (Seq (Group 1 (Star false dot))
          (Seq (Cls (N.eqb 60)) (Seq (Cls (N.eqb 47))
            (Seq (Cls (N.eqb 118)) (Cls (N.eqb 62))))))))).
Proof. reflexivity. Qed.

(** On a line that is a voice tag around a text, the pattern matches at
    the start and captures the text. *)
Lemma voice_exec_hit (attrs text : jsstring) :
  62 ∉ attrs -> 60 ∉ text ->
  (forall c, c ∈ text -> is_line_terminator c = false) ->
  exists y,
    exec_at false re_voice [] (voice_tagged attrs text) = Some y
    /\ cap 1 y = Some text.
Proof.
  intros Hattrs Htext Hdot.
  set (close := Seq (Cls (N.eqb 60)) (Seq (Cls (N.eqb 47))
            (Seq (Cls (N.eqb 118)) (Cls (N.eqb 62))))).
  set (x4 := MState (62 :: rev attrs ++ [118; 60]) (text ++ js "</v>") []).
  set (k4 := fun y : mstate =>
    m false close (MState (before y) (after y) ((1%nat, consumed x4 y) :: caps y)) Some).
  set (z := MState (rev (js "</v>") ++ rev text ++ before x4) [] [(1%nat, text)]).
  exists z. split; [|done].
  unfold exec_at. rewrite voice_pattern. fold close.
  change (voice_tagged attrs text)
    with (60 :: 118 :: attrs ++ 62 :: text ++ js "</v>").
  rewrite m_seq, m_cls_hit by done. cbn beta.
  rewrite m_seq, m_cls_hit by done. cbn beta.
  rewrite m_seq, m_star. cbn [after].
  rewrite (repeat_cls_hit false (fun x => negb (x =? 62)) _ z (62 :: text ++ js "</v>")
             attrs (MState [118; 60] (attrs ++ 62 :: text ++ js "</v>") []));
    [done|done| | | |].
  - intros c Hc. apply negb_true_iff, N.eqb_neq. by intros ->.
  - done.
  - rewrite length_app. lia.
  - cbn [before caps]. rewrite m_seq, m_cls_hit by done. cbn beta.
    rewrite m_seq, m_group, m_star. cbn [after]. fold x4.
    change (repeat_matcher (m false dot) false k4
              (S (length (text ++ js "</v>"))) x4 = Some z).
    unfold x4, dot.
    apply repeat_lazy_cls_hit.
    + intros c Hc. by rewrite (Hdot c Hc).
    + intros a [|c b] -> Hb; [done|]. unfold k4, close.
      cbn [before after caps app]. rewrite m_seq.
      destruct (N.eqb_spec 60 c) as [<-|Hne].
      * exfalso. apply Htext. rewrite elem_of_app, elem_of_cons. auto.
      * apply m_cls_miss. by apply N.eqb_neq.
    + rewrite length_app. cbn [length]. lia.
    + unfold k4, close. cbn [before after caps].
      rewrite (consumed_span _ _ text) by done.
      change (js "</v>") with [60; 47; 118; 62].
      rewrite m_seq, m_cls_hit by done. cbn beta.
      rewrite m_seq, m_cls_hit by done. cbn beta.
      rewrite m_seq, m_cls_hit by done. cbn beta.
      rewrite m_cls_hit by done. done.
Qed.

Lemma voice_tagged_trim attrs text :
  trim (voice_tagged attrs text) = voice_tagged attrs text.
Proof.
  apply trim_fixed. split; [done|]. unfold voice_tagged.
  rewrite !rev_app_distr. done.
Qed.

Lemma step_closed_voice (st : loop_state) (raw attrs text : jsstring) :
  trim raw = voice_tagged attrs text ->
  voice_line (trim raw) ->
  62 ∉ attrs -> 60 ∉ text ->
  (forall c, c ∈ text -> is_line_terminator c = false) ->
  text <> [] ->
  step st raw = LoopState (transcriptLines st ++ [text]) false.
Proof.
  intros Hraw Hv Hattrs Htext Hdot Hne. unfold step.
  rewrite (classify_voice _ Hv), Hraw.
  destruct (voice_exec_hit attrs text Hattrs Htext Hdot) as (y & Hy & Hcap).
  rewrite (search_here _ _ _ _ Hy), Hcap.
  by destruct text.
Qed.

Lemma run_voiced_cues (cues : list voiced_cue) :
  Forall well_formed cues ->
  forall st,
  transcriptLines (fold_left step (List.concat (List.map cue_lines cues)) st)
  = transcriptLines st ++ List.map spoken cues.
Proof.
  induction 1 as [|cue cues Hcue _ IH]; intros st.
  - by rewrite app_nil_r.
  - destruct Hcue as (Hlead & Hv & Hattrs & _ & Htext & Hdot & Hne).
    cbn [List.map List.concat]. unfold cue_lines at 1.
    rewrite !fold_left_app. cbn [fold_left]. rewrite IH.
    rewrite (step_closed_voice _ _ (attrs cue) (spoken cue));
      rewrite ?voice_tagged_trim; try done.
    cbn [transcriptLines]. rewrite run_skipped.
    + by rewrite <- app_assoc.
    + eapply Forall_impl; [exact Hlead|]. by intros raw [? _].
Qed.

End ClosedVoice.

(** X6. A line that, once trimmed, is a voice tag around a text,
    [<v...>text</v>], and reaches the voice-tag branch adds exactly the
    text to the dialogue accumulator and leaves the flag false, whatever
    the flag was before: when the tag has no [>] inside, and the text is
    not empty and has no [<] and no line terminator in it. *)
Theorem closed_voice_line_is_kept (st : loop_state) (raw attrs text : jsstring) :
  trim raw = voice_tagged attrs text ->
  voice_line (trim raw) ->
  62 ∉ attrs -> 60 ∉ text ->
  (forall c, c ∈ text -> is_line_terminator c = false) ->
  text <> [] ->
  step st raw = LoopState (transcriptLines st ++ [text]) false.
Proof. apply step_closed_voice. Qed.

Lemma closed_voice_line_is_kept_witness :
  step (LoopState [js "Good morning."] true) (js "  <v John>Hi there.</v> ")
  = LoopState [js "Good morning."; js "Hi there."] false.
Proof.
  refine (closed_voice_line_is_kept (LoopState [js "Good morning."] true)
            (js "  <v John>Hi there.</v> ") (js " John") (js "Hi there.") _ _ _ _ _ _).
  - reflexivity.
  - split; [intros [H|H]; vm_compute in H; discriminate|].
    split; [vm_compute; lia|]. split; reflexivity.
  - apply not_elem_forallb. by vm_compute.
  - apply not_elem_forallb. by vm_compute.
  - intros c Hc. apply negb_true_iff. revert c Hc. by apply forallb_elem.
  - done.
Defined.

(** X7. On a document of voiced cues, each made of lines the loop passes
    over (header, blank, identifier, timing) and one line with the text
    in a closed voice tag, followed by more lines of the first kind,
    [parseVTT] returns the enhancement of the texts of the cues joined by
    single spaces: nothing of the identifiers, the timings or the tags
    reaches the enhancement, and no text is lost. *)
Theorem voiced_transcript (cues : list voiced_cue) (trailer : list jsstring) :
  Forall well_formed cues ->
  Forall (fun raw => skipped_line raw /\ (10 ∉ raw)) trailer ->
  parseVTT (join (js nl) (List.concat (List.map cue_lines cues) ++ trailer))
  = enhanceTranscript (trim (join (js " ") (List.map spoken cues))).
Proof.
  intros Hcues Htrailer. unfold parseVTT. rewrite run_split_join.
  - unfold run. rewrite fold_left_app, run_skipped.
    + by rewrite run_voiced_cues.
    + eapply Forall_impl; [exact Htrailer|]. by intros raw [? _].
  - apply Forall_app. split.
    + apply Forall_concat, Forall_forall. intros ls Hls.
      apply list_elem_of_In, in_map_iff in Hls as (cue & <- & Hin).
      apply list_elem_of_In in Hin. rewrite Forall_forall in Hcues.
      destruct (Hcues cue Hin) as (Hlead & _ & _ & Hnl & _ & Hdot & _).
      unfold cue_lines. apply Forall_app. split.
      * eapply Forall_impl; [exact Hlead|]. by intros raw [_ ?].
      * apply Forall_singleton. unfold voice_tagged.
        rewrite !elem_of_app. intros [H|[H|[H|[H|H]]]]; try done.
        -- by apply (not_elem_forallb 10 (js "<v")) in H.
        -- by apply (not_elem_forallb 10 (js ">")) in H.
        -- by specialize (Hdot 10 H).
        -- by apply (not_elem_forallb 10 (js "</v>")) in H.
    + eapply Forall_impl; [exact Htrailer|]. by intros raw [_ ?].
Qed.

Ltac skipped_kind :=
  first
    [ left; left; reflexivity
    | left; right; reflexivity
    | right; left; split;
        [intros [H|H]; vm_compute in H; discriminate|vm_compute; lia]
    | right; right; split;
        [intros [H|H]; vm_compute in H; discriminate
        |split; [vm_compute; lia|reflexivity]] ].

Ltac not_in := apply not_elem_forallb; by vm_compute.

Ltac lines_ok :=
  repeat (apply Forall_cons; split; [split; [skipped_kind|not_in]|]);
  constructor.

Ltac cue_ok :=
  split; [lines_ok|];
  split; [split; [intros [H|H]; vm_compute in H; discriminate
                 |split; [vm_compute; lia|split; reflexivity]]|];
  split; [not_in|]; split; [not_in|]; split; [not_in|];
  split; [intros c Hc; apply negb_true_iff; revert c Hc; apply forallb_elem;
          by vm_compute|done].

Lemma voiced_transcript_witness :
  let first :=
    VoicedCue [js "WEBVTT"; []; js "a1b2-c3d4-e5f6-0"; js "00:00:01.000 --> 00:00:03.000"]
      (js " Ann") (js "so  we we agreed ,did we") in
  let second :=
    VoicedCue [[]; js "a1b2-c3d4-e5f6-1"; js "00:00:03.000 --> 00:00:04.000"]
      (js " Bob") (js "yes.and then?") in
  parseVTT (join (js nl) (List.concat (List.map cue_lines [first; second]) ++ [[]]))
  = js "So we agreed, did we yes. And then?".
Proof.
  intros first second.
  assert (Hcues : Forall well_formed [first; second]).
  { apply Forall_cons. split; [cue_ok|].
    apply Forall_cons. split; [cue_ok|constructor]. }
  assert (Htrailer : Forall (fun raw => skipped_line raw /\ (10 ∉ raw)) [[]])
    by lines_ok.
  rewrite (voiced_transcript [first; second] [[]] Hcues Htrailer).
  by vm_compute.
Defined.

(** ** The earlier parser *)

Section Earlier.

Lemma entries_no_newline (s : jsstring) :
  Forall (fun l => 10 ∉ l) (transcriptLines (run (split 10 s))).
Proof.
  apply run_entries; [|by constructor].
  intros raw w a b Hin Hab _ Hw.
  apply (split_elem_no_sep 10 s raw Hin), elem_of_trim.
  rewrite Hab, !elem_of_app. auto.
Qed.

Lemma earlier_output (vttContent : jsstring) :
  let y := VttParserV1.parseVTT vttContent in
  includes (js "-->") y = false /\ (10 ∉ y) /\ trim y = y.
Proof.
  cbn zeta. unfold VttParserV1.parseVTT. split; [|split].
  - apply not_true_is_false. intros H%includes_trim.
    by rewrite (join_no_arrow _ (entries_no_arrow _)) in H.
  - intros Hin%elem_of_trim. apply elem_of_join in Hin as [Hs|(l & Hl & Hx)].
    + by apply (not_elem_forallb 10 (js " ")) in Hs.
    + pose proof (entries_no_newline vttContent) as H.
      rewrite Forall_forall in H. by apply (H l Hl).
  - apply trim_trim.
Qed.

Lemma earlier_plain_line (y : jsstring) :
  10 ∉ y -> trim y = y -> plain_line y -> VttParserV1.parseVTT y = y.
Proof.
  intros Hnl Htrim Hplain. unfold VttParserV1.parseVTT, run.
  rewrite (split_no_sep 10 y Hnl). cbn [fold_left]. unfold step.
  rewrite Htrim, (classify_plain y Hplain).
  destruct Hplain as (Hb & _). apply not_header_or_blank in Hb.
  apply orb_false_iff in Hb as [_ ->]. cbn [skipNext negb andb transcriptLines app join].
  done.
Qed.

End Earlier.

(** X8. Whatever the input, the output of the earlier [parseVTT]
    (src/unnamed/part_002), which returns the assembled text without the
    enhancement, contains no [-->] and no line feed, and has no white
    space at either end. *)
Theorem earlier_parser_output (vttContent : jsstring) :
  let y := VttParserV1.parseVTT vttContent in
  includes (js "-->") y = false /\ (10 ∉ y) /\ trim y = y.
Proof. apply earlier_output. Qed.

(** X9. When the output [y] of the earlier [parseVTT] is empty or a line
    the plain-text branch keeps, the earlier [parseVTT] gives [y] back. *)
Theorem earlier_parser_fixed (x : jsstring) :
  let y := VttParserV1.parseVTT x in
  y = [] \/ plain_line y -> VttParserV1.parseVTT y = y.
Proof.
  cbn zeta. intros [Hy|Hplain]; [by rewrite Hy|].
  destruct (earlier_output x) as (_ & Hnl & Htrim).
  by apply earlier_plain_line.
Qed.

Lemma earlier_parser_fixed_witness :
  let x := js ("WEBVTT" ++ nl ++ nl ++ "<v Ann>so we agreed</v>" ++ nl ++ "yes" ++ nl) in
  VttParserV1.parseVTT x = js "so we agreed yes" /\
  VttParserV1.parseVTT (VttParserV1.parseVTT x) = VttParserV1.parseVTT x.
Proof.
  intros x. split; [by vm_compute|].
  refine (earlier_parser_fixed x _).
  right. split; [intros [H|H]; vm_compute in H; discriminate|].
  split; [vm_compute; lia|]. split; by vm_compute.
Defined.

(** ** The selection of rows *)

Section Selection.

Implicit Types (results : list UserStory) (selectedRows : gset nat).

Lemma elem_of_toggleRow selectedRows (index other : nat) :
  other ∈ toggleRow selectedRows index
  <-> (other = index /\ index ∉ selectedRows)
      \/ (other <> index /\ other ∈ selectedRows).
Proof.
  unfold toggleRow. cbn zeta. case_bool_decide as Hin.
  - rewrite elem_of_difference, elem_of_singleton.
    destruct (decide (other = index)) as [->|Hne]; tauto.
  - rewrite elem_of_union, elem_of_singleton.
    destruct (decide (other = index)) as [->|Hne]; tauto.
Qed.

Lemma filter_index_all selectedRows results :
  forall index,
  (forall i, (index <= i < index + length results)%nat -> i ∈ selectedRows) ->
  filter_index selectedRows index results = results.
Proof.
  induction results as [|story rest IH]; intros index H; [done|].
  cbn [filter_index]. rewrite bool_decide_eq_true_2.
  - f_equal. apply IH. intros i Hi. apply H. cbn [length]. lia.
  - apply H. cbn [length]. lia.
Qed.

Lemma filter_index_none selectedRows results :
  forall index,
  (forall i, i ∈ selectedRows ->
     (i < index)%nat \/ (index + length results <= i)%nat) ->
  filter_index selectedRows index results = [].
Proof.
  induction results as [|story rest IH]; intros index H; [done|].
  cbn [filter_index]. rewrite bool_decide_eq_false_2.
  - apply IH. intros i Hi. destruct (H i Hi) as [?|Hge]; [lia|].
    cbn [length] in Hge. lia.
  - intros Hi. destruct (H _ Hi) as [?|Hge]; [lia|]. cbn [length] in Hge. lia.
Qed.

End Selection.

(** X10. Toggling a row twice gives the selection back; one toggle flips
    the membership of that row and of no other. *)
Theorem toggleRow_twice (selectedRows : gset nat) (index : nat) :
  toggleRow (toggleRow selectedRows index) index = selectedRows /\
  (index ∈ toggleRow selectedRows index <-> index ∉ selectedRows) /\
  (forall other, other <> index ->
     (other ∈ toggleRow selectedRows index <-> other ∈ selectedRows)).
Proof.
  split; [|split].
  - apply set_eq. intros other. rewrite !elem_of_toggleRow.
    destruct (decide (other = index)) as [->|Hne];
      destruct (decide (index ∈ selectedRows)); tauto.
  - rewrite elem_of_toggleRow. tauto.
  - intros other Hne. rewrite elem_of_toggleRow. tauto.
Qed.

Lemma toggleRow_twice_witness :
  toggleRow (toggleRow {[1%nat; 4%nat]} 4) 4 = {[1%nat; 4%nat]} /\
  (1%nat ∈ toggleRow {[1%nat; 4%nat]} 4 <-> 1%nat ∈ ({[1%nat; 4%nat]} : gset nat)).
Proof.
  split.
  - exact (proj1 (toggleRow_twice {[1%nat; 4%nat]} 4)).
  - apply (proj2 (proj2 (toggleRow_twice {[1%nat; 4%nat]} 4))). lia.
Defined.

(** X11. A selection that holds the index of every record exports the
    same text as the empty selection: the whole table. *)
Theorem select_all_like_none (results : list UserStory) (selectedRows : gset nat) :
  (forall i, (i < length results)%nat -> i ∈ selectedRows) ->
  copyToClipboard results selectedRows = copyToClipboard results ∅.
Proof.
  intros H. unfold copyToClipboard, dataRows. do 4 f_equal.
  unfold rowsToCopy. rewrite size_empty.
  rewrite (bool_decide_eq_false_2 (0 < 0)%nat) by lia.
  case_bool_decide; [|done]. apply filter_index_all. intros i Hi. apply H. lia.
Qed.

Lemma select_all_like_none_witness :
  let results := [[(js "a", js "1")]; [(js "a", js "2")]] in
  copyToClipboard results {[0%nat; 1%nat; 7%nat]} = copyToClipboard results ∅.
Proof.
  intros results. refine (select_all_like_none results _ _).
  intros i Hi. cbn [length results] in Hi.
  destruct i as [|[|i]]; [| |lia]; apply (bool_decide_unpack _); by vm_compute.
Defined.

(** X12. A selection that is not empty but holds no index of a record
    (the selection outlives the results it was made on) exports the
    header row and a line feed, and no data row: not the whole table. *)
Theorem stale_selection_exports_header_only
    (results : list UserStory) (selectedRows : gset nat) :
  selectedRows <> ∅ ->
  (forall i, i ∈ selectedRows -> (length results <= i)%nat) ->
  copyToClipboard results selectedRows = headerRow results ++ js nl.
Proof.
  intros Hne H. unfold copyToClipboard, dataRows, rowsToCopy.
  rewrite bool_decide_eq_true_2.
  - rewrite filter_index_none; [done|]. intros i Hi. right. cbn. by apply H.
  - apply Nat.neq_0_lt_0. by intros ?%size_empty_inv%leibniz_equiv.
Qed.

Lemma stale_selection_exports_header_only_witness :
  copyToClipboard [[(js "a", js "1")]] {[3%nat]} = js ("a" ++ nl).
Proof.
  refine (stale_selection_exports_header_only [[(js "a", js "1")]] {[3%nat]} _ _).
  - apply (bool_decide_unpack _). by vm_compute.
  - intros i Hi. apply elem_of_singleton in Hi as ->. cbn. lia.
Defined.

(** ** Reading the export back *)

(** X13. When no header and no exported cell contains a tab or a line
    feed, and there is at least one header and one exported row,
    splitting the exported text at line feeds and each line at tabs gives
    back the headers and, row by row, the cells.  Nothing is escaped, so
    the condition on the cells is needed. *)
Theorem export_round_trip (results : list UserStory) (selectedRows : gset nat) :
  let headers := getHeaders results in
  let rows := rowsToCopy results selectedRows in
  headers <> [] -> rows <> [] ->
  (forall header, header ∈ headers -> (9 ∉ header) /\ (10 ∉ header)) ->
  (forall row header, row ∈ rows -> header ∈ headers ->
     (9 ∉ cell row header) /\ (10 ∉ cell row header)) ->
  List.map (split 9) (split 10 (copyToClipboard results selectedRows))
  = headers :: List.map (dataCells headers) rows.
Proof.
  cbn zeta. intros Hh Hr Hhs Hcells.
  unfold copyToClipboard, headerRow, dataRows.
  set (headers := getHeaders results) in *.
  set (rows := rowsToCopy results selectedRows) in *.
  set (line := fun row => join (js tab) (dataCells headers row)).
  rewrite <- (join_cons_sep (js nl) _ (List.map line rows))
    by (by destruct rows).
  change (js nl) with [10].
  assert (Hline : forall row, row ∈ rows ->
            (10 ∉ line row) /\ split 9 (line row) = dataCells headers row).
  { intros row Hrow.
    assert (Hc : forall x, x = 9 \/ x = 10 ->
              Forall (fun l => x ∉ l) (dataCells headers row)).
    { intros x Hx. unfold dataCells. apply Forall_forall. intros l Hl.
      apply list_elem_of_In, in_map_iff in Hl as (header & <- & Hin).
      apply list_elem_of_In in Hin.
      destruct (Hcells row header Hrow Hin). by destruct Hx as [->| ->]. }
    split.
    - apply not_elem_join; [|by apply Hc; right].
      apply not_elem_forallb. by vm_compute.
    - unfold line. change (js tab) with [9]. apply split_join; [|by apply Hc; left].
      unfold dataCells. by destruct headers. }
  rewrite split_join; [|done|].
  - cbn [List.map]. f_equal.
    + change (js tab) with [9]. apply split_join; [done|].
      apply Forall_forall. intros h Hin. by destruct (Hhs h Hin).
    + rewrite map_map. apply map_ext_in. intros row Hrow.
      by apply Hline, list_elem_of_In.
  - apply Forall_cons. split.
    + apply not_elem_join; [apply not_elem_forallb; by vm_compute|].
      apply Forall_forall. intros h Hin. by destruct (Hhs h Hin).
    + apply Forall_forall. intros l Hl.
      apply list_elem_of_In, in_map_iff in Hl as (row & <- & Hin).
      by apply Hline, list_elem_of_In.
Qed.

Lemma export_round_trip_witness :
  let results :=
    [[(js "a", js "1"); (js "b", js "2")]; [(js "a", js "3"); (js "c", js "4")]] in
  List.map (split 9) (split 10 (copyToClipboard results ∅))
  = [[js "a"; js "b"; js "c"]; [js "1"; js "2"; []]; [js "3"; []; js "4"]].
Proof.
  intros results. refine (export_round_trip results ∅ _ _ _ _).
  - done.
  - done.
  - intros header Hin. revert header Hin. apply Forall_forall.
    repeat constructor; apply not_elem_forallb; by vm_compute.
  - intros row header Hrow Hin. revert header Hin. apply Forall_forall.
    revert row Hrow. apply Forall_forall.
    repeat constructor; apply not_elem_forallb; by vm_compute.
Defined.

(** ** Headers of a longer collection *)

(** X14. Records added at the end of a collection leave the headers of
    the collection in front, in their order: new headers come after
    them.  When every key of the added records is a header already, the
    headers stay as they are. *)
Theorem getHeaders_append (results more : list UserStory) :
  getHeaders results `prefix_of` getHeaders (results ++ more) /\
  ((forall story k, story ∈ more -> k ∈ keys story -> k ∈ getHeaders results) ->
   getHeaders (results ++ more) = getHeaders results).
Proof.
  unfold getHeaders. rewrite !fold_stories, map_app, concat_app, fold_left_app.
  set (hs := fold_left set_add (List.concat (List.map keys results)) []).
  rewrite fold_set_add. split; [by exists (fresh hs (List.concat (List.map keys more)))|].
  intros H.
  assert (Hk : forall k, k ∈ List.concat (List.map keys more) -> k ∈ hs).
  { intros k Hk. apply list_elem_of_In, in_concat in Hk as (ks & Hks & Hin).
    apply in_map_iff in Hks as (story & <- & Hs).
    apply (H story); by apply list_elem_of_In. }
  clear H. generalize dependent (List.concat (List.map keys more)).
  intros ks Hk. assert (fresh hs ks = []) as ->; [|by rewrite app_nil_r].
  induction ks as [|k ks IH]; [done|]. cbn [fresh].
  rewrite (proj2 (existsb_eqs k hs)) by apply Hk, list_elem_of_here.
  apply IH. intros k' Hk'. by apply Hk, list_elem_of_further.
Qed.

Lemma getHeaders_append_witness :
  let results := [[(js "a", js "1"); (js "b", js "2")]] in
  let more := [[(js "b", js "3"); (js "a", js "4")]] in
  getHeaders (results ++ more) = getHeaders results.
Proof.
  intros results more. apply (proj2 (getHeaders_append results more)).
  intros story k Hs Hk. apply list_elem_of_singleton in Hs as ->.
  revert k Hk. apply Forall_forall. repeat constructor;
    apply (bool_decide_unpack _); by vm_compute.
Defined.

(** ** The display form of a header *)

Section Display.

Lemma replace_first_capital (t : jsstring) :
  replace_first false re_first_word (fun c _ => toUpperCase c) t
  = match t with [] => [] | c :: t' => upper c :: t' end.
Proof.
  unfold replace_first, re_first_word, word. destruct t as [|c t]; [done|].
  cbn [search]. unfold exec_at at 1. cbn [m before after caps].
  destruct (is_word c) eqn:Hw.
  - cbn [before after rev app]. by rewrite (consumed_span _ _ [c]).
  - rewrite search_bol_miss by done. f_equal. symmetry. apply upper_id.
    destruct (is_lower c) eqn:Hl; [|done]. apply lower_word in Hl. congruence.
Qed.

Lemma trim_upper_head (c : N) (t : jsstring) :
  trim (c :: t) = c :: t -> trim (upper c :: t) = upper c :: t.
Proof.
  rewrite !trim_fixed. intros [H1 H2]. split.
  - cbn [stops] in *. by rewrite upper_space.
  - cbn [rev] in *. destruct (rev t) as [|d r]; [|done].
    cbn [app stops] in *. by rewrite upper_space.
Qed.

Lemma upper_pattern_misses (s : jsstring) :
  (forall c, c ∈ s -> (65 <=? c) && (c <=? 90) = false) ->
  replace_all false re_upper (expand [Txt (js " "); Ref 1]) s = s.
Proof.
  intros Hs.
  apply (repl_no_match false re_upper (expand [Txt (js " "); Ref 1]) [] s);
    [|apply replace_all_repl].
  intros a b ->. unfold exec_at, re_upper, upper_letter. cbn [m after].
  destruct b as [|c b]; [done|].
  by rewrite Hs by (rewrite elem_of_app, elem_of_cons; auto).
Qed.

End Display.

(** X15. The display form of a header has no white space at either end
    and does not begin with a lower-case ASCII letter.  For a header with
    no upper-case ASCII letter in it and no white space at either end,
    the display form is the header with its first code unit upper-cased. *)
Theorem displayHeader_shape (header : jsstring) :
  trim (displayHeader header) = displayHeader header /\
  stops is_lower (displayHeader header) /\
  ((forall c, c ∈ header -> (65 <=? c) && (c <=? 90) = false) ->
   trim header = header ->
   displayHeader header
   = match header with [] => [] | c :: rest => upper c :: rest end).
Proof.
  unfold displayHeader. rewrite replace_first_capital.
  set (t := trim (replace_all false re_upper (expand [Txt (js " "); Ref 1]) header)).
  assert (Ht : trim t = t) by apply trim_trim.
  split; [|split].
  - destruct t as [|c t']; [done|]. by apply trim_upper_head.
  - destruct t as [|c t']; cbn [stops]; [done|apply upper_not_lower].
  - intros Hup Htrim. unfold t. by rewrite (upper_pattern_misses _ Hup), Htrim.
Qed.

Lemma displayHeader_shape_witness :
  displayHeader (js "requirement") = js "Requirement".
Proof.
  refine (proj2 (proj2 (displayHeader_shape (js "requirement"))) _ _).
  - intros c Hc. apply negb_true_iff. revert c Hc. apply forallb_elem. by vm_compute.
  - reflexivity.
Defined.

(** ** The detection invents nothing *)



(** ** The inputs of the page *)

(** X17. In every state the handlers of [src/app/page.tsx] lead to, the
    page holds an uploaded file or a text that is not blank, never both;
    and the name of an uploaded file ends with [.vtt]. *)
Theorem inputs_exclude_each_other (st : Page.state) :
  Page.reachable st ->
  (Page.uploadedFile st = None \/ trim (Page.textInput st) = []) /\
  (forall file, Page.uploadedFile st = Some file ->
     endsWith (js ".vtt") (Page.name file) = true).
Proof.
  induction 1 as [|st files _ [IH1 IH2]|st value _ [IH1 IH2]|st _ [IH1 IH2]
                  |st _ [IH1 IH2]|st msg _ [IH1 IH2]|st value _ [IH1 IH2]].
  - split; [by left|done].
  - unfold Page.handleFileUpload. destruct files as [|file _]; [done|].
    destruct (eqs (trim (Page.textInput st)) []) eqn:Et; cbn [negb]; [|done].
    destruct (endsWith (js ".vtt") (Page.name file)) eqn:Ev; cbn [negb]; [|done].
    cbn [Page.uploadedFile Page.textInput]. split.
    + right. by apply eqs_true.
    + by intros ? [= <-].
  - unfold Page.handleTextChange.
    destruct (Page.uploadedFile st) as [f|] eqn:Ef; cbn [Page.uploadedFile Page.textInput].
    + split; [|done]. destruct IH1 as [?|?]; [done|by right].
    + split; [by left|done].
  - split; [by left|done].
  - split; [by right|done].
  - done.
  - done.
Qed.

Lemma inputs_exclude_each_other_witness :
  let file := Page.MkFile (js "call.vtt") (Some (js "WEBVTT")) in
  let st :=
    Page.handleTextChange
      (Page.handleFileUpload
         (Page.handleClearText (Page.handleTextChange Page.initial (js "hello")))
         [file])
      (js "more") in
  (Page.uploadedFile st = Some file /\ Page.error st = Page.both_inputs) /\
  (Page.uploadedFile st = None \/ trim (Page.textInput st) = []) /\
  (forall file, Page.uploadedFile st = Some file ->
     endsWith (js ".vtt") (Page.name file) = true).
Proof.
  intros file st. split; [split; by vm_compute|].
  apply (inputs_exclude_each_other st). repeat constructor.
Defined.

Lemma transcript_field (t : jsstring) :
  prop (JObj [(js "transcript", JStr t)]) (js "transcript") = Some (JStr t).
Proof. unfold prop. cbn [List.find fst]. by rewrite eqs_refl. Qed.

(** X18. The body [handleSubmit] of [src/app/page.tsx] posts holds one
    transcript, with no white space at either end: the trimmed text,
    which is not empty, or the [parseVTT] of the file, which can be.  The
    guard of the route lets the request through when the transcript is
    not empty and answers 400 when it is, so a file whose normalized text
    is empty ends in the error of the route. *)
Theorem submit_meets_guard (st : Page.state) (body : json) :
  Page.handleSubmit st = Page.Send body ->
  exists t,
    body = JObj [(js "transcript", JStr t)] /\ trim t = t /\
    (Page.uploadedFile st = None -> t = trim (Page.textInput st) /\ t <> []) /\
    (forall file fileContent,
       Page.uploadedFile st = Some file -> Page.text file = Some fileContent ->
       t = parseVTT fileContent) /\
    RouteGuard.guard (Some body)
    = if eqs t [] then RouteGuard.Respond 400 (js "Invalid transcript provided")
      else RouteGuard.Proceed t.
Proof.
  unfold Page.handleSubmit. intros H.
  assert (Hg : forall t,
    RouteGuard.guard (Some (JObj [(js "transcript", JStr t)]))
    = if eqs t [] then RouteGuard.Respond 400 (js "Invalid transcript provided")
      else RouteGuard.Proceed t).
  { intros t. unfold RouteGuard.guard. cbv zeta. rewrite transcript_field.
    cbn [truthy RouteGuard.is_string RouteGuard.string_of negb].
    rewrite orb_false_r. by destruct (eqs t []). }
  destruct (Page.uploadedFile st) as [file|] eqn:Ef.
  - destruct (Page.text file) as [fileContent|] eqn:Et; [|done].
    injection H as <-. exists (parseVTT fileContent).
    split; [done|]. split; [apply enhanced_invariants|].
    split; [done|]. split; [|apply Hg].
    intros file' c [= <-] Hc. congruence.
  - destruct (eqs (trim (Page.textInput st)) []) eqn:E; [done|].
    cbn [negb] in H. injection H as <-. exists (trim (Page.textInput st)).
    split; [done|]. split; [apply trim_trim|].
    split; [|split; [done|apply Hg]].
    intros _. split; [done|]. by apply eqs_false.
Qed.

Lemma submit_meets_guard_witness :
  let cue := js ("00:00:01.000 --> 00:00:02.000" ++ nl ++ "Hello hello world." ++ nl) in
  let st := Page.State (Some (Page.MkFile (js "call.vtt") (Some cue))) [] [] [] in
  let body := JObj [(js "transcript", JStr [])] in
  Page.handleSubmit st = Page.Send body /\
  RouteGuard.guard (Some body)
  = RouteGuard.Respond 400 (js "Invalid transcript provided").
Proof.
  intros cue st body.
  assert (Hs : Page.handleSubmit st = Page.Send body) by by vm_compute.
  split; [exact Hs|].
  destruct (submit_meets_guard st body Hs) as (t & Hb & _ & _ & _ & Hg).
  injection Hb as <-. exact Hg.
Defined.

(** ** The transcript of a pasted text *)

Lemma parseVTT_no_arrow (vttContent : jsstring) :
  60 ∉ vttContent -> includes (js "-->") (parseVTT vttContent) = false.
Proof.
  intros Hlt. unfold parseVTT. apply stages_no_arrow.
  - intros Hin%elem_of_trim. revert Hin. apply join_no_lt.
    apply entries_no_lt. intros raw Hraw Hin.
    apply Hlt. by apply (elem_of_split 10 60 vttContent raw).
  - apply not_true_is_false. intros H%includes_trim.
    by rewrite (join_no_arrow _ (entries_no_arrow _)) in H.
Qed.

(** X19. With no uploaded file and a text that is not blank,
    [getTranscriptText] gives a transcript with no white space at either
    end: the trimmed text as it is when that neither begins with
    [WEBVTT] nor contains [-->], and its [parseVTT] otherwise.  When the
    text has no [<], the transcript contains no [-->] in either case. *)
Theorem pasted_text_transcript (textInput : jsstring) :
  trim textInput <> [] ->
  exists t,
    Home.getTranscriptText [] textInput = Home.Text t /\
    trim t = t /\
    (startsWith (js "WEBVTT") (trim textInput) = false ->
     includes (js "-->") (trim textInput) = false -> t = trim textInput) /\
    (startsWith (js "WEBVTT") (trim textInput) = true \/
     includes (js "-->") (trim textInput) = true -> t = parseVTT (trim textInput)) /\
    (60 ∉ textInput -> includes (js "-->") t = false).
Proof.
  intros Hne. unfold Home.getTranscriptText. cbn [length Nat.ltb Nat.leb].
  rewrite (proj2 (eqs_false _ _) Hne). cbn [negb]. cbv zeta.
  destruct (startsWith (js "WEBVTT") (trim textInput)
            || includes (js "-->") (trim textInput)) eqn:E.
  - exists (parseVTT (trim textInput)). split; [done|].
    split; [apply enhanced_invariants|]. split; [|split; [done|]].
    + intros H1 H2. by rewrite H1, H2 in E.
    + intros Hlt. apply parseVTT_no_arrow. by intros ?%elem_of_trim.
  - apply orb_false_iff in E as [E1 E2].
    exists (trim textInput). split; [done|]. split; [apply trim_trim|].
    split; [done|]. split; [|done].
    intros [H|H]; congruence.
Qed.

Lemma pasted_text_transcript_witness :
  exists t,
    Home.getTranscriptText [] (js "  we agreed on the price  ") = Home.Text t /\
    t = js "we agreed on the price".
Proof.
  destruct (pasted_text_transcript (js "  we agreed on the price  "))
    as (t & Ht & _ & Hplain & _); [by vm_compute|].
  exists t. split; [exact Ht|]. by apply Hplain.
Defined.

(** ** Removing a file *)

Section RemoveFile.

Context {A : Type}.

Lemma filter_from_all (keep : nat -> bool) (l : list A) :
  forall i, (forall j, (i <= j)%nat -> keep j = true) ->
  Home.filter_from keep i l = l.
Proof.
  induction l as [|x l IH]; intros i H; [done|].
  cbn [Home.filter_from]. rewrite (H i) by lia. f_equal. apply IH.
  intros j Hj. apply H. lia.
Qed.

Lemma filter_from_delete (target : nat) (l : list A) :
  forall i index, target = (i + index)%nat ->
  Home.filter_from (fun j => negb (Nat.eqb j target)) i l
  = take index l ++ drop (S index) l.
Proof.
  induction l as [|x l IH]; intros i index Ht.
  - by rewrite take_nil, drop_nil.
  - cbn [Home.filter_from]. destruct index as [|index].
    + rewrite Nat.add_0_r in Ht. subst target. rewrite Nat.eqb_refl.
      cbn [negb take drop app]. rewrite drop_0. apply filter_from_all.
      intros j Hj. apply negb_true_iff, Nat.eqb_neq. lia.
    + destruct (Nat.eqb_spec i target) as [->|_]; [lia|].
      cbn [negb take drop app]. f_equal. apply IH. lia.
Qed.

End RemoveFile.

(** X20. [handleRemoveFile] of [src/unnamed/part_000] sets the files
    without the one at the index, the others in their order; an index
    past the end leaves the files as they are, and an index of a file
    makes the list one shorter. *)
Theorem handleRemoveFile_at_index (uploadedFiles : list Page.File) (index : nat) :
  Home.handleRemoveFile uploadedFiles index
  = take index uploadedFiles ++ drop (S index) uploadedFiles /\
  ((length uploadedFiles <= index)%nat ->
   Home.handleRemoveFile uploadedFiles index = uploadedFiles) /\
  ((index < length uploadedFiles)%nat ->
   S (length (Home.handleRemoveFile uploadedFiles index)) = length uploadedFiles).
Proof.
  unfold Home.handleRemoveFile.
  rewrite (filter_from_delete index uploadedFiles 0 index eq_refl).
  split; [done|]. split.
  - intros H. rewrite take_ge, drop_ge by lia. apply app_nil_r.
  - intros H. rewrite length_app, length_take, length_drop. lia.
Qed.

Lemma handleRemoveFile_at_index_witness :
  let a := Page.MkFile (js "a.vtt") None in
  let b := Page.MkFile (js "b.vtt") None in
  let c := Page.MkFile (js "c.vtt") None in
  Home.handleRemoveFile [a; b; c] 1 = [a; c] /\
  Home.handleRemoveFile [a; b; c] 3 = [a; b; c].
Proof.
  intros a b c. split.
  - exact (proj1 (handleRemoveFile_at_index [a; b; c] 1)).
  - apply (proj1 (proj2 (handleRemoveFile_at_index [a; b; c] 3))). cbn. lia.
Defined.

(** ** The answer to a custom query *)

Section Answer.

Lemma split_from_none ic r (s : jsstring) :
  forall pre piece,
  (forall a b, s = a ++ b -> exec_at ic r (rev a ++ pre) b = None) ->
  split_from ic r pre piece s 0 = [rev piece ++ s].
Proof.
  induction s as [|c s IH]; intros pre piece H.
  - cbn [split_from]. by rewrite app_nil_r.
  - pose proof (H [] (c :: s) eq_refl) as H0. cbn [rev app] in H0.
    cbn [split_from]. rewrite H0, IH.
    + cbn [rev]. by rewrite <- app_assoc.
    + intros a b ->. specialize (H (c :: a) b eq_refl).
      cbn [rev] in H. by rewrite <- app_assoc in H.
Qed.

(** The first piece ends where the first match that is not empty
    begins. *)
Lemma split_from_first ic r (s : jsstring) :
  forall pre piece x y,
  search ic r pre s = Some (x, y) ->
  (length (after y) < length (after x))%nat ->
  exists a rest,
    x = MState (rev a ++ pre) (after x) [] /\
    split_from ic r pre piece s 0 = (rev piece ++ a) :: rest.
Proof.
  induction s as [|c s IH]; intros pre piece x y Hs Hlen.
  - cbn [search] in Hs. destruct (exec_at ic r pre []) as [y'|] eqn:E; [|done].
    injection Hs as <- <-. apply exec_at_mt, mt_span in E as (u & Hu & _).
    cbn [after] in *. destruct u; [|done]. cbn [app] in Hu. rewrite <- Hu in Hlen.
    cbn in Hlen. lia.
  - cbn [search] in Hs. cbn [split_from].
    destruct (exec_at ic r pre (c :: s)) as [y'|] eqn:E.
    + injection Hs as <- <-. cbn [after] in Hlen.
      destruct (Nat.eqb_spec (length (c :: s) - length (after y')) 0) as [E0|_];
        [lia|].
      exists [], (split_from ic r (c :: pre) [] s
                   (length (c :: s) - length (after y') - 1)).
      by rewrite app_nil_r.
    + destruct (IH (c :: pre) (c :: piece) x y Hs Hlen) as (a & rest & Hx & Hr).
      exists (c :: a), rest. cbn [rev] in *. rewrite <- !app_assoc in *.
      by rewrite Hr.
Qed.

Lemma marker_consumes pre s y :
  exec_at true Quotes.re_marker pre s = Some y ->
  (length (after y) < length s)%nat.
Proof.
  intros H%exec_at_mt. unfold Quotes.re_marker in H. cbn [seq] in H.
  apply mt_seq_inv in H as (x1 & H1 & H).
  apply mt_cls_inv in H1 as (c & E1 & _).
  apply mt_span in H as (u & E2 & _).
  cbn [after] in E1. rewrite E1, E2. cbn [length]. rewrite length_app. lia.
Qed.

End Answer.

(** X21. The main answer shown for the response to a custom query is the
    text before the first [Supporting Quotes:] marker (in any case, with
    or without the s), trimmed; without a marker it is the whole
    response, trimmed, and there are no quotes. *)
Theorem answer_before_marker (customQueryResponse : jsstring) :
  match jsmatch true Quotes.re_marker customQueryResponse with
  | None =>
      Quotes.mainAnswer customQueryResponse = trim customQueryResponse /\
      Quotes.quotes customQueryResponse = []
  | Some (x, _) =>
      Quotes.mainAnswer customQueryResponse = trim (rev (before x))
  end.
Proof.
  unfold Quotes.mainAnswer, Quotes.quotes, Quotes.quotesSection, Quotes.parts.
  destruct (jsmatch true Quotes.re_marker customQueryResponse) as [[x y]|] eqn:E.
  - pose proof E as E'.
    apply search_spec in E' as (a0 & b0 & Hs & Hx & Hy).
    apply marker_consumes in Hy.
    destruct customQueryResponse as [|c s].
    { destruct a0; [|done]. destruct b0; [|done]. cbn in Hy. lia. }
    unfold split_re.
    destruct (split_from_first true Quotes.re_marker (c :: s) [] [] x y E)
      as (a & rest & Hxa & ->).
    { rewrite Hx. cbn [after]. lia. }
    cbn [lookup list_lookup rev app]. rewrite Hxa. cbn [before].
    by rewrite app_nil_r, rev_involutive.
  - assert (Hparts : split_re true Quotes.re_marker customQueryResponse
                     = [customQueryResponse]).
    { unfold split_re. destruct customQueryResponse as [|c s].
      - pose proof (search_None true _ [] [] E [] [] eq_refl) as H0.
        cbn [rev app] in H0. by rewrite H0.
      - apply (split_from_none true Quotes.re_marker (c :: s) [] []).
        intros a b Hab. by apply (search_None true _ [] (c :: s) E). }
    rewrite Hparts. done.
Qed.

(** ** A quoted line *)

Section Quoted.

(** A greedy run of a class gives back what it must: it ends at the
    longest run after which the rest of the pattern matches. *)
Lemma repeat_cls_none ic (p : N -> bool) k cs (v : jsstring) :
  forall pre fuel,
  (forall a b, v = a ++ b -> (forall c, c ∈ a -> p c = true) ->
     k (MState (rev a ++ pre) b cs) = None) ->
  repeat_matcher (m ic (Cls p)) true k fuel (MState pre v cs) = None.
Proof.
  induction v as [|c v IH]; intros pre fuel H.
  - destruct fuel as [|fuel]; [done|]. cbn [repeat_matcher m after].
    apply (H [] [] eq_refl). by intros c ?%elem_of_nil.
  - destruct fuel as [|fuel]; [done|]. cbn [repeat_matcher].
    pose proof (H [] (c :: v) eq_refl) as H0. cbn [rev app] in H0.
    destruct (p c) eqn:Hc.
    + rewrite m_cls_hit by done. cbn [after length].
      destruct (Nat.eqb_spec (length v) (S (length v))) as [?|_]; [lia|].
      rewrite IH.
      * apply H0. by intros d ?%elem_of_nil.
      * intros a b -> Ha. specialize (H (c :: a) b eq_refl).
        cbn [rev] in H. rewrite <- app_assoc in H. apply H.
        intros d [->|Hd]%elem_of_cons; [done|by apply Ha].
    + rewrite m_cls_miss by done. apply H0. by intros d ?%elem_of_nil.
Qed.

Lemma repeat_cls_longest ic (p : N -> bool) k z cs (v : jsstring) :
  forall u pre fuel,
  (forall c, c ∈ u -> p c = true) ->
  (length (u ++ v) < fuel)%nat ->
  k (MState (rev u ++ pre) v cs) = Some z ->
  (forall a b, v = a ++ b -> a <> [] -> (forall c, c ∈ a -> p c = true) ->
     k (MState (rev a ++ rev u ++ pre) b cs) = None) ->
  repeat_matcher (m ic (Cls p)) true k fuel (MState pre (u ++ v) cs) = Some z.
Proof.
  induction u as [|c u IH]; intros pre fuel Hu Hf Hz Hk.
  - destruct fuel as [|fuel]; [cbn in Hf; lia|].
    cbn [app rev] in *. cbn [repeat_matcher].
    destruct v as [|c v].
    + cbn [m after]. done.
    + destruct (p c) eqn:Hc.
      * rewrite m_cls_hit by done. cbn [after length].
        destruct (Nat.eqb_spec (length v) (S (length v))) as [?|_]; [lia|].
        rewrite repeat_cls_none; [done|].
        intros a b -> Ha. specialize (Hk (c :: a) b eq_refl).
        cbn [rev] in Hk. rewrite <- app_assoc in Hk. apply Hk; [done|].
        intros d [->|Hd]%elem_of_cons; [done|by apply Ha].
      * by rewrite m_cls_miss.
  - destruct fuel as [|fuel]; [cbn in Hf; lia|].
    cbn [app]. cbn [repeat_matcher].
    rewrite m_cls_hit by apply Hu, list_elem_of_here. cbn [after length].
    destruct (Nat.eqb_spec (length (u ++ v)) (S (length (u ++ v)))) as [?|_]; [lia|].
    rewrite (IH (c :: pre) fuel); [done| | | |].
    + intros d Hd. by apply Hu, list_elem_of_further.
    + cbn [app length] in Hf. lia.
    + cbn [rev] in Hz. by rewrite <- app_assoc in Hz.
    + intros a b Hv Ha Hp. specialize (Hk a b Hv Ha Hp).
      cbn [rev] in Hk. by rewrite <- !app_assoc in Hk.
Qed.

Lemma quoted_pattern :
  Quotes.re_quoted
  = Seq Bol (Seq (Cls (N.eqb 34)) (Seq (Group 1 (Star true dot)) (Cls (N.eqb 34)))).
Proof. reflexivity. Qed.

Lemma bullet_pattern :
  Quotes.re_bullet = Seq Bol (Seq (Cls is_bullet) (Star true space)).
Proof. reflexivity. Qed.

Lemma quoted_hit (text : jsstring) :
  (forall c, c ∈ text -> is_line_terminator c = false) ->
  replace_first_to_end false Quotes.re_quoted (expand [Ref 1]) (34 :: text ++ [34])
  = text.
Proof.
  intros Hdot. unfold replace_first_to_end.
  set (x1 := MState [34] (text ++ [34]) []).
  set (z := MState (34 :: rev text ++ [34]) [] [(1%nat, text)]).
  assert (Hm : m false Quotes.re_quoted (MState [] (34 :: text ++ [34]) []) at_end
               = Some z).
  { rewrite quoted_pattern, m_seq, m_bol. rewrite m_seq, m_cls_hit by done.
    cbn beta. rewrite m_seq, m_group, m_star. cbn [after]. fold x1.
    unfold x1, dot. apply repeat_cls_longest.
    - intros c Hc. by rewrite (Hdot c Hc).
    - lia.
    - cbn [before after caps]. rewrite (consumed_span _ _ text) by done.
      by rewrite m_cls_hit.
    - intros a b Hab Ha _. destruct a as [|c [|d a]]; [done| |].
      + injection Hab as <- <-. done.
      + by destruct a. }
  cbn [search_to_end]. rewrite Hm. unfold z. cbn [before after rev app].
  unfold expand. cbn [List.map List.concat cap caps List.find fst snd Nat.eqb fmap option_map].
  by rewrite !app_nil_r.
Qed.

Lemma bullet_hit (bullet : N) (gap rest : jsstring) :
  is_bullet bullet = true -> (forall c, c ∈ gap -> is_space c = true) ->
  stops is_space rest ->
  replace_first false Quotes.re_bullet (expand []) (bullet :: gap ++ rest) = rest.
Proof.
  intros Hb Hgap Hrest. unfold replace_first. cbn [search].
  set (z := MState (rev gap ++ [bullet]) rest []).
  assert (Hm : exec_at false Quotes.re_bullet [] (bullet :: gap ++ rest) = Some z).
  { unfold exec_at. rewrite bullet_pattern, m_seq, m_bol.
    rewrite m_seq, m_cls_hit by done. cbn beta. rewrite m_star. cbn [after].
    unfold space.
    by apply (repeat_cls_hit false is_space Some z rest gap
                (MState [bullet] (gap ++ rest) [])); [| | |rewrite length_app; lia|]. }
  rewrite Hm. unfold z. cbn [before after rev app]. done.
Qed.

Lemma bullet_miss (c : N) (rest : jsstring) :
  is_bullet c = false ->
  replace_first false Quotes.re_bullet (expand []) (c :: rest) = c :: rest.
Proof.
  intros Hc. unfold replace_first. cbn [search].
  assert (Hm : exec_at false Quotes.re_bullet [] (c :: rest) = None).
  { unfold exec_at. rewrite bullet_pattern, m_seq, m_bol.
    by rewrite m_seq, m_cls_miss. }
  rewrite Hm. rewrite bullet_pattern, search_bol_miss; done.
Qed.

End Quoted.

(** X22. A line of the quotes section that is a text between two double
    quotes, with or without a bullet ([-], [•] or [*]) and white space
    in front, is shown as the text alone, double quotes inside it kept:
    when the text has no line terminator in it. *)
Theorem quoted_line_gives_quote (text : jsstring) :
  (forall c, c ∈ text -> is_line_terminator c = false) ->
  Quotes.unquote (34 :: text ++ [34]) = text /\
  forall bullet gap,
    bullet = 45 \/ bullet = 8226 \/ bullet = 42 ->
    (forall c, c ∈ gap -> is_space c = true) ->
    Quotes.unquote (bullet :: gap ++ 34 :: text ++ [34]) = text.
Proof.
  intros Hdot. unfold Quotes.unquote. split.
  - rewrite bullet_miss by done. by apply quoted_hit.
  - intros bullet gap Hb Hgap. rewrite bullet_hit; [by apply quoted_hit| |done|done].
    by destruct Hb as [->|[->| ->]].
Qed.

Lemma quoted_line_gives_quote_witness :
  Quotes.unquote
    (js "-  " ++ 34 :: js "we said " ++ 34 :: js "no" ++ 34 :: js " twice" ++ [34])
  = js "we said " ++ 34 :: js "no" ++ 34 :: js " twice".
Proof.
  refine (proj2 (quoted_line_gives_quote
                   (js "we said " ++ 34 :: js "no" ++ 34 :: js " twice") _)
            45 (js "  ") _ _).
  - intros c Hc. apply negb_true_iff. revert c Hc. apply forallb_elem. by vm_compute.
  - by left.
  - apply forallb_elem. by vm_compute.
Defined.

(** ** A document of plain lines *)

Lemma run_plain (lines : list jsstring) :
  Forall (fun raw => header_or_blank (trim raw) \/ plain_line (trim raw)) lines ->
  forall entries,
  fold_left step lines (LoopState entries false)
  = LoopState (entries ++ kept_lines lines) false.
Proof.
  induction 1 as [|raw lines Hraw _ IH]; intros entries.
  - cbn. by rewrite app_nil_r.
  - cbn [fold_left]. unfold kept_lines. cbn [List.map List.filter].
    destruct Hraw as [Hb|Hp].
    + rewrite (step_blank _ raw Hb), IH.
      assert (eqs (trim raw) (js "WEBVTT") || eqs (trim raw) [] = true) as ->; [|done].
      destruct Hb as [-> | ->]; [by rewrite eqs_refl|].
      rewrite (eqs_refl []). apply orb_true_r.
    + unfold step at 2. rewrite (classify_plain _ Hp).
      destruct Hp as (Hb & _). rewrite (not_header_or_blank _ Hb).
      apply not_header_or_blank, orb_false_iff in Hb as [_ ->].
      cbn [skipNext transcriptLines negb andb]. rewrite IH.
      by rewrite <- app_assoc.
Qed.

(** X23. On a document in which every line is blank, the header or a
    line for the plain-text branch (no identifier, no timing line, no
    voice tag), [parseVTT] returns the enhancement of the trimmed lines
    other than the header and the blank ones, joined by single spaces:
    with no timing or identifier line the flag is never set and no line
    of text is dropped. *)
Theorem plain_document (lines : list jsstring) :
  Forall (fun raw => header_or_blank (trim raw) \/ plain_line (trim raw)) lines ->
  Forall (fun raw => 10 ∉ raw) lines ->
  parseVTT (join (js nl) lines)
  = enhanceTranscript (trim (join (js " ") (kept_lines lines))).
Proof.
  intros Hlines Hnl. unfold parseVTT. rewrite (run_split_join _ Hnl).
  unfold run. by rewrite (run_plain _ Hlines).
Qed.

Lemma plain_document_witness :
  parseVTT (js ("WEBVTT" ++ nl ++ nl ++ " so we agreed " ++ nl ++ "yes.and then?"))
  = js "So we agreed yes. And then?".
Proof.
  assert (Hlines :
    Forall (fun raw => header_or_blank (trim raw) \/ plain_line (trim raw))
      [js "WEBVTT"; []; js " so we agreed "; js "yes.and then?"]).
  { apply Forall_cons. split; [left; by left|].
    apply Forall_cons. split; [left; by right|].
    apply Forall_cons. split.
    { right. split; [intros [H|H]; vm_compute in H; discriminate|].
      split; [vm_compute; lia|]. split; reflexivity. }
    apply Forall_cons. split; [|constructor].
    right. split; [intros [H|H]; vm_compute in H; discriminate|].
    split; [vm_compute; lia|]. split; reflexivity. }
  refine (eq_trans (plain_document _ Hlines _) _).
  - repeat constructor; apply not_elem_forallb; by vm_compute.
  - by vm_compute.
Defined.

(** ** The selection of pre-loaded files *)

Section PreloadedSet.

Implicit Types (s : list jsstring) (key : jsstring).

Lemma set_delete_absent s key :
  existsb (eqs key) s = false -> Preloaded.set_delete s key = s.
Proof.
  unfold Preloaded.set_delete. induction s as [|k s IH]; [done|].
  cbn [existsb List.filter]. intros [Hk Hs]%orb_false_iff.
  assert (eqs k key = false) as ->.
  { apply eqs_false. intros ->. by rewrite eqs_refl in Hk. }
  cbn [negb]. by rewrite IH.
Qed.

Lemma set_delete_gone s key :
  existsb (eqs key) (Preloaded.set_delete s key) = false.
Proof.
  unfold Preloaded.set_delete. induction s as [|k s IH]; [done|].
  cbn [List.filter]. destruct (eqs k key) eqn:E; cbn [negb]; [done|].
  cbn [existsb]. rewrite IH, orb_false_r.
  apply eqs_false. intros ->. by rewrite eqs_refl in E.
Qed.

End PreloadedSet.

(** X24. With a blank text input, toggling a pre-loaded file twice
    leaves the same files selected.  A file that was not selected leaves
    the selection as it was; a file that was selected comes back at the
    end of the selection, so the order in which the files are loaded
    changes. *)
Theorem togglePreloadedFile_twice (st : Preloaded.state) (filename : jsstring) :
  trim (Preloaded.textInput st) = [] ->
  let selected := Preloaded.selectedPreloadedFiles st in
  let again :=
    Preloaded.selectedPreloadedFiles
      (Preloaded.togglePreloadedFile (Preloaded.togglePreloadedFile st filename)
         filename) in
  (filename ∉ selected -> again = selected) /\
  (filename ∈ selected ->
   again = Preloaded.set_delete selected filename ++ [filename]) /\
  (forall other, other ∈ again <-> other ∈ selected).
Proof.
  intros Htext. cbn zeta. unfold Preloaded.togglePreloadedFile.
  rewrite Htext. cbn [negb eqs Preloaded.textInput Preloaded.selectedPreloadedFiles].
  change (eqs [] []) with true. cbn [negb Preloaded.textInput Preloaded.selectedPreloadedFiles].
  rewrite Htext. change (eqs [] []) with true.
  cbn [negb Preloaded.selectedPreloadedFiles].
  set (sel := Preloaded.selectedPreloadedFiles st).
  destruct (existsb (eqs filename) sel) eqn:E.
  - rewrite set_delete_gone. unfold set_add. rewrite set_delete_gone.
    apply existsb_eqs in E. split; [done|]. split; [done|].
    intros other. rewrite elem_of_app, list_elem_of_singleton.
    unfold Preloaded.set_delete. rewrite !list_elem_of_In, filter_In, <- !list_elem_of_In.
    rewrite negb_true_iff, eqs_false.
    destruct (decide (other = filename)) as [->|Hne]; tauto.
  - assert (Hout : filename ∉ sel).
    { intros Hin%existsb_eqs. congruence. }
    unfold set_add. rewrite E.
    assert (existsb (eqs filename) (sel ++ [filename]) = true) as ->.
    { rewrite existsb_app. cbn [existsb]. by rewrite eqs_refl, orb_true_r. }
    assert (Preloaded.set_delete (sel ++ [filename]) filename = sel) as ->.
    { unfold Preloaded.set_delete. rewrite List.filter_app. cbn [List.filter].
      rewrite eqs_refl. cbn [negb]. rewrite app_nil_r.
      by apply set_delete_absent. }
    split; [done|]. split; [done|done].
Qed.

Lemma togglePreloadedFile_twice_witness :
  let st := Preloaded.State [] [js "a.vtt"; js "b.vtt"] [] in
  Preloaded.selectedPreloadedFiles
    (Preloaded.togglePreloadedFile (Preloaded.togglePreloadedFile st (js "a.vtt"))
       (js "a.vtt"))
  = [js "b.vtt"; js "a.vtt"].
Proof.
  intros st.
  refine (proj1 (proj2 (togglePreloadedFile_twice st (js "a.vtt") eq_refl)) _).
  apply list_elem_of_here.
Defined.
